(** * snowflake.py: the polar pixel model of the snowflake mirrorer

    A shallow embedding of [snowflake.py].  Python floats are idealised as
    real numbers ([R]), with [math.pi] as [PI]: rounding, infinities and
    NaN are not part of that model, so what is stated over it about pixels
    and angles is stated on the points of the window and up to a pixel, or
    a small tolerance, wherever rounding could show.  What rounding itself
    decides is computed on binary64 doubles, in [Binary64].  Python ints
    are [Z].  Exceptions are values of an error monad.  A [PolarPoint]
    instance is an object with an identity, because the class defines
    [__hash__] but no [__eq__]. *)

From Stdlib Require Import Reals Lra Lia ZArith List Bool PeanoNat.
From Stdlib Require PrimFloat SpecFloat FloatOps.
Import ListNotations.

Local Open Scope R_scope.

(** ** Exceptions *)

Inductive exn : Type :=
| ZeroDivisionError
| KeyError
| ValueError.

Inductive result (A : Type) : Type :=
| Ok (a : A)
| Raise (e : exn).

Arguments Ok {A} a.
Arguments Raise {A} e.

Definition bind {A B : Type} (c : result A) (k : A -> result B) : result B :=
  match c with
  | Ok a => k a
  | Raise e => Raise e
  end.

Declare Scope py_scope.
Delimit Scope py_scope with py.
Notation "x <- c ;; k" := (bind c (fun x => k))
  (at level 61, c at next level, right associativity) : py_scope.
Local Open Scope py_scope.

(** A [for] loop whose body may raise: the accumulator is the loop's
    visible state. *)
Fixpoint for_each {A S : Type} (body : S -> A -> result S) (xs : list A) (acc : S)
  : result S :=
  match xs with
  | [] => Ok acc
  | x :: rest => acc' <- body acc x ;; for_each body rest acc'
  end.

(** ** Float operations, over the reals *)

(** [a / b] on floats (or a float and an int): raises on a zero divisor. *)
Definition fdiv (a b : R) : result R :=
  if Req_dec_T b 0 then Raise ZeroDivisionError else Ok (a / b).

(** [a % m] on floats, as the exact floored remainder: the result has the
    sign of [m]; the only modulus the program uses is the constant
    [RADIANS_IN_CIRCLE].  On doubles the result can round to [m] itself:
    see [Binary64.rem]. *)
Definition fmod (a m : R) : R := a - IZR (Int_part (a / m)) * m.

(** [int(r)]: truncation towards zero. *)
Definition int (r : R) : Z :=
  if Rle_dec 0 r then Int_part r else (- Int_part (- r))%Z.

(** [math.hypot]. *)
Definition hypot (x y : R) : R := sqrt (x * x + y * y).

(** [math.atan2(y, x)], with values in (-pi, pi]. *)
Definition atan2 (y x : R) : R :=
  if Rlt_dec 0 x then atan (y / x)
  else if Rlt_dec x 0 then
    if Rle_dec 0 y then atan (y / x) + PI else atan (y / x) - PI
  else if Rlt_dec 0 y then PI / 2
  else if Rlt_dec y 0 then - (PI / 2)
  else 0.

(** [range(n)]. *)
Definition range (n : Z) : list Z := map Z.of_nat (seq 0 (Z.to_nat n)).

(** ** Constants *)

Definition SCREEN_WIDTH : Z := 800.
Definition SCREEN_HEIGHT : Z := 650.
Definition RADIANS_IN_CIRCLE : R := 2 * PI.
Definition CARTESIAN_ORIGIN : Z * Z := (0%Z, SCREEN_HEIGHT).
Definition CARTESIAN_SIGNS : Z * Z := (1%Z, (-1)%Z).

Definition color : Type := (Z * Z * Z)%type.
Definition BACKGROUND_COLOR : color := (124%Z, 124%Z, 154%Z).
Definition SNOWFLAKE_COLOR : color := (64%Z, 64%Z, 255%Z).
Definition ALTERNATE_SNOWFLAKE_COLOR : color := (24%Z, 24%Z, 100%Z).
Definition LINE_THICKNESS : Z := 4.
Definition ALTERNATE_THICKNESS : Z := 2.

Definition SNOWFLAKE_SEGMENT_RADIUS : R := 200.
Definition SNOWFLAKE_SEGMENT_POSITION : Z * Z := (210%Z, 325%Z).
Definition VALID_SIZES : list Z := [2; 4; 6; 8; 10; 12]%Z.

Definition SNOWFLAKE_RADIUS : R := 150.
Definition SNOWFLAKE_POSITION : Z * Z := (600%Z, 325%Z).
Definition ROTATION_SPEED : R := - (8 / 1000).

Definition DEFAULT_SIZE : Z := 6.
Definition DEFAULT_MIRROR : bool := true.

(** ** Float operations, in binary64

    The same operations on IEEE 754 double-precision numbers, as CPython
    computes them, for what depends on rounding: [+] is the correctly
    rounded sum, and [%] is the C function [fmod] followed by CPython's
    adjustment of the sign. *)

Module Binary64.

Import PrimFloat SpecFloat FloatOps.

(** C's [fmod(x, y)]: the remainder of [x] by [y] with the quotient
    truncated towards zero.  It has the sign of [x] and is exact. *)
Definition fmod (x y : float) : float :=
  match Prim2SF x, Prim2SF y with
  | S754_nan, _ | _, S754_nan => nan
  | S754_infinity _, _ => nan
  | _, S754_zero _ => nan
  | S754_zero _, _ => x
  | S754_finite _ _ _, S754_infinity _ => x
  | S754_finite sx mx ex, S754_finite _ my ey =>
      let e := Z.min ex ey in
      let X := Z.shiftl (Zpos mx) (ex - e) in
      let Y := Z.shiftl (Zpos my) (ey - e) in
      SF2Prim (binary_normalize prec emax (cond_Zopp sx (X mod Y)) e sx)
  end.

(** [v % w] on floats ([float_rem] of CPython): a non-zero remainder whose
    sign differs from the sign of [w] has [w] added to it, in floating
    point; a zero remainder takes the sign of [w]. *)
Definition rem (v w : float) : result float :=
  if (w =? 0)%float then Raise ZeroDivisionError
  else
    let mod_ := fmod v w in
    if (mod_ =? 0)%float then Ok (if (w <? 0)%float then neg_zero else zero)
    else if xorb (w <? 0)%float (mod_ <? 0)%float then Ok (mod_ + w)%float
    else Ok mod_.

(** [math.pi], the double nearest to pi. *)
Definition pi : float := 0x1.921fb54442d18p+1%float.

Definition RADIANS_IN_CIRCLE : float := (2 * pi)%float.

(** [Snowflake.rotate], on the field [_current_angle] it updates. *)
Definition rotate (_current_angle angle : float) : result float :=
  let current := (_current_angle + angle)%float in
  rem current RADIANS_IN_CIRCLE.

End Binary64.

(** ** [to_rectangular] *)

Definition to_rectangular (theta radius : R)
    (polar_origin cartesian_origin cartesian_signs : Z * Z) : Z * Z :=
  let relative_x := radius * cos theta in
  let relative_y := radius * sin theta in
  let '(polar_x, polar_y) := polar_origin in
  let relative_x := IZR polar_x + relative_x in
  let relative_y := IZR polar_y + relative_y in
  let '(cartesian_x, cartesian_y) := cartesian_origin in
  let '(sign_x, sign_y) := cartesian_signs in
  let relative_x := IZR sign_x * relative_x + IZR cartesian_x in
  let relative_y := IZR sign_y * relative_y + IZR cartesian_y in
  (int relative_x, int relative_y).

(** The call shape used everywhere in the program: only [polar_origin] is
    passed, the Cartesian origin and signs take their defaults. *)
Definition to_rectangular_at (theta radius : R) (polar_origin : Z * Z) : Z * Z :=
  to_rectangular theta radius polar_origin CARTESIAN_ORIGIN CARTESIAN_SIGNS.

(** ** [PolarPoint] *)

Module PolarPoint.

(** The fields of an instance. *)
Record t : Type := new { radius : R; theta : R }.

Definition from_rectangular (point origin : Z * Z) : t :=
  let '(raw_x, raw_y) := point in
  let '(origin_x, origin_y) := origin in
  let relative_x := (raw_x - origin_x)%Z in
  let relative_y := (raw_y - origin_y)%Z in
  let radius := hypot (IZR relative_x) (IZR relative_y) in
  let theta_radians := atan2 (IZR relative_y) (IZR relative_x) in
  let theta := fmod theta_radians RADIANS_IN_CIRCLE in
  new radius theta.

(** [__hash__]: the hash of the tuple [(theta, radius)], kept as the
    tuple itself. *)
Definition hash (self : t) : R * R := (theta self, radius self).

Definition hash_eqb (h1 h2 : R * R) : bool :=
  (if Req_dec_T (fst h1) (fst h2) then true else false)
  && (if Req_dec_T (snd h1) (snd h2) then true else false).

End PolarPoint.

(** ** Instances and dicts keyed by them *)

(** A [PolarPoint] object: its identity and its fields. *)
Record instance : Type := alloc { ident : nat; fields : PolarPoint.t }.

(** [a is b]. *)
Definition is_ (a b : instance) : bool := Nat.eqb (ident a) (ident b).

(** [a == b]: [PolarPoint] defines no [__eq__], so this is [object.__eq__],
    which compares identities. *)
Definition eq_ (a b : instance) : bool := is_ a b.

(** The test a dict lookup applies to a stored key: equal hashes, then
    identity or [==]. *)
Definition key_match (stored k : instance) : bool :=
  PolarPoint.hash_eqb (PolarPoint.hash (fields stored)) (PolarPoint.hash (fields k))
  && (is_ stored k || eq_ stored k).

(** A dict, in insertion order. *)
Definition dict : Type := list (instance * Z).

(** [d[k] = v]: overwrite the value of a matching key, or append. *)
Fixpoint dict_set (d : dict) (k : instance) (v : Z) : dict :=
  match d with
  | [] => [(k, v)]
  | (k', v') :: rest =>
      if key_match k' k then (k', v) :: rest else (k', v') :: dict_set rest k v
  end.

(** [d.pop(k)], the value dropped: [KeyError] when no key matches. *)
Fixpoint dict_pop (d : dict) (k : instance) : result dict :=
  match d with
  | [] => Raise KeyError
  | (k', v') :: rest =>
      if key_match k' k then Ok rest
      else rest' <- dict_pop rest k ;; Ok ((k', v') :: rest')
  end.

(** [l.index(x)] on a tuple of ints. *)
Fixpoint index (l : list Z) (x : Z) : result Z :=
  match l with
  | [] => Raise ValueError
  | y :: rest => if Z.eqb y x then Ok 0%Z else i <- index rest x ;; Ok (i + 1)%Z
  end.

(** [l[i]] for an index already reduced modulo [len(l)]; the default is
    never reached for such an index. *)
Definition getitem (l : list Z) (i : Z) : Z := nth (Z.to_nat i) l 0%Z.

Definition len {A : Type} (l : list A) : Z := Z.of_nat (length l).

Definition Rltb (a b : R) : bool := if Rlt_dec a b then true else false.
Definition Rgtb (a b : R) : bool := if Rgt_dec a b then true else false.

(** ** [pygame.Rect] and draw calls *)

(** The four arguments of [pygame.Rect(left, top, width, height)]. *)
Record Rect : Type := mkRect { left : R; top : R; width : R; height : R }.

(** [pygame.draw.circle(surface, color, center, radius)]. *)
Inductive draw : Type :=
| circle (c : color) (center : Z * Z) (r : Z).

(** The draw calls of the outlines: [pygame.draw.circle] with a line
    width, [pygame.draw.arc] and [pygame.draw.line]. *)
Inductive outline : Type :=
| outline_circle (c : color) (center : Z * Z) (radius : R) (width : Z)
| outline_arc (c : color) (rect : R * R * R * R) (start_angle stop_angle : R) (width : Z)
| outline_line (c : color) (start_pos end_pos : Z * Z) (width : Z).

(** ** [SnowflakeSegment] *)

Module SnowflakeSegment.

Record t : Type := mk {
  radius : R;
  size : Z;
  origin : Z * Z;
  x : Z;
  y : Z;
  centered_angle : R
}.

Definition init (radius : R) (size : Z) (origin : Z * Z) (centered_angle : R) : t :=
  mk radius size origin (fst origin) (snd origin) centered_angle.

Definition set_size (self : t) (n : Z) : t :=
  mk (radius self) n (origin self) (x self) (y self) (centered_angle self).

Definition contains_point (self : t) (point : PolarPoint.t) : result bool :=
  angle_arc <- fdiv RADIANS_IN_CIRCLE (IZR (size self)) ;;
  let angle_begin := RADIANS_IN_CIRCLE - angle_arc / 2 in
  let angle_end := angle_arc / 2 in
  if Rltb (PolarPoint.theta point) angle_begin
     && Rgtb (PolarPoint.theta point) angle_end
  then Ok false
  else if Rgtb (PolarPoint.radius point) (radius self)
          || Rltb (PolarPoint.radius point) 0
  then Ok false
  else Ok true.

Definition get_region (self : t) (update : bool) : result Rect :=
  let '(x_1, origin_y) := origin self in
  current_size <- index VALID_SIZES (size self) ;;
  let current_size := (current_size - 1)%Z in
  let current_size := (current_size mod len VALID_SIZES)%Z in
  let min_size := Z.min (size self) (getitem VALID_SIZES current_size) in
  arc <- fdiv RADIANS_IN_CIRCLE (IZR min_size) ;;
  let height := sin (arc / 2) * radius self in
  let y_1 := IZR origin_y - height in
  let '(x_2, y_2) :=
    if update then (IZR x_1 + radius self, IZR origin_y + height)
    else (radius self, height * 2) in
  let x_1 := IZR x_1 - IZR LINE_THICKNESS in
  let y_1 := y_1 - IZR LINE_THICKNESS in
  let x_2 := x_2 + IZR LINE_THICKNESS * 2 in
  let y_2 := y_2 + IZR LINE_THICKNESS * 2 in
  Ok (mkRect x_1 y_1 x_2 y_2).

Definition draw_outline (self : t) : result (list outline) :=
  let x := x self in
  let y := y self in
  let radius := radius self in
  arc <- fdiv RADIANS_IN_CIRCLE (IZR (size self)) ;;
  let half_arc := arc / 2 in
  let epsilon := 1 / 100 in
  Ok [ outline_circle ALTERNATE_SNOWFLAKE_COLOR (x, y) radius ALTERNATE_THICKNESS;
       outline_arc ALTERNATE_SNOWFLAKE_COLOR
         (IZR x - radius, IZR y - radius, 2 * radius, 2 * radius)
         (centered_angle self - half_arc - epsilon)
         (centered_angle self + half_arc + epsilon)
         LINE_THICKNESS;
       outline_line ALTERNATE_SNOWFLAKE_COLOR (origin self)
         (to_rectangular_at (centered_angle self - half_arc) radius (origin self))
         LINE_THICKNESS;
       outline_line ALTERNATE_SNOWFLAKE_COLOR (origin self)
         (to_rectangular_at (centered_angle self + half_arc) radius (origin self))
         LINE_THICKNESS ].

End SnowflakeSegment.

(** ** [Snowflake] *)

Module Snowflake.

Record t : Type := mk {
  radius : R;
  size : Z;
  origin : Z * Z;
  x : Z;
  y : Z;
  mirror : bool;
  pixels : dict;
  _current_angle : R
}.

Definition init (radius : R) (size : Z) (origin : Z * Z) (mirror : bool) : t :=
  mk radius size origin (fst origin) (snd origin) mirror [] 0.

Definition set_pixels (self : t) (d : dict) : t :=
  mk (radius self) (size self) (origin self) (x self) (y self) (mirror self)
     d (_current_angle self).

Definition set_size (self : t) (n : Z) : t :=
  mk (radius self) n (origin self) (x self) (y self) (mirror self)
     (pixels self) (_current_angle self).

Definition set_mirror (self : t) (b : bool) : t :=
  mk (radius self) (size self) (origin self) (x self) (y self) b
     (pixels self) (_current_angle self).

Definition set_current_angle (self : t) (a : R) : t :=
  mk (radius self) (size self) (origin self) (x self) (y self) (mirror self)
     (pixels self) a.

Definition set_pixel (self : t) (point : instance) (value : Z) : t :=
  set_pixels self (dict_set (pixels self) point value).

Definition clear_pixels (self : t) : t := set_pixels self [].

(** The point tested for a stored pixel: its radius rescaled into the
    segment's space, its angle unchanged. *)
Definition rescaled (self : t) (segment : SnowflakeSegment.t) (pixel : instance)
  : result PolarPoint.t :=
  real_radius <- fdiv (PolarPoint.radius (fields pixel) * SnowflakeSegment.radius segment)
                      (radius self) ;;
  Ok (PolarPoint.new real_radius (PolarPoint.theta (fields pixel))).

Definition clear_pixels_outside (self : t) (segment : SnowflakeSegment.t) : result t :=
  to_delete <-
    for_each
      (fun (to_delete : list instance) (item : instance * Z) =>
         let pixel := fst item in
         point <- rescaled self segment pixel ;;
         inside <- SnowflakeSegment.contains_point segment point ;;
         if negb inside then Ok (to_delete ++ [pixel]) else Ok to_delete)
      (pixels self) [] ;;
  pixels' <- for_each dict_pop to_delete (pixels self) ;;
  Ok (set_pixels self pixels').

Definition rotate (self : t) (angle : R) : t :=
  let current := _current_angle self + angle in
  set_current_angle self (fmod current RADIANS_IN_CIRCLE).

Definition get_region (self : t) (update : bool) : Rect :=
  let '(origin_x, origin_y) := origin self in
  let x_1 := IZR origin_x - radius self in
  let y_1 := IZR origin_y - radius self in
  let '(x_2, y_2) :=
    if update then (IZR origin_x + radius self, IZR origin_y + radius self)
    else (radius self * 2, radius self * 2) in
  let x_1 := x_1 - IZR LINE_THICKNESS in
  let y_1 := y_1 - IZR LINE_THICKNESS in
  let x_2 := x_2 + IZR LINE_THICKNESS * 2 in
  let y_2 := y_2 + IZR LINE_THICKNESS * 2 in
  mkRect x_1 y_1 x_2 y_2.

(** [SNOWFLAKE_COLOR if value == 1 else BACKGROUND_COLOR]. *)
Definition pixel_color (value : Z) : color :=
  if Z.eqb value 1 then SNOWFLAKE_COLOR else BACKGROUND_COLOR.

Definition draw_segment (self : t) (segment : SnowflakeSegment.t) : result (list draw) :=
  for_each
    (fun (surface : list draw) (item : instance * Z) =>
       let '(pixel, value) := item in
       real_radius <- fdiv (PolarPoint.radius (fields pixel)
                            * SnowflakeSegment.radius segment) (radius self) ;;
       let xy := to_rectangular_at (PolarPoint.theta (fields pixel)) real_radius
                   (SnowflakeSegment.origin segment) in
       Ok (surface ++ [circle (pixel_color value) xy LINE_THICKNESS]))
    (pixels self) [].

(** The placement angle of slot [i] in [draw_pixels]. *)
Definition real_theta (mirror : bool) (arc : R) (i : Z) (theta current : R) : R :=
  let real_theta :=
    if mirror then
      if Z.eqb (i mod 2) 0 then IZR i * arc + theta else IZR i * arc - theta
    else IZR i * arc + theta in
  real_theta + current.

(** The body of the outer loop of [draw_pixels]: the draw calls of one
    stored pixel, one per slot. *)
Definition draw_pixel (self : t) (pixel : instance) (value : Z) : result (list draw) :=
  let radius := PolarPoint.radius (fields pixel) in
  arc <- fdiv RADIANS_IN_CIRCLE (IZR (size self)) ;;
  Ok (map (fun i =>
             let real_theta := real_theta (mirror self) arc i
                                 (PolarPoint.theta (fields pixel)) (_current_angle self) in
             circle (pixel_color value)
                    (to_rectangular_at real_theta radius (origin self))
                    LINE_THICKNESS)
          (range (size self))).

Definition draw_pixels (self : t) : result (list draw) :=
  for_each
    (fun (surface : list draw) (item : instance * Z) =>
       calls <- draw_pixel self (fst item) (snd item) ;;
       Ok (surface ++ calls))
    (pixels self) [].

Definition draw_outline (self : t) : list outline :=
  [ outline_circle SNOWFLAKE_COLOR (origin self) (radius self) ALTERNATE_THICKNESS ].

End Snowflake.

(** ** [main]: the state the loop mutates

    The surface, the font and the update flags only decide what is drawn
    and flushed; the model keeps the variables the snowflake data depends
    on, and a counter that gives each newly constructed [PolarPoint] an
    identity no stored key has. *)

Module Main.

Inductive key : Type :=
| K_r | K_m | K_TAB | K_BACKSPACE | K_DELETE | K_other.

Inductive event : Type :=
| QUIT
| KEYDOWN (k : key)
| other_event.

Definition key_eqb (a b : key) : bool :=
  match a, b with
  | K_r, K_r | K_m, K_m | K_TAB, K_TAB
  | K_BACKSPACE, K_BACKSPACE | K_DELETE, K_DELETE | K_other, K_other => true
  | _, _ => false
  end.

Record state : Type := mk {
  running : bool;
  rotate : bool;
  segment : SnowflakeSegment.t;
  snowflake : Snowflake.t;
  next_ident : nat
}.

(** What one frame reads from pygame: the event queue, the state of the
    left button and the pointer position. *)
Record input : Type := mkInput {
  events : list event;
  MB1 : bool;
  mouse_pos : Z * Z
}.

Definition init : state :=
  mk true true
     (SnowflakeSegment.init SNOWFLAKE_SEGMENT_RADIUS DEFAULT_SIZE
        SNOWFLAKE_SEGMENT_POSITION 0)
     (Snowflake.init SNOWFLAKE_RADIUS DEFAULT_SIZE SNOWFLAKE_POSITION DEFAULT_MIRROR)
     0.

(** The Tab branch: cycle the size of both figures, then prune. *)
Definition tab_key (st : state) : result state :=
  current_size <- index VALID_SIZES (Snowflake.size (snowflake st)) ;;
  let current_size := (current_size + 1)%Z in
  let current_size := (current_size mod len VALID_SIZES)%Z in
  let snowflake' := Snowflake.set_size (snowflake st) (getitem VALID_SIZES current_size) in
  let segment' := SnowflakeSegment.set_size (segment st) (getitem VALID_SIZES current_size) in
  snowflake'' <- Snowflake.clear_pixels_outside snowflake' segment' ;;
  Ok (mk (running st) (rotate st) segment' snowflake'' (next_ident st)).

Definition handle_event (st : state) (ev : event) : result state :=
  match ev with
  | QUIT => Ok (mk false (rotate st) (segment st) (snowflake st) (next_ident st))
  | KEYDOWN k =>
      let st :=
        if key_eqb k K_r
        then mk (running st) (negb (rotate st)) (segment st) (snowflake st) (next_ident st)
        else st in
      if key_eqb k K_m then
        Ok (mk (running st) (rotate st) (segment st)
              (Snowflake.set_mirror (snowflake st) (negb (Snowflake.mirror (snowflake st))))
              (next_ident st))
      else if key_eqb k K_TAB then tab_key st
      else if key_eqb k K_BACKSPACE || key_eqb k K_DELETE then
        Ok (mk (running st) (rotate st) (segment st)
              (Snowflake.clear_pixels (snowflake st)) (next_ident st))
      else Ok st
  | other_event => Ok st
  end.

Definition cursor_logic (st : state) (inp : input) : result state :=
  if MB1 inp then
    let '(mouse_x, mouse_y) := mouse_pos inp in
    let mouse_y := (SCREEN_HEIGHT - mouse_y)%Z in
    let polar_position :=
      alloc (next_ident st)
            (PolarPoint.from_rectangular (mouse_x, mouse_y)
               (SnowflakeSegment.origin (segment st))) in
    let st := mk (running st) (rotate st) (segment st) (snowflake st)
                 (S (next_ident st)) in
    inside <- SnowflakeSegment.contains_point (segment st) (fields polar_position) ;;
    if inside then
      ratio <- fdiv (Snowflake.radius (snowflake st))
                    (SnowflakeSegment.radius (segment st)) ;;
      let polar_position :=
        alloc (ident polar_position)
              (PolarPoint.new (PolarPoint.radius (fields polar_position) * ratio)
                              (PolarPoint.theta (fields polar_position))) in
      Ok (mk (running st) (rotate st) (segment st)
            (Snowflake.set_pixel (snowflake st) polar_position 1)
            (next_ident st))
    else Ok st
  else Ok st.

Definition output_logic (st : state) : state :=
  if rotate st then
    mk (running st) (rotate st) (segment st)
       (Snowflake.rotate (snowflake st) ROTATION_SPEED) (next_ident st)
  else st.

(** One iteration of the [while running] loop. *)
Definition frame (st : state) (inp : input) : result state :=
  st <- for_each handle_event (events inp) st ;;
  st <- cursor_logic st inp ;;
  Ok (output_logic st).

Inductive reachable : state -> Prop :=
| reachable_init : reachable init
| reachable_frame st inp st' :
    reachable st -> running st = true -> frame st inp = Ok st' -> reachable st'.

End Main.

(** * Vocabulary of the statements *)

(** ** Angles *)

(** Two angles that differ by a whole number of turns. *)
Definition same_angle (a b : R) : Prop :=
  exists k : Z, a - b = IZR k * RADIANS_IN_CIRCLE.

(** [theta] lies in the arc of half-width [half_arc] centred at [centre],
    angles being read modulo a full turn. *)
Definition in_arc (centre half_arc theta : R) : Prop :=
  exists k : Z,
    centre - half_arc <= theta + IZR k * RADIANS_IN_CIRCLE <= centre + half_arc.

(** Membership in a segment as the segment's fields describe it. *)
Definition inside_segment (seg : SnowflakeSegment.t) (p : PolarPoint.t) : Prop :=
  0 <= PolarPoint.radius p <= SnowflakeSegment.radius seg
  /\ in_arc (SnowflakeSegment.centered_angle seg)
            (PI / IZR (SnowflakeSegment.size seg)) (PolarPoint.theta p).

(** The placement angle the clone mode is meant to give slot [i] of [N]. *)
Definition clone_angle (N i : Z) (theta current : R) : R :=
  IZR i * (2 * PI / IZR N) + theta + current.

(** The placement angle [draw_pixels] computes for slot [i], without the
    rotation offset. *)
Definition unrotated (mirror : bool) (N i : Z) (theta current : R) : R :=
  Snowflake.real_theta mirror (RADIANS_IN_CIRCLE / IZR N) i theta current - current.

(** ** Round trips *)

(** [to_rectangular(p.theta, p.radius, polar_origin=O)] for
    [p = PolarPoint.from_rectangular(point, origin=O)]. *)
Definition round_trip (point O : Z * Z) : Z * Z :=
  let p := PolarPoint.from_rectangular point O in
  to_rectangular_at (PolarPoint.theta p) (PolarPoint.radius p) O.

(** Equal within one pixel in each coordinate. *)
Definition within_one (p q : Z * Z) : Prop :=
  (Z.abs (fst p - fst q) <= 1)%Z /\ (Z.abs (snd p - snd q) <= 1)%Z.

(** ** Stored pixels *)

(** A list of entries is a dict when no object is stored as a key twice. *)
Definition dict_wf (d : dict) : Prop := NoDup (map (fun item => ident (fst item)) d).

(** The test [clear_pixels_outside] applies to a stored pixel, and its
    outcome as a boolean (an exception counting as a failed test). *)
Definition inside (s : Snowflake.t) (segment : SnowflakeSegment.t) (pixel : instance)
  : result bool :=
  point <- Snowflake.rescaled s segment pixel ;;
  SnowflakeSegment.contains_point segment point.

Definition insideb (s : Snowflake.t) (segment : SnowflakeSegment.t) (pixel : instance)
  : bool :=
  match inside s segment pixel with
  | Ok b => b
  | Raise _ => false
  end.

(** The rule of the spec for [clear_pixels_outside]: the radius of a stored
    pixel is rescaled into the segment's coordinate space,
    real_radius = pixel.radius * segment.radius / snowflake.radius, the
    angle is kept, and the pixel stays when [contains_point] of the segment
    returns [True] for that point. *)
Definition real_radius (s : Snowflake.t) (segment : SnowflakeSegment.t)
    (pixel : instance) : R :=
  PolarPoint.radius (fields pixel) * SnowflakeSegment.radius segment / Snowflake.radius s.

Definition stays (s : Snowflake.t) (segment : SnowflakeSegment.t) (pixel : instance)
  : bool :=
  match
    SnowflakeSegment.contains_point segment
      (PolarPoint.new (real_radius s segment pixel) (PolarPoint.theta (fields pixel)))
  with
  | Ok true => true
  | _ => false
  end.

Definition color_of (d : draw) : color :=
  match d with circle c _ _ => c end.

(** ** Regions *)

(** The two readings of the four numbers [get_region] returns: as the
    absolute bounds [x_1, y_1, x_2, y_2] ("positions if updating"), and as
    a top-left corner with a width and a height ("distances if drawing"). *)
Definition in_bounds (r : Rect) (px py : R) : Prop :=
  left r <= px <= width r /\ top r <= py <= height r.

Definition in_box (r : Rect) (px py : R) : Prop :=
  left r <= px <= left r + width r /\ top r <= py <= top r + height r.

(** The bounds form [u] reaches [LINE_THICKNESS] further right and down
    than the box form [d], from the same corner. *)
Definition overshoots (u d : Rect) : Prop :=
  left u = left d /\ top u = top d
  /\ width u = left d + width d + IZR LINE_THICKNESS
  /\ height u = top d + height d + IZR LINE_THICKNESS.

(** ** What the main loop maintains *)

Record invariant (st : Main.state) : Prop := {
  inv_segment_radius :
    SnowflakeSegment.radius (Main.segment st) = SNOWFLAKE_SEGMENT_RADIUS;
  inv_segment_origin :
    SnowflakeSegment.origin (Main.segment st) = SNOWFLAKE_SEGMENT_POSITION;
  inv_radius : Snowflake.radius (Main.snowflake st) = SNOWFLAKE_RADIUS;
  inv_size : In (Snowflake.size (Main.snowflake st)) VALID_SIZES;
  inv_sizes :
    SnowflakeSegment.size (Main.segment st) = Snowflake.size (Main.snowflake st);
  inv_pixels :
    Forall (fun item => (ident (fst item) < Main.next_ident st)%nat /\ snd item = 1%Z)
           (Snowflake.pixels (Main.snowflake st));
  inv_wf : dict_wf (Snowflake.pixels (Main.snowflake st))
}.

(** The state after a frame, or the same state if the frame raises. *)
Definition after_frame (st : Main.state) (inp : Main.input) : Main.state :=
  match Main.frame st inp with
  | Ok st' => st'
  | Raise _ => st
  end.

(** ** Concrete inputs *)

(** The segment and the snowflake [main] constructs. *)
Definition main_segment : SnowflakeSegment.t := Main.segment Main.init.
Definition main_snowflake : Snowflake.t := Main.snowflake Main.init.

(** A snowflake holding one pixel on the bisector of the segment and one
    opposite to it, and a loop state around it. *)
Definition pixel_ahead : instance := alloc 0 (PolarPoint.new 75 0).
Definition pixel_behind : instance := alloc 1 (PolarPoint.new 75 PI).

Definition two_pixel_snowflake : Snowflake.t :=
  Snowflake.set_pixels main_snowflake [(pixel_ahead, 1%Z); (pixel_behind, 1%Z)].


(** The same with a third pixel, on the bisector and beyond the rim of the
    snowflake: its radius 180 is below the segment's radius 200, and
    rescaled it is 240. *)
Definition pixel_beyond : instance := alloc 2 (PolarPoint.new 180 0).

Definition three_pixel_snowflake : Snowflake.t :=
  Snowflake.set_pixels main_snowflake
    [(pixel_ahead, 1%Z); (pixel_behind, 1%Z); (pixel_beyond, 1%Z)].

Definition three_pixel_state : Main.state :=
  Main.mk true true main_segment three_pixel_snowflake 3.

(** The left button held down at screen position (310, 325), which is 100
    pixels to the right of the apex of the segment, with no key pressed. *)
Definition held_click : Main.input := Main.mkInput [] true (310%Z, 325%Z).

(** The key an accepted [held_click] stores, as the [n]-th object made. *)
Definition click_key (n : nat) : instance := alloc n (PolarPoint.new 75 0).

(** * Vocabulary of the further properties *)

(** The entries of [d] with the value of the key [p] replaced by [v]. *)
Definition with_value (d : dict) (p : instance) (v : Z) : dict :=
  map (fun item => if is_ (fst item) p then (fst item, v) else item) d.

(** The radius of a dot. *)
Definition dot_radius (d : draw) : Z :=
  match d with circle _ _ r => r end.

(** A stored pixel fits the figures: rescaled it passes the segment's test,
    its angle is normalised and it lies within the snowflake's circle. *)
Definition fits (s : Snowflake.t) (segment : SnowflakeSegment.t) (pixel : instance)
  : Prop :=
  inside s segment pixel = Ok true
  /\ 0 <= PolarPoint.theta (fields pixel) < RADIANS_IN_CIRCLE
  /\ 0 <= PolarPoint.radius (fields pixel) <= Snowflake.radius s.

(** The geometry [main] sets up and never changes, and the fit of every
    stored pixel. *)
Record settled (st : Main.state) : Prop := {
  settled_invariant : invariant st;
  settled_centered : SnowflakeSegment.centered_angle (Main.segment st) = 0;
  settled_origin : Snowflake.origin (Main.snowflake st) = SNOWFLAKE_POSITION;
  settled_angle :
    0 <= Snowflake._current_angle (Main.snowflake st) < RADIANS_IN_CIRCLE;
  settled_pixels :
    Forall (fun item => fits (Main.snowflake st) (Main.segment st) (fst item))
           (Snowflake.pixels (Main.snowflake st))
}.

(** The centre of a dot, and the dot lying within a box: the square around
    it does. *)
Definition dot_centre (d : draw) : Z * Z :=
  match d with circle _ centre _ => centre end.

Definition dot_in_box (r : Rect) (d : draw) : Prop :=
  let '(x, y) := dot_centre d in
  in_box r (IZR (x - dot_radius d)) (IZR (y - dot_radius d))
  /\ in_box r (IZR (x + dot_radius d)) (IZR (y + dot_radius d)).

(** Two dots of one colour and one radius whose centres are within one
    pixel of each other. *)
Definition same_dot_within_one (d1 d2 : draw) : Prop :=
  color_of d1 = color_of d2
  /\ dot_radius d1 = dot_radius d2
  /\ within_one (dot_centre d1) (dot_centre d2).

(** A point of the window, and a sign as [cartesian_signs] holds them. *)
Definition on_screen (p : Z * Z) : Prop :=
  (0 <= fst p <= SCREEN_WIDTH)%Z /\ (0 <= snd p <= SCREEN_HEIGHT)%Z.

Definition is_sign (z : Z) : Prop := z = 1%Z \/ z = (-1)%Z.

(** Two angles that agree within [tol] once whole turns are set aside. *)
Definition near_angle (tol a b : R) : Prop :=
  exists k : Z, Rabs (a - b - IZR k * RADIANS_IN_CIRCLE) <= tol.


Definition is_quit (ev : Main.event) : bool :=
  match ev with
  | Main.QUIT => true
  | _ => false
  end.

(** A frame in which nothing is pressed, with the pointer anywhere. *)
Definition idle (pos : Z * Z) : Main.input := Main.mkInput [] false pos.

(** Consecutive frames. *)
Definition run (inps : list Main.input) (st : Main.state) : result Main.state :=
  for_each Main.frame inps st.

(** The size after [n] in the cycle of [VALID_SIZES]. *)
Definition next_size (n : Z) : Z := if Z.eqb n 12 then 2%Z else (n + 2)%Z.

(** A loop state with the size of both figures and the stored pixels
    replaced. *)
Definition tab_state (st : Main.state) (n : Z) (l : dict) : Main.state :=
  Main.mk (Main.running st) (Main.rotate st)
    (SnowflakeSegment.set_size (Main.segment st) n)
    (Snowflake.set_pixels (Snowflake.set_size (Main.snowflake st) n) l)
    (Main.next_ident st).

(** The sizes [k] presses of Tab go through, starting after [n]. *)
Fixpoint tab_sizes (k : nat) (n : Z) : list Z :=
  match k with
  | O => []
  | S k => next_size n :: tab_sizes k (next_size n)
  end.

(** The entries that pass the test of the segment of [st] cut into [m]
    slices, and the entries left after pruning for each size of a list in
    turn. *)
Definition fits_size (st : Main.state) (m : Z) (item : instance * Z) : bool :=
  insideb (Main.snowflake st) (SnowflakeSegment.set_size (Main.segment st) m) (fst item).

Definition prune (st : Main.state) (sizes : list Z) (l : dict) : dict :=
  fold_left (fun l m => filter (fits_size st m) l) sizes l.

(** The slice count the segment's region is sized for: the size before [n]
    in [VALID_SIZES], except that the first size has none smaller. *)
Definition region_size (n : Z) : Z := if Z.eqb n 2 then 2%Z else (n - 2)%Z.

(** The centre of a dot lying in a box. *)
Definition centre_in_box (r : Rect) (d : draw) : Prop :=
  in_box r (IZR (fst (dot_centre d))) (IZR (snd (dot_centre d))).

(** A dot centred within [rho] pixels, in each coordinate, of a point. *)
Definition centre_near (c : Z * Z) (rho : Z) (d : draw) : Prop :=
  (Z.abs (fst (dot_centre d) - fst c) <= rho)%Z
  /\ (Z.abs (snd (dot_centre d) - snd c) <= rho)%Z.

(** * Properties *)

(** ** The float operations *)

Lemma RADIANS_IN_CIRCLE_pos : 0 < RADIANS_IN_CIRCLE.
Proof. unfold RADIANS_IN_CIRCLE. pose proof PI_RGT_0. lra. Qed.

Lemma fdiv_ok (a b : R) : b <> 0 -> fdiv a b = Ok (a / b).
Proof. intros Hb. unfold fdiv. destruct (Req_dec_T b 0); [contradiction | reflexivity]. Qed.

Lemma fdiv_zero (a : R) : fdiv a 0 = Raise ZeroDivisionError.
Proof. unfold fdiv. destruct (Req_dec_T 0 0); [reflexivity | contradiction]. Qed.

Lemma fmod_range (a m : R) : 0 < m -> 0 <= fmod a m < m.
Proof.
  intros Hm. unfold fmod.
  destruct (base_Int_part (a / m)) as [Hlo Hhi].
  assert (Ha : a = a / m * m) by (field; lra).
  set (q := a / m) in *. set (k := IZR (Int_part q)) in *.
  split; nra.
Qed.

Lemma fmod_shift (a m : R) : fmod a m = a - IZR (Int_part (a / m)) * m.
Proof. reflexivity. Qed.

Lemma Int_part_IZR (z : Z) : Int_part (IZR z) = z.
Proof. symmetry. apply Int_part_spec. lra. Qed.

Lemma int_IZR (z : Z) : int (IZR z) = z.
Proof.
  unfold int. destruct (Rle_dec 0 (IZR z)).
  - apply Int_part_IZR.
  - rewrite <- opp_IZR, Int_part_IZR. lia.
Qed.

Lemma same_angle_fmod (a : R) : same_angle (fmod a RADIANS_IN_CIRCLE) a.
Proof.
  exists (- Int_part (a / RADIANS_IN_CIRCLE))%Z.
  rewrite fmod_shift, opp_IZR. ring.
Qed.

Lemma same_angle_sym (a b : R) : same_angle a b -> same_angle b a.
Proof. intros [k Hk]. exists (- k)%Z. rewrite opp_IZR. lra. Qed.

Lemma same_angle_trans (a b c : R) :
  same_angle a b -> same_angle b c -> same_angle a c.
Proof.
  intros [k Hk] [j Hj]. exists (k + j)%Z. rewrite plus_IZR.
  replace (a - c) with ((a - b) + (b - c)) by ring. rewrite Hk, Hj. ring.
Qed.

Lemma same_angle_plus (a b c : R) : same_angle a b -> same_angle (a + c) (b + c).
Proof. intros [k Hk]. exists k. rewrite <- Hk. ring. Qed.

Lemma int_eq (r : R) (z : Z) : r = IZR z -> int r = z.
Proof. intros ->. apply int_IZR. Qed.

(** Two angles in [0, 2 pi) that differ by whole turns are equal. *)
Lemma same_angle_unique (a b : R) :
  0 <= a < RADIANS_IN_CIRCLE -> 0 <= b < RADIANS_IN_CIRCLE ->
  same_angle a b -> a = b.
Proof.
  intros Ha Hb [k Hk]. pose proof RADIANS_IN_CIRCLE_pos as Hpos.
  assert (Hk0 : k = 0%Z).
  { assert (H1 : (-1 < k)%Z).
    { apply lt_IZR. apply Rmult_lt_reg_r with RADIANS_IN_CIRCLE; [exact Hpos|]. lra. }
    assert (H2 : (k < 1)%Z).
    { apply lt_IZR. apply Rmult_lt_reg_r with RADIANS_IN_CIRCLE; [exact Hpos|]. lra. }
    lia. }
  subst k. lra.
Qed.

(** ** [rotate] *)

Lemma rotate_current_angle (s : Snowflake.t) (d : R) :
  Snowflake._current_angle (Snowflake.rotate s d)
  = fmod (Snowflake._current_angle s + d) RADIANS_IN_CIRCLE.
Proof. reflexivity. Qed.

Lemma rotate_in_circle (s : Snowflake.t) (d : R) :
  0 <= Snowflake._current_angle (Snowflake.rotate s d) < RADIANS_IN_CIRCLE.
Proof. rewrite rotate_current_angle. apply fmod_range, RADIANS_IN_CIRCLE_pos. Qed.

Lemma rotate_same_angle (s : Snowflake.t) (a b : R) :
  same_angle
    (Snowflake._current_angle (Snowflake.rotate (Snowflake.rotate s a) b))
    (Snowflake._current_angle (Snowflake.rotate s (a + b))).
Proof.
  rewrite !rotate_current_angle.
  apply same_angle_trans with (Snowflake._current_angle s + a + b).
  - eapply same_angle_trans; [apply same_angle_fmod |].
    apply same_angle_plus, same_angle_fmod.
  - apply same_angle_sym.
    replace (Snowflake._current_angle s + a + b)
      with (Snowflake._current_angle s + (a + b)) by ring.
    apply same_angle_fmod.
Qed.

(** The two sequences in fact store the same angle. *)
Lemma rotate_rotate (s : Snowflake.t) (a b : R) :
  Snowflake.rotate (Snowflake.rotate s a) b = Snowflake.rotate s (a + b).
Proof.
  pose proof (same_angle_unique _ _ (rotate_in_circle (Snowflake.rotate s a) b)
                (rotate_in_circle s (a + b)) (rotate_same_angle s a b)) as Heq.
  rewrite !rotate_current_angle in Heq.
  unfold Snowflake.rotate, Snowflake.set_current_angle. cbn.
  now rewrite Heq.
Qed.

(** Over the reals [rotate] adds its argument modulo a full turn. *)
Lemma rotate_adds_delta (s : Snowflake.t) (d : R) :
  same_angle (Snowflake._current_angle (Snowflake.rotate s d))
             (Snowflake._current_angle s + d).
Proof. rewrite rotate_current_angle. apply same_angle_fmod. Qed.

Section FullTurn.

Import PrimFloat.

(** Decimal literals are read as Python reads them: as the nearest double. *)
#[local] Set Warnings "-inexact-float".


End FullTurn.

(** ** [draw_pixels] *)

Lemma range_length (n : Z) : length (range n) = Z.to_nat n.
Proof. unfold range. now rewrite length_map, length_seq. Qed.

Lemma range_nth (n i : Z) :
  (0 <= i < n)%Z -> nth (Z.to_nat i) (range n) 0%Z = i.
Proof.
  intros Hi. unfold range.
  change 0%Z with (Z.of_nat 0) at 1. rewrite map_nth, seq_nth by lia. lia.
Qed.

Lemma for_each_app {A B : Type} (f : A -> result (list B)) (xs : list A) (acc : list B) :
  (forall x, In x xs -> exists ys, f x = Ok ys) ->
  exists out,
    for_each (fun surface x => calls <- f x ;; Ok (surface ++ calls)) xs acc = Ok (acc ++ out)
    /\ forall ys, (forall x, In x xs -> f x = Ok (ys x)) -> out = concat (map ys xs).
Proof.
  revert acc. induction xs as [| x xs IH]; intros acc Hok.
  - exists []. split; [cbn; now rewrite app_nil_r | reflexivity].
  - destruct (Hok x (or_introl eq_refl)) as [y Hy].
    destruct (IH (acc ++ y) (fun z Hz => Hok z (or_intror Hz))) as [out [Hout Hcat]].
    exists (y ++ out). split.
    + cbn. rewrite Hy. cbn. rewrite Hout. now rewrite app_assoc.
    + intros ys Hys. cbn. rewrite (Hcat ys (fun z Hz => Hys z (or_intror Hz))).
      f_equal. specialize (Hys x (or_introl eq_refl)). congruence.
Qed.

Lemma draw_pixel_ok (s : Snowflake.t) (pixel : instance) (value : Z) :
  Snowflake.size s <> 0%Z ->
  Snowflake.draw_pixel s pixel value
  = Ok (map (fun i =>
               circle (Snowflake.pixel_color value)
                 (to_rectangular_at
                    (Snowflake.real_theta (Snowflake.mirror s)
                       (RADIANS_IN_CIRCLE / IZR (Snowflake.size s)) i
                       (PolarPoint.theta (fields pixel)) (Snowflake._current_angle s))
                    (PolarPoint.radius (fields pixel)) (Snowflake.origin s))
                 LINE_THICKNESS)
            (range (Snowflake.size s))).
Proof.
  intros Hn. unfold Snowflake.draw_pixel.
  rewrite fdiv_ok by (intros H; apply eq_IZR in H; contradiction).
  reflexivity.
Qed.

(** [draw_pixels] issues the draw calls of each stored pixel in turn. *)
Lemma draw_pixels_concat (s : Snowflake.t) :
  Snowflake.size s <> 0%Z ->
  exists calls : instance * Z -> list draw,
    (forall item, Snowflake.draw_pixel s (fst item) (snd item) = Ok (calls item))
    /\ Snowflake.draw_pixels s = Ok (concat (map calls (Snowflake.pixels s))).
Proof.
  intros Hn.
  eexists (fun item => map _ (range (Snowflake.size s))). split.
  - intros item. apply draw_pixel_ok, Hn.
  - unfold Snowflake.draw_pixels.
    destruct (for_each_app (fun item => Snowflake.draw_pixel s (fst item) (snd item))
                (Snowflake.pixels s) []) as [out [Hout Hcat]].
    + intros item _. eexists. apply draw_pixel_ok, Hn.
    + rewrite Hout. cbn. f_equal. apply Hcat. intros item _. apply draw_pixel_ok, Hn.
Qed.

Lemma real_theta_clone (arc : R) (i : Z) (theta current : R) :
  Snowflake.real_theta false arc i theta current = IZR i * arc + theta + current.
Proof. reflexivity. Qed.

(** C3: in clone mode ([mirror = false]) the replication step places
    exactly [N] copies of every stored pixel, the copy of slot [i] at angle
    [i * (2 pi / N) + theta] plus the rotation angle, so that consecutive
    copies are [2 pi / N] apart: [draw_pixels] issues, for each stored
    pixel in turn, [N] circles at these angles. *)
Theorem draw_pixels_clone_copies (s : Snowflake.t) (N : Z) :
  Snowflake.mirror s = false ->
  Snowflake.size s = N ->
  (0 < N)%Z ->
  exists copies : instance * Z -> list draw,
    Snowflake.draw_pixels s = Ok (concat (map copies (Snowflake.pixels s)))
    /\ forall (pixel : instance) (value : Z),
         let theta := PolarPoint.theta (fields pixel) in
         let current := Snowflake._current_angle s in
         Snowflake.draw_pixel s pixel value = Ok (copies (pixel, value))
         /\ len (copies (pixel, value)) = N
         /\ (forall i, (0 <= i < N)%Z ->
               nth (Z.to_nat i) (copies (pixel, value))
                   (circle BACKGROUND_COLOR (0%Z, 0%Z) 0%Z)
               = circle (Snowflake.pixel_color value)
                   (to_rectangular_at (clone_angle N i theta current)
                      (PolarPoint.radius (fields pixel)) (Snowflake.origin s))
                   LINE_THICKNESS)
         /\ (forall i, (0 <= i)%Z -> (i + 1 < N)%Z ->
               clone_angle N (i + 1) theta current - clone_angle N i theta current
               = 2 * PI / IZR N).
Proof.
  intros Hmirror Hsize HN.
  assert (Hn : Snowflake.size s <> 0%Z) by lia.
  destruct (draw_pixels_concat s Hn) as [copies [Hcopies Hdraw]].
  exists copies. split; [exact Hdraw |].
  intros pixel value theta current.
  pose proof (Hcopies (pixel, value)) as Hone. cbn [fst snd] in Hone.
  split; [exact Hone |].
  rewrite draw_pixel_ok in Hone by exact Hn. injection Hone as Hone.
  rewrite <- Hone, Hmirror, Hsize. split; [| split].
  - unfold len. rewrite length_map, range_length. lia.
  - intros i Hi.
    set (f := fun i0 : Z => circle _ _ _).
    rewrite (nth_indep _ _ (f 0%Z)) by (rewrite length_map, range_length; lia).
    rewrite map_nth, range_nth by exact Hi.
    unfold f. now rewrite real_theta_clone.
  - intros i Hi0 Hi1. unfold clone_angle. rewrite plus_IZR.
    assert (IZR N <> 0) by (apply not_0_IZR; lia). field. assumption.
Qed.

Lemma draw_pixels_clone_copies_witness :
  Snowflake.mirror (Snowflake.set_mirror two_pixel_snowflake false) = false
  /\ Snowflake.size (Snowflake.set_mirror two_pixel_snowflake false) = 6%Z
  /\ (0 < 6)%Z
  /\ exists copies : instance * Z -> list draw,
       Snowflake.draw_pixels (Snowflake.set_mirror two_pixel_snowflake false)
       = Ok (concat (map copies [(pixel_ahead, 1%Z); (pixel_behind, 1%Z)]))
       /\ forall (pixel : instance) (value : Z),
            Snowflake.draw_pixel (Snowflake.set_mirror two_pixel_snowflake false)
              pixel value = Ok (copies (pixel, value))
            /\ len (copies (pixel, value)) = 6%Z
            /\ (forall i, (0 <= i < 6)%Z ->
                  nth (Z.to_nat i) (copies (pixel, value))
                      (circle BACKGROUND_COLOR (0%Z, 0%Z) 0%Z)
                  = circle (Snowflake.pixel_color value)
                      (to_rectangular_at
                         (clone_angle 6 i (PolarPoint.theta (fields pixel)) 0)
                         (PolarPoint.radius (fields pixel)) SNOWFLAKE_POSITION)
                      LINE_THICKNESS)
            /\ (forall i, (0 <= i)%Z -> (i + 1 < 6)%Z ->
                  clone_angle 6 (i + 1) (PolarPoint.theta (fields pixel)) 0
                  - clone_angle 6 i (PolarPoint.theta (fields pixel)) 0
                  = 2 * PI / IZR 6).
Proof.
  split; [reflexivity | split; [reflexivity | split; [lia |]]].
  apply (draw_pixels_clone_copies (Snowflake.set_mirror two_pixel_snowflake false) 6);
    [reflexivity | reflexivity | lia].
Defined.

Lemma real_theta_mirror_even (arc : R) (i : Z) (theta current : R) :
  Z.even i = true ->
  Snowflake.real_theta true arc i theta current = IZR i * arc + theta + current.
Proof.
  intros Hi. unfold Snowflake.real_theta.
  rewrite Zmod_even, Hi. reflexivity.
Qed.

Lemma real_theta_mirror_odd (arc : R) (i : Z) (theta current : R) :
  Z.odd i = true ->
  Snowflake.real_theta true arc i theta current = IZR i * arc - theta + current.
Proof.
  intros Hi. unfold Snowflake.real_theta.
  rewrite Zmod_odd, Hi. reflexivity.
Qed.

(** C4, as stated, fails: with two slices, the copies of the pixel at angle
    0 in slots 0 and 1 sit at angles 0 and pi, whose sum is not
    [2 * 1 * (2 pi / 2)] modulo a full turn. *)
Lemma mirror_pair_not_about_slot_angle :
  Z.even 2 = true /\ Z.odd 1 = true /\ (0 <= 1 < 2)%Z
  /\ ~ same_angle (unrotated true 2 1 0 0 + unrotated true 2 (1 - 1) 0 0)
         (2 * IZR 1 * (RADIANS_IN_CIRCLE / IZR 2)).
Proof.
  repeat split; try reflexivity; try lia.
  unfold unrotated.
  rewrite real_theta_mirror_odd, real_theta_mirror_even by reflexivity.
  change (1 - 1)%Z with 0%Z.
  intros [k Hk]. unfold RADIANS_IN_CIRCLE in Hk. pose proof PI_RGT_0 as Hpi.
  assert (H : IZR (2 * k + 1) = 0).
  { rewrite plus_IZR, mult_IZR. apply Rmult_eq_reg_r with PI; [| lra].
    replace (2 * PI / 2) with PI in Hk by lra. nra. }
  apply eq_IZR in H. lia.
Qed.

(** C4, amended: in mirror mode, for an even size [N] and an odd slot [i]
    in [0, N), the placement angles of slots [i] and [i - 1] are mirror
    images about [(i - 1/2) * (2 pi / N)], the boundary between the two
    slices: without the common rotation offset they sum to
    [(2 i - 1) * (2 pi / N)], exactly and hence modulo a full turn. *)
Theorem mirror_pair_about_slice_boundary (N i : Z) (theta current : R) :
  Z.even N = true ->
  Z.odd i = true ->
  (0 <= i < N)%Z ->
  let arc := RADIANS_IN_CIRCLE / IZR N in
  let sum := unrotated true N i theta current + unrotated true N (i - 1) theta current in
  sum = 2 * ((IZR i - 1 / 2) * arc)
  /\ same_angle sum ((2 * IZR i - 1) * arc)
  /\ unrotated true N i theta current - (IZR i - 1 / 2) * arc
     = (IZR i - 1 / 2) * arc - unrotated true N (i - 1) theta current.
Proof.
  intros HN Hi Hrange arc sum.
  assert (Hprev : Z.even (i - 1) = true).
  { rewrite Z.even_sub, <- Z.negb_odd, Hi. reflexivity. }
  assert (Hsum : sum = 2 * ((IZR i - 1 / 2) * arc)).
  { unfold sum, unrotated. fold arc.
    rewrite real_theta_mirror_odd, real_theta_mirror_even by assumption.
    rewrite minus_IZR. lra. }
  split; [exact Hsum | split].
  - rewrite Hsum. exists 0%Z. lra.
  - unfold sum in Hsum. lra.
Qed.

Lemma mirror_pair_about_slice_boundary_witness :
  Z.even 6 = true /\ Z.odd 3 = true /\ (0 <= 3 < 6)%Z
  /\ (let arc := RADIANS_IN_CIRCLE / IZR 6 in
      let sum := unrotated true 6 3 (1 / 4) 1 + unrotated true 6 (3 - 1) (1 / 4) 1 in
      sum = 2 * ((IZR 3 - 1 / 2) * arc)
      /\ same_angle sum ((2 * IZR 3 - 1) * arc)
      /\ unrotated true 6 3 (1 / 4) 1 - (IZR 3 - 1 / 2) * arc
         = (IZR 3 - 1 / 2) * arc - unrotated true 6 (3 - 1) (1 / 4) 1).
Proof.
  split; [reflexivity | split; [reflexivity | split; [lia |]]].
  apply (mirror_pair_about_slice_boundary 6 3 (1 / 4) 1); [reflexivity | reflexivity | lia].
Defined.

(** ** Polar and rectangular coordinates *)

Lemma cos_whole_turns (a : R) (k : Z) : cos (a - IZR k * RADIANS_IN_CIRCLE) = cos a.
Proof.
  unfold RADIANS_IN_CIRCLE. destruct (Z_le_gt_dec 0 k) as [Hk | Hk].
  - rewrite <- (cos_period (a - IZR k * (2 * PI)) (Z.to_nat k)).
    f_equal. rewrite INR_IZR_INZ, Z2Nat.id by exact Hk. ring.
  - rewrite <- (cos_period a (Z.to_nat (- k))).
    f_equal. rewrite INR_IZR_INZ, Z2Nat.id, opp_IZR by lia. ring.
Qed.

Lemma sin_whole_turns (a : R) (k : Z) : sin (a - IZR k * RADIANS_IN_CIRCLE) = sin a.
Proof.
  unfold RADIANS_IN_CIRCLE. destruct (Z_le_gt_dec 0 k) as [Hk | Hk].
  - rewrite <- (sin_period (a - IZR k * (2 * PI)) (Z.to_nat k)).
    f_equal. rewrite INR_IZR_INZ, Z2Nat.id by exact Hk. ring.
  - rewrite <- (sin_period a (Z.to_nat (- k))).
    f_equal. rewrite INR_IZR_INZ, Z2Nat.id, opp_IZR by lia. ring.
Qed.

Lemma cos_fmod (a : R) : cos (fmod a RADIANS_IN_CIRCLE) = cos a.
Proof. rewrite fmod_shift. apply cos_whole_turns. Qed.

Lemma sin_fmod (a : R) : sin (fmod a RADIANS_IN_CIRCLE) = sin a.
Proof. rewrite fmod_shift. apply sin_whole_turns. Qed.

Lemma hypot_scale (x y : R) :
  x <> 0 -> hypot x y = Rabs x * sqrt (1 + (y / x)²).
Proof.
  intros Hx. unfold hypot.
  replace (x * x + y * y) with (x² * (1 + (y / x)²)) by (unfold Rsqr; field; exact Hx).
  rewrite sqrt_mult.
  - now rewrite sqrt_Rsqr_abs.
  - apply Rle_0_sqr.
  - pose proof (Rle_0_sqr (y / x)). lra.
Qed.

Lemma sqrt_one_plus_sqr_pos (t : R) : 0 < sqrt (1 + t²).
Proof. apply sqrt_lt_R0. pose proof (Rle_0_sqr t). lra. Qed.

Lemma hypot_cos_atan2 (x y : R) : hypot x y * cos (atan2 y x) = x.
Proof.
  unfold atan2. pose proof (sqrt_one_plus_sqr_pos (y / x)) as Hs.
  destruct (Rlt_dec 0 x) as [Hpos | Hnpos].
  - rewrite hypot_scale, cos_atan, Rabs_right by lra. field. lra.
  - destruct (Rlt_dec x 0) as [Hneg | Hnneg].
    + rewrite hypot_scale, Rabs_left by lra.
      destruct (Rle_dec 0 y).
      * rewrite neg_cos, cos_atan. field. lra.
      * replace (atan (y / x) - PI) with (- (- atan (y / x) + PI)) by ring.
        rewrite cos_neg, neg_cos, cos_neg, cos_atan. field. lra.
    + assert (x = 0) by lra. subst x. unfold hypot.
      destruct (Rlt_dec 0 y); [| destruct (Rlt_dec y 0)].
      * rewrite cos_PI2. ring.
      * rewrite cos_neg, cos_PI2. ring.
      * assert (y = 0) by lra. subst y.
        replace (0 * 0 + 0 * 0) with 0 by ring. rewrite sqrt_0. ring.
Qed.

Lemma hypot_sin_atan2 (x y : R) : hypot x y * sin (atan2 y x) = y.
Proof.
  unfold atan2. pose proof (sqrt_one_plus_sqr_pos (y / x)) as Hs.
  destruct (Rlt_dec 0 x) as [Hpos | Hnpos].
  - rewrite hypot_scale, sin_atan, Rabs_right by lra. field. lra.
  - destruct (Rlt_dec x 0) as [Hneg | Hnneg].
    + rewrite hypot_scale, Rabs_left by lra.
      destruct (Rle_dec 0 y).
      * rewrite neg_sin, sin_atan. field. lra.
      * replace (atan (y / x) - PI) with (- (- atan (y / x) + PI)) by ring.
        rewrite sin_neg, neg_sin, sin_neg, sin_atan. field. lra.
    + assert (x = 0) by lra. subst x. unfold hypot.
      replace (0 * 0 + y * y) with (y²) by (unfold Rsqr; ring).
      rewrite sqrt_Rsqr_abs.
      destruct (Rlt_dec 0 y); [| destruct (Rlt_dec y 0)].
      * rewrite sin_PI2, Rabs_right by lra. ring.
      * rewrite sin_neg, sin_PI2, Rabs_left by lra. ring.
      * assert (y = 0) by lra. subst y. rewrite Rabs_R0. ring.
Qed.

(** Converting to polar about [O] and back about [O] gives back [x] and
    reflects [y] in the Cartesian origin. *)
Lemma to_rectangular_from_rectangular (x y : Z) (O : Z * Z) :
  let p := PolarPoint.from_rectangular (x, y) O in
  to_rectangular_at (PolarPoint.theta p) (PolarPoint.radius p) O
  = (x, (SCREEN_HEIGHT - y)%Z).
Proof.
  destruct O as [ox oy].
  unfold PolarPoint.from_rectangular, to_rectangular_at, to_rectangular,
    CARTESIAN_ORIGIN, CARTESIAN_SIGNS.
  cbn [PolarPoint.theta PolarPoint.radius].
  rewrite cos_fmod, sin_fmod, hypot_cos_atan2, hypot_sin_atan2.
  f_equal; apply int_eq; rewrite !minus_IZR; ring.
Qed.

Lemma round_trip_exact (x y : Z) (O : Z * Z) :
  round_trip (x, y) O = (x, (SCREEN_HEIGHT - y)%Z).
Proof. apply to_rectangular_from_rectangular. Qed.

(** C8, as stated, fails: the point (0, 0) converted about the origin
    (0, 0) comes back as (0, 650). *)
Lemma round_trip_moves_origin :
  round_trip (0%Z, 0%Z) (0%Z, 0%Z) = (0%Z, 650%Z)
  /\ ~ within_one (round_trip (0%Z, 0%Z) (0%Z, 0%Z)) (0%Z, 0%Z).
Proof.
  rewrite round_trip_exact. split; [reflexivity |].
  unfold within_one, SCREEN_HEIGHT. cbn. lia.
Qed.

(** C8, amended: converting an integer point [(x, y)] to polar about [O]
    and back with [polar_origin = O] (default Cartesian origin and signs)
    yields [(x, SCREEN_HEIGHT - y)] within one pixel in each coordinate:
    [x] is recovered and [y] is reflected in the Cartesian origin; the
    point itself is recovered when [y] is first flipped the way [main]
    flips the pointer position. *)
Theorem round_trip_reflects_y (x y : Z) (O : Z * Z) :
  within_one (round_trip (x, y) O) (x, (SCREEN_HEIGHT - y)%Z)
  /\ within_one (round_trip (x, (SCREEN_HEIGHT - y)%Z) O) (x, y).
Proof.
  rewrite !round_trip_exact. unfold within_one. cbn [fst snd]. lia.
Qed.

(** ** [contains_point] *)

Lemma Rltb_true (a b : R) : Rltb a b = true <-> a < b.
Proof. unfold Rltb. destruct (Rlt_dec a b); split; intros; try easy. Qed.

Lemma Rgtb_true (a b : R) : Rgtb a b = true <-> a > b.
Proof. unfold Rgtb. destruct (Rgt_dec a b); split; intros; try easy. Qed.

Lemma contains_point_total (seg : SnowflakeSegment.t) (p : PolarPoint.t) :
  SnowflakeSegment.size seg <> 0%Z ->
  exists b, SnowflakeSegment.contains_point seg p = Ok b.
Proof.
  intros Hn. unfold SnowflakeSegment.contains_point.
  rewrite fdiv_ok by (intros H; apply eq_IZR in H; contradiction). cbn.
  destruct (_ && _); [eexists; reflexivity |].
  destruct (_ || _); eexists; reflexivity.
Qed.

Lemma contains_point_zero_size (seg : SnowflakeSegment.t) (p : PolarPoint.t) :
  SnowflakeSegment.size seg = 0%Z ->
  SnowflakeSegment.contains_point seg p = Raise ZeroDivisionError.
Proof.
  intros Hn. unfold SnowflakeSegment.contains_point. now rewrite Hn, fdiv_zero.
Qed.

(** What the two tests of [contains_point] accept. *)
Lemma contains_point_true_iff (seg : SnowflakeSegment.t) (p : PolarPoint.t) :
  SnowflakeSegment.size seg <> 0%Z ->
  let half_arc := PI / IZR (SnowflakeSegment.size seg) in
  SnowflakeSegment.contains_point seg p = Ok true
  <-> (RADIANS_IN_CIRCLE - half_arc <= PolarPoint.theta p
       \/ PolarPoint.theta p <= half_arc)
      /\ 0 <= PolarPoint.radius p <= SnowflakeSegment.radius seg.
Proof.
  intros Hn half_arc.
  assert (Hn' : IZR (SnowflakeSegment.size seg) <> 0)
    by (intros H; apply eq_IZR in H; contradiction).
  unfold SnowflakeSegment.contains_point. rewrite fdiv_ok by exact Hn'. cbn.
  assert (Hhalf : RADIANS_IN_CIRCLE / IZR (SnowflakeSegment.size seg) / 2 = half_arc)
    by (unfold half_arc, RADIANS_IN_CIRCLE; field; exact Hn').
  rewrite Hhalf.
  destruct (Rltb (PolarPoint.theta p) (RADIANS_IN_CIRCLE - half_arc)) eqn:Hb;
    destruct (Rgtb (PolarPoint.theta p) half_arc) eqn:He;
    destruct (Rgtb (PolarPoint.radius p) (SnowflakeSegment.radius seg)) eqn:Hr;
    destruct (Rltb (PolarPoint.radius p) 0) eqn:Hz; cbn;
    try apply Rltb_true in Hb; try apply Rgtb_true in He;
    try apply Rgtb_true in Hr; try apply Rltb_true in Hz;
    try (apply not_true_iff_false in Hb; rewrite Rltb_true in Hb);
    try (apply not_true_iff_false in He; rewrite Rgtb_true in He);
    try (apply not_true_iff_false in Hr; rewrite Rgtb_true in Hr);
    try (apply not_true_iff_false in Hz; rewrite Rltb_true in Hz);
    (split; [intros H; try discriminate; lra | intros H; try reflexivity; exfalso; lra]).
Qed.

(** For a segment centred at angle 0, as [main] builds it, and an angle in
    [0, 2 pi), the test is the membership the fields describe. *)
Lemma contains_point_centered_at_zero (seg : SnowflakeSegment.t) (p : PolarPoint.t) :
  SnowflakeSegment.centered_angle seg = 0 ->
  (0 < SnowflakeSegment.size seg)%Z ->
  0 <= PolarPoint.theta p < RADIANS_IN_CIRCLE ->
  SnowflakeSegment.contains_point seg p = Ok true <-> inside_segment seg p.
Proof.
  intros Hc Hn Htheta.
  rewrite contains_point_true_iff by lia.
  unfold inside_segment, in_arc. rewrite Hc.
  set (h := PI / IZR (SnowflakeSegment.size seg)).
  assert (Hh : 0 < h <= PI).
  { unfold h. pose proof PI_RGT_0 as Hpi.
    assert (H1 : 1 <= IZR (SnowflakeSegment.size seg)) by (apply IZR_le; lia).
    assert (Hpos : 0 < PI / IZR (SnowflakeSegment.size seg))
      by (apply Rdiv_lt_0_compat; lra).
    assert (Hmul : PI / IZR (SnowflakeSegment.size seg)
                   * IZR (SnowflakeSegment.size seg) = PI) by (field; lra).
    split; [exact Hpos | nra]. }
  unfold RADIANS_IN_CIRCLE in *. pose proof PI_RGT_0 as Hpi.
  split.
  - intros [[Hhi | Hlo] Hr]; (split; [exact Hr |]).
    + exists (- 1)%Z. lra.
    + exists 0%Z. lra.
  - intros [Hr [k Hk]]. split; [| exact Hr].
    assert (Hcases : (k <= - 2 \/ k = - 1 \/ k = 0 \/ 1 <= k)%Z) by lia.
    destruct Hcases as [Hk2 | [-> | [-> | Hk1]]].
    + apply IZR_le in Hk2. exfalso. nra.
    + left. lra.
    + right. lra.
    + apply IZR_le in Hk1. exfalso. nra.
Qed.

Lemma contains_point_centered_at_zero_witness :
  let seg := SnowflakeSegment.init 200 6 (210%Z, 325%Z) 0 in
  let p := PolarPoint.new 150 0 in
  SnowflakeSegment.contains_point seg p = Ok true <-> inside_segment seg p.
Proof.
  intros seg p. apply (contains_point_centered_at_zero seg p).
  - reflexivity.
  - reflexivity.
  - cbn. pose proof RADIANS_IN_CIRCLE_pos. lra.
Defined.

(** C1 at a segment whose bisector is not the angle 0: [contains_point]
    never reads [centered_angle].  For the segment of six slices centred at
    pi, the point at angle 0 is accepted although it lies opposite the arc,
    and the point at angle pi, on the bisector, is rejected. *)
Theorem contains_point_ignores_centered_angle :
  let seg := SnowflakeSegment.init 1 6 (0%Z, 0%Z) PI in
  let opposite := PolarPoint.new (1 / 2) 0 in
  let on_bisector := PolarPoint.new (1 / 2) PI in
  SnowflakeSegment.contains_point seg opposite = Ok true
  /\ ~ inside_segment seg opposite
  /\ SnowflakeSegment.contains_point seg on_bisector = Ok false
  /\ inside_segment seg on_bisector.
Proof.
  intros seg opposite on_bisector. pose proof PI_RGT_0 as Hpi.
  assert (Hsize : SnowflakeSegment.size seg <> 0%Z) by (cbn; lia).
  split; [| split; [| split]].
  - apply contains_point_true_iff; [exact Hsize |]. cbn. lra.
  - intros [_ [k Hk]]. cbn in Hk. unfold RADIANS_IN_CIRCLE in Hk.
    assert (H0 : (0 < k)%Z) by (apply lt_IZR; nra).
    assert (H1 : (k < 1)%Z) by (apply lt_IZR; nra).
    lia.
  - destruct (contains_point_total seg on_bisector Hsize) as [[|] Hb]; [| exact Hb].
    exfalso. apply contains_point_true_iff in Hb; [| exact Hsize].
    cbn in Hb. unfold RADIANS_IN_CIRCLE in Hb. lra.
  - split; [cbn; lra |]. exists 0%Z. cbn. lra.
Qed.

(** ** Dicts keyed by instances *)

Lemma hash_eqb_refl (h : R * R) : PolarPoint.hash_eqb h h = true.
Proof.
  unfold PolarPoint.hash_eqb.
  destruct (Req_dec_T (fst h) (fst h)); [| contradiction].
  destruct (Req_dec_T (snd h) (snd h)); [reflexivity | contradiction].
Qed.

Lemma hash_eqb_fields (p q : PolarPoint.t) :
  PolarPoint.hash_eqb (PolarPoint.hash p) (PolarPoint.hash q) = true <-> p = q.
Proof.
  destruct p as [pr pt], q as [qr qt]. unfold PolarPoint.hash_eqb, PolarPoint.hash. cbn.
  destruct (Req_dec_T pt qt), (Req_dec_T pr qr); cbn; split; intros H;
    try discriminate; try congruence; try reflexivity.
Qed.

Lemma key_match_refl (k : instance) : key_match k k = true.
Proof.
  unfold key_match, is_. now rewrite hash_eqb_refl, Nat.eqb_refl.
Qed.

Lemma key_match_ident (k' k : instance) : key_match k' k = true -> ident k' = ident k.
Proof.
  unfold key_match, eq_, is_. rewrite andb_true_iff, orb_diag, Nat.eqb_eq. tauto.
Qed.

Lemma key_match_fresh (d : dict) (k : instance) :
  ~ In (ident k) (map (fun item => ident (fst item)) d) ->
  forall item, In item d -> key_match (fst item) k = false.
Proof.
  intros Hfresh item Hin. apply not_true_iff_false. intros Hm.
  apply Hfresh, in_map_iff. exists item. split; [apply key_match_ident, Hm | exact Hin].
Qed.

(** Storing under a key no stored key matches appends an entry. *)
Lemma dict_set_fresh (d : dict) (k : instance) (v : Z) :
  (forall item, In item d -> key_match (fst item) k = false) ->
  dict_set d k v = d ++ [(k, v)].
Proof.
  induction d as [| [k' v'] d IH]; intros Hno; [reflexivity |].
  pose proof (Hno (k', v') (or_introl eq_refl)) as Hk. cbn in Hk.
  cbn. rewrite Hk. f_equal. apply IH. intros item Hin. apply Hno. now right.
Qed.

Lemma dict_pop_middle (pre d : dict) (k : instance) (v : Z) :
  (forall item, In item pre -> key_match (fst item) k = false) ->
  dict_pop (pre ++ (k, v) :: d) k = Ok (pre ++ d).
Proof.
  induction pre as [| [k' v'] pre IH]; intros Hno; cbn.
  - now rewrite key_match_refl.
  - pose proof (Hno (k', v') (or_introl eq_refl)) as Hk. cbn in Hk. rewrite Hk.
    rewrite IH by (intros item Hin; apply Hno; now right). reflexivity.
Qed.

Lemma dict_wf_app_cons (pre d : dict) (k : instance) (v : Z) :
  dict_wf (pre ++ (k, v) :: d) ->
  dict_wf (pre ++ d) /\ forall item, In item pre -> key_match (fst item) k = false.
Proof.
  unfold dict_wf. rewrite !map_app. cbn. intros Hwf. split.
  - eapply NoDup_remove_1, Hwf.
  - apply NoDup_remove_2 in Hwf. apply key_match_fresh.
    intros Hin. apply Hwf, in_or_app. now left.
Qed.

Lemma dict_wf_filter (f : instance * Z -> bool) (d : dict) :
  dict_wf d -> dict_wf (filter f d).
Proof.
  unfold dict_wf. induction d as [| item d IH]; cbn; intros Hwf; [constructor |].
  inversion Hwf as [| ? ? Hnotin Hrest]; subst.
  destruct (f item); cbn; [constructor |]; auto.
  intros Hin. apply Hnotin. apply in_map_iff in Hin as [e [He Hin]].
  apply in_map_iff. exists e. split; [exact He |]. now apply filter_In in Hin.
Qed.

(** Popping, one after the other, the stored keys a test rejects leaves
    the entries the test accepts. *)
Lemma pop_rejected (keep : instance -> bool) (d pre : dict) :
  dict_wf (pre ++ d) ->
  for_each dict_pop (map fst (filter (fun item => negb (keep (fst item))) d)) (pre ++ d)
  = Ok (pre ++ filter (fun item => keep (fst item)) d).
Proof.
  revert pre. induction d as [| [k v] d IH]; intros pre Hwf; [reflexivity |].
  cbn. destruct (keep k); cbn.
  - change (pre ++ (k, v) :: d) with (pre ++ [(k, v)] ++ d) in *.
    rewrite app_assoc in *. rewrite IH by exact Hwf. now rewrite <- app_assoc.
  - destruct (dict_wf_app_cons _ _ _ _ Hwf) as [Hwf' Hno].
    rewrite dict_pop_middle by exact Hno. cbn. apply IH, Hwf'.
Qed.

(** ** [clear_pixels_outside] *)

Lemma insideb_true (s : Snowflake.t) (seg : SnowflakeSegment.t) (pixel : instance) :
  insideb s seg pixel = true <-> inside s seg pixel = Ok true.
Proof.
  unfold insideb. destruct (inside s seg pixel) as [[|] | e]; split; congruence.
Qed.

Section ClearOutside.

(** A snowflake and a segment for which neither division raises. *)
Variable s : Snowflake.t.
Variable seg : SnowflakeSegment.t.
Hypothesis radius_nonzero : Snowflake.radius s <> 0.
Hypothesis size_nonzero : SnowflakeSegment.size seg <> 0%Z.

Lemma inside_total (pixel : instance) : exists b, inside s seg pixel = Ok b.
Proof.
  unfold inside, Snowflake.rescaled.
  rewrite fdiv_ok by exact radius_nonzero. cbn. apply contains_point_total, size_nonzero.
Qed.

(** The first loop collects the stored keys that fail the test, in order. *)
Lemma collect_rejected (d : dict) (acc : list instance) :
  for_each
    (fun (to_delete : list instance) (item : instance * Z) =>
       let pixel := fst item in
       point <- Snowflake.rescaled s seg pixel ;;
       inside <- SnowflakeSegment.contains_point seg point ;;
       if negb inside then Ok (to_delete ++ [pixel]) else Ok to_delete)
    d acc
  = Ok (acc ++ map fst (filter (fun item => negb (insideb s seg (fst item))) d)).
Proof.
  revert acc.
  induction d as [| [k v] d IH]; intros acc; cbn; [now rewrite app_nil_r |].
  destruct (inside_total k) as [b Hb].
  unfold insideb. rewrite Hb. unfold inside in Hb.
  destruct (Snowflake.rescaled s seg k) as [point | e]; [| discriminate].
  cbn in Hb |- *. rewrite Hb. cbn.
  destruct b; cbn; rewrite IH; [reflexivity |].
  now rewrite <- app_assoc.
Qed.

(** The call returns, and what it returns is the filter of the entries. *)
Lemma clear_pixels_outside_filter :
  dict_wf (Snowflake.pixels s) ->
  Snowflake.clear_pixels_outside s seg
  = Ok (Snowflake.set_pixels s
          (filter (fun item => insideb s seg (fst item)) (Snowflake.pixels s))).
Proof.
  intros Hwf. unfold Snowflake.clear_pixels_outside.
  rewrite collect_rejected.
  pose proof (pop_rejected (insideb s seg) (Snowflake.pixels s) [] Hwf) as Hpop.
  cbn [app bind] in Hpop |- *. rewrite Hpop. reflexivity.
Qed.

End ClearOutside.

Lemma filter_filter_same {A : Type} (f : A -> bool) (l : list A) :
  filter f (filter f l) = filter f l.
Proof.
  induction l as [| a l IH]; [reflexivity |]. cbn.
  destruct (f a) eqn:Hfa; cbn; [rewrite Hfa; f_equal |]; exact IH.
Qed.

Lemma valid_size_nonzero (n : Z) : In n VALID_SIZES -> n <> 0%Z.
Proof. unfold VALID_SIZES. cbn. lia. Qed.

(** The size Tab moves to: the next entry of [VALID_SIZES], wrapping. *)
Lemma tab_key_next_size (st : Main.state) :
  In (Snowflake.size (Main.snowflake st)) VALID_SIZES ->
  exists n,
    In n VALID_SIZES
    /\ Main.tab_key st
       = (snowflake'' <- Snowflake.clear_pixels_outside
                           (Snowflake.set_size (Main.snowflake st) n)
                           (SnowflakeSegment.set_size (Main.segment st) n) ;;
          Ok (Main.mk (Main.running st) (Main.rotate st)
                (SnowflakeSegment.set_size (Main.segment st) n) snowflake''
                (Main.next_ident st))).
Proof.
  intros Hin. unfold Main.tab_key.
  unfold VALID_SIZES in Hin. cbn in Hin.
  destruct Hin as [H | [H | [H | [H | [H | [H | []]]]]]]; rewrite <- H; cbn;
    eexists; (split; [| reflexivity]); unfold VALID_SIZES; cbn; tauto.
Qed.

(** Where the division does not raise, the test of the code is the rule of
    the spec. *)
Lemma stays_insideb (s : Snowflake.t) (seg : SnowflakeSegment.t) (pixel : instance) :
  Snowflake.radius s <> 0 -> stays s seg pixel = insideb s seg pixel.
Proof.
  intros Hr. unfold stays, real_radius, insideb, inside, Snowflake.rescaled.
  rewrite fdiv_ok by exact Hr. cbn [bind].
  now destruct (SnowflakeSegment.contains_point _ _) as [[|] |].
Qed.

Lemma stays_true (s : Snowflake.t) (seg : SnowflakeSegment.t) (pixel : instance) :
  stays s seg pixel = true
  <-> SnowflakeSegment.contains_point seg
        (PolarPoint.new
           (PolarPoint.radius (fields pixel) * SnowflakeSegment.radius seg
            / Snowflake.radius s)
           (PolarPoint.theta (fields pixel))) = Ok true.
Proof.
  unfold stays, real_radius.
  destruct (SnowflakeSegment.contains_point _ _) as [[|] |]; split; congruence.
Qed.

Lemma clear_pixels_outside_stays (s : Snowflake.t) (seg : SnowflakeSegment.t) :
  Snowflake.radius s <> 0 ->
  SnowflakeSegment.size seg <> 0%Z ->
  dict_wf (Snowflake.pixels s) ->
  Snowflake.clear_pixels_outside s seg
  = Ok (Snowflake.set_pixels s
          (filter (fun item => stays s seg (fst item)) (Snowflake.pixels s))).
Proof.
  intros Hr Hn Hwf. rewrite clear_pixels_outside_filter by assumption.
  do 2 f_equal. apply filter_ext. intros item. symmetry. apply stays_insideb, Hr.
Qed.

(** C5: [clear_pixels_outside(segment)] removes exactly the stored pixels
    for which [segment.contains_point] fails on the point with the radius
    [pixel.radius * segment.radius / snowflake.radius] and the pixel's own
    angle, and leaves every other entry, key and value, in its place; and
    after the Tab transition every stored pixel that remains rescales, by
    that formula, to a point inside the new segment. *)
Theorem clear_pixels_outside_removes_exactly
    (s : Snowflake.t) (seg : SnowflakeSegment.t) (st : Main.state) :
  Snowflake.radius s <> 0 ->
  SnowflakeSegment.size seg <> 0%Z ->
  dict_wf (Snowflake.pixels s) ->
  Snowflake.radius (Main.snowflake st) <> 0 ->
  In (Snowflake.size (Main.snowflake st)) VALID_SIZES ->
  dict_wf (Snowflake.pixels (Main.snowflake st)) ->
  (exists s',
      Snowflake.clear_pixels_outside s seg = Ok s'
      /\ Snowflake.pixels s'
         = filter (fun item => stays s seg (fst item)) (Snowflake.pixels s)
      /\ (forall pixel value,
             In (pixel, value) (Snowflake.pixels s')
             <-> In (pixel, value) (Snowflake.pixels s)
                 /\ SnowflakeSegment.contains_point seg
                      (PolarPoint.new
                         (PolarPoint.radius (fields pixel) * SnowflakeSegment.radius seg
                          / Snowflake.radius s)
                         (PolarPoint.theta (fields pixel))) = Ok true)
      /\ s' = Snowflake.set_pixels s (Snowflake.pixels s'))
  /\ (exists st',
         Main.tab_key st = Ok st'
         /\ Snowflake.size (Main.snowflake st') = SnowflakeSegment.size (Main.segment st')
         /\ Forall (fun item =>
                      SnowflakeSegment.contains_point (Main.segment st')
                        (PolarPoint.new
                           (PolarPoint.radius (fields (fst item))
                            * SnowflakeSegment.radius (Main.segment st')
                            / Snowflake.radius (Main.snowflake st'))
                           (PolarPoint.theta (fields (fst item)))) = Ok true)
                   (Snowflake.pixels (Main.snowflake st'))).
Proof.
  intros Hr Hn Hwf Hr' Hsize Hwf'. split.
  - eexists. split; [apply clear_pixels_outside_stays; assumption |].
    cbn. split; [reflexivity | split; [| reflexivity]].
    intros pixel value. rewrite filter_In. cbn. now rewrite stays_true.
  - destruct (tab_key_next_size st Hsize) as [n [Hn' Htab]].
    rewrite Htab, clear_pixels_outside_stays;
      [| exact Hr' | apply valid_size_nonzero, Hn' | exact Hwf'].
    cbn. eexists. split; [reflexivity |]. cbn. split; [reflexivity |].
    apply Forall_forall. intros item Hin.
    apply filter_In in Hin as [_ Hin]. now apply stays_true in Hin.
Qed.

Lemma two_pixel_snowflake_wf : dict_wf (Snowflake.pixels two_pixel_snowflake).
Proof.
  unfold dict_wf. cbn. repeat constructor; cbn; intuition discriminate.
Defined.

Lemma main_radius_nonzero : Snowflake.radius two_pixel_snowflake <> 0.
Proof. cbn. unfold SNOWFLAKE_RADIUS. lra. Defined.

Lemma main_size_valid : In (Snowflake.size two_pixel_snowflake) VALID_SIZES.
Proof. cbn. tauto. Defined.

Lemma main_size_nonzero : SnowflakeSegment.size main_segment <> 0%Z.
Proof. cbn. unfold DEFAULT_SIZE. lia. Defined.

Lemma three_pixel_snowflake_wf : dict_wf (Snowflake.pixels three_pixel_snowflake).
Proof.
  unfold dict_wf. cbn. repeat constructor; cbn; intuition discriminate.
Defined.

(** Of the three pixels the one on the bisector stays; the one opposite the
    segment fails on its angle and the one beyond the rim on its rescaled
    radius, 240 against 200, though its own radius is 180. *)
Lemma three_pixels_stay (seg : SnowflakeSegment.t) :
  SnowflakeSegment.radius seg = SNOWFLAKE_SEGMENT_RADIUS ->
  In (SnowflakeSegment.size seg) VALID_SIZES ->
  filter (fun item => stays three_pixel_snowflake seg (fst item))
    (Snowflake.pixels three_pixel_snowflake)
  = [(pixel_ahead, 1%Z)].
Proof.
  intros Hsr Hsize. pose proof PI_RGT_0 as Hpi.
  pose proof (valid_size_nonzero _ Hsize) as Hn.
  assert (Hhalf : 0 < PI / IZR (SnowflakeSegment.size seg) <= PI / 2).
  { assert (H2 : 2 <= IZR (SnowflakeSegment.size seg)).
    { apply IZR_le. unfold VALID_SIZES in Hsize. cbn in Hsize. lia. }
    split; [apply Rdiv_lt_0_compat; lra |].
    assert (Hmul : PI / IZR (SnowflakeSegment.size seg)
                   * IZR (SnowflakeSegment.size seg) = PI) by (field; lra).
    assert (Hpos : 0 < PI / IZR (SnowflakeSegment.size seg))
      by (apply Rdiv_lt_0_compat; lra).
    nra. }
  assert (Hahead : stays three_pixel_snowflake seg pixel_ahead = true).
  { apply stays_true, contains_point_true_iff; [exact Hn |].
    cbn. rewrite Hsr. unfold SNOWFLAKE_SEGMENT_RADIUS, SNOWFLAKE_RADIUS. split; lra. }
  assert (Hbehind : stays three_pixel_snowflake seg pixel_behind = false).
  { apply not_true_iff_false. rewrite stays_true, contains_point_true_iff by exact Hn.
    cbn. unfold RADIANS_IN_CIRCLE. lra. }
  assert (Hbeyond : stays three_pixel_snowflake seg pixel_beyond = false).
  { apply not_true_iff_false. rewrite stays_true, contains_point_true_iff by exact Hn.
    cbn. rewrite Hsr. unfold SNOWFLAKE_SEGMENT_RADIUS, SNOWFLAKE_RADIUS. lra. }
  cbn [three_pixel_snowflake Snowflake.set_pixels Snowflake.pixels filter fst].
  fold three_pixel_snowflake. now rewrite Hahead, Hbehind, Hbeyond.
Qed.

Lemma clear_pixels_outside_removes_exactly_witness :
  Snowflake.radius three_pixel_snowflake <> 0
  /\ SnowflakeSegment.size main_segment <> 0%Z
  /\ dict_wf (Snowflake.pixels three_pixel_snowflake)
  /\ Snowflake.radius (Main.snowflake three_pixel_state) <> 0
  /\ In (Snowflake.size (Main.snowflake three_pixel_state)) VALID_SIZES
  /\ dict_wf (Snowflake.pixels (Main.snowflake three_pixel_state))
  /\ (exists s',
         Snowflake.clear_pixels_outside three_pixel_snowflake main_segment = Ok s'
         /\ Snowflake.pixels s' = [(pixel_ahead, 1%Z)]
         /\ In (pixel_beyond, 1%Z) (Snowflake.pixels three_pixel_snowflake)
         /\ ~ In (pixel_beyond, 1%Z) (Snowflake.pixels s'))
  /\ (exists st',
         Main.tab_key three_pixel_state = Ok st'
         /\ Forall (fun item =>
                      SnowflakeSegment.contains_point (Main.segment st')
                        (PolarPoint.new
                           (PolarPoint.radius (fields (fst item))
                            * SnowflakeSegment.radius (Main.segment st')
                            / Snowflake.radius (Main.snowflake st'))
                           (PolarPoint.theta (fields (fst item)))) = Ok true)
                   (Snowflake.pixels (Main.snowflake st'))).
Proof.
  pose proof main_radius_nonzero as Hr. pose proof main_size_nonzero as Hn.
  pose proof three_pixel_snowflake_wf as Hwf. pose proof main_size_valid as Hsize.
  repeat (split; [assumption |]).
  destruct (clear_pixels_outside_removes_exactly three_pixel_snowflake main_segment
              three_pixel_state Hr Hn Hwf Hr Hsize Hwf)
    as [[s' [Hclear [Hpix _]]] [st' [Htab [_ Hall]]]].
  split.
  - exists s'. split; [exact Hclear |].
    rewrite Hpix, (three_pixels_stay main_segment eq_refl Hsize).
    split; [reflexivity | split; [cbn; tauto |]].
    cbn. intros [Heq | []]. discriminate Heq.
  - exists st'. split; [exact Htab | exact Hall].
Defined.

(** On the two-pixel snowflake the pixel opposite the segment goes and the
    pixel on the bisector stays. *)
Example clear_pixels_outside_two_pixels :
  Snowflake.clear_pixels_outside two_pixel_snowflake main_segment
  = Ok (Snowflake.set_pixels main_snowflake [(pixel_ahead, 1%Z)]).
Proof.
  rewrite clear_pixels_outside_filter;
    [| exact main_radius_nonzero | exact main_size_nonzero | exact two_pixel_snowflake_wf].
  pose proof PI_RGT_0 as Hpi.
  assert (Hahead : insideb two_pixel_snowflake main_segment pixel_ahead = true).
  { apply insideb_true. unfold inside, Snowflake.rescaled.
    rewrite fdiv_ok by exact main_radius_nonzero. cbn [bind].
    apply contains_point_true_iff; [exact main_size_nonzero |].
    cbn. unfold SNOWFLAKE_SEGMENT_RADIUS, SNOWFLAKE_RADIUS, DEFAULT_SIZE. split; lra. }
  assert (Hbehind : insideb two_pixel_snowflake main_segment pixel_behind = false).
  { apply not_true_iff_false. rewrite insideb_true. unfold inside, Snowflake.rescaled.
    rewrite fdiv_ok by exact main_radius_nonzero. cbn [bind].
    rewrite contains_point_true_iff by exact main_size_nonzero.
    cbn. unfold RADIANS_IN_CIRCLE, DEFAULT_SIZE. lra. }
  cbn [two_pixel_snowflake Snowflake.set_pixels Snowflake.pixels filter fst].
  fold two_pixel_snowflake. rewrite Hahead, Hbehind. reflexivity.
Qed.

(** C6: applying [clear_pixels_outside(segment)] a second time changes
    nothing. *)
Theorem clear_pixels_outside_idempotent (s : Snowflake.t) (seg : SnowflakeSegment.t) :
  Snowflake.radius s <> 0 ->
  SnowflakeSegment.size seg <> 0%Z ->
  dict_wf (Snowflake.pixels s) ->
  exists s',
    Snowflake.clear_pixels_outside s seg = Ok s'
    /\ Snowflake.clear_pixels_outside s' seg = Ok s'.
Proof.
  intros Hr Hn Hwf. eexists. split; [apply clear_pixels_outside_filter; assumption |].
  rewrite clear_pixels_outside_filter;
    [| exact Hr | exact Hn | apply dict_wf_filter, Hwf].
  unfold Snowflake.set_pixels. cbn. do 2 f_equal.
  exact (filter_filter_same (fun item => insideb s seg (fst item)) (Snowflake.pixels s)).
Qed.

Lemma clear_pixels_outside_idempotent_witness :
  Snowflake.radius two_pixel_snowflake <> 0
  /\ SnowflakeSegment.size main_segment <> 0%Z
  /\ dict_wf (Snowflake.pixels two_pixel_snowflake)
  /\ exists s',
       Snowflake.clear_pixels_outside two_pixel_snowflake main_segment = Ok s'
       /\ Snowflake.clear_pixels_outside s' main_segment = Ok s'.
Proof.
  pose proof main_radius_nonzero as Hr. pose proof main_size_nonzero as Hn.
  pose proof two_pixel_snowflake_wf as Hwf.
  repeat (split; [assumption |]).
  exact (clear_pixels_outside_idempotent two_pixel_snowflake main_segment Hr Hn Hwf).
Defined.

(** ** The main loop *)

Lemma invariant_init : invariant Main.init.
Proof.
  constructor; cbn; try reflexivity.
  - unfold DEFAULT_SIZE. tauto.
  - constructor.
  - constructor.
Qed.

Lemma SNOWFLAKE_RADIUS_nonzero : SNOWFLAKE_RADIUS <> 0.
Proof. unfold SNOWFLAKE_RADIUS. lra. Qed.

Lemma SNOWFLAKE_SEGMENT_RADIUS_nonzero : SNOWFLAKE_SEGMENT_RADIUS <> 0.
Proof. unfold SNOWFLAKE_SEGMENT_RADIUS. lra. Qed.

Lemma Forall_filter {A : Type} (P : A -> Prop) (f : A -> bool) (l : list A) :
  Forall P l -> Forall P (filter f l).
Proof.
  rewrite !Forall_forall. intros H a Ha. apply H. now apply filter_In in Ha.
Qed.

Lemma tab_key_invariant (st : Main.state) :
  invariant st -> exists st', Main.tab_key st = Ok st' /\ invariant st'.
Proof.
  intros [Hsr Hso Hr Hsize Hsizes Hpix Hwf].
  destruct (tab_key_next_size st Hsize) as [n [Hn Htab]].
  rewrite Htab, clear_pixels_outside_filter;
    [| cbn; rewrite Hr; exact SNOWFLAKE_RADIUS_nonzero
     | apply valid_size_nonzero, Hn | exact Hwf].
  eexists. split; [reflexivity |].
  constructor; cbn; try assumption; try reflexivity.
  - apply Forall_filter, Hpix.
  - apply dict_wf_filter, Hwf.
Qed.

Lemma handle_event_invariant (st : Main.state) (ev : Main.event) :
  invariant st -> exists st', Main.handle_event st ev = Ok st' /\ invariant st'.
Proof.
  intros Hinv. destruct ev as [| k |]; cbn.
  - eexists. split; [reflexivity |]. destruct Hinv. constructor; assumption.
  - destruct k; cbn;
      try (eexists; split; [reflexivity |]; destruct Hinv; constructor; cbn;
           solve [assumption | constructor]).
    apply tab_key_invariant, Hinv.
  - eexists. split; [reflexivity | exact Hinv].
Qed.

Lemma events_invariant (evs : list Main.event) (st : Main.state) :
  invariant st -> exists st', for_each Main.handle_event evs st = Ok st' /\ invariant st'.
Proof.
  revert st. induction evs as [| ev evs IH]; intros st Hinv; cbn.
  - eexists. split; [reflexivity | exact Hinv].
  - destruct (handle_event_invariant st ev Hinv) as [st1 [H1 Hinv1]].
    rewrite H1. cbn. apply IH, Hinv1.
Qed.

Lemma fresh_ident (d : dict) (n : nat) (k : instance) :
  Forall (fun item => (ident (fst item) < n)%nat /\ snd item = 1%Z) d ->
  ident k = n ->
  ~ In (ident k) (map (fun item => ident (fst item)) d).
Proof.
  intros Hall Hk Hin. apply in_map_iff in Hin as [item [Hid Hin]].
  rewrite Forall_forall in Hall. destruct (Hall item Hin) as [Hlt _]. lia.
Qed.

Lemma dict_wf_snoc (d : dict) (k : instance) (v : Z) :
  dict_wf d ->
  ~ In (ident k) (map (fun item => ident (fst item)) d) ->
  dict_wf (d ++ [(k, v)]).
Proof.
  unfold dict_wf. intros Hwf Hfresh. rewrite map_app. cbn.
  apply NoDup_app; [exact Hwf | repeat constructor; intros [] |].
  intros a Ha [<- | []]. contradiction.
Qed.

(** An accepted pointer sample appends an entry under the new object,
    whatever is already stored. *)
Lemma set_pixel_fresh (st : Main.state) (p : PolarPoint.t) :
  invariant st ->
  Snowflake.pixels (Snowflake.set_pixel (Main.snowflake st)
                      (alloc (Main.next_ident st) p) 1)
  = Snowflake.pixels (Main.snowflake st) ++ [(alloc (Main.next_ident st) p, 1%Z)].
Proof.
  intros Hinv. cbn. apply dict_set_fresh, key_match_fresh.
  eapply fresh_ident; [apply (inv_pixels _ Hinv) | reflexivity].
Qed.

Lemma Forall_ident_weaken (d : dict) (n : nat) :
  Forall (fun item => (ident (fst item) < n)%nat /\ snd item = 1%Z) d ->
  Forall (fun item => (ident (fst item) < S n)%nat /\ snd item = 1%Z) d.
Proof. apply Forall_impl. intros item [Hlt Hv]. split; [lia | exact Hv]. Qed.

Lemma cursor_logic_invariant (st : Main.state) (inp : Main.input) :
  invariant st -> exists st', Main.cursor_logic st inp = Ok st' /\ invariant st'.
Proof.
  intros Hinv. unfold Main.cursor_logic.
  destruct (Main.MB1 inp); [| eexists; split; [reflexivity | exact Hinv]].
  destruct (Main.mouse_pos inp) as [mouse_x mouse_y].
  cbn [Main.segment Main.snowflake Main.next_ident Main.running Main.rotate fields ident].
  set (p := PolarPoint.from_rectangular (mouse_x, (SCREEN_HEIGHT - mouse_y)%Z)
              (SnowflakeSegment.origin (Main.segment st))).
  pose proof Hinv as [Hsr Hso Hr Hsize Hsizes Hpix Hwf].
  destruct (contains_point_total (Main.segment st) p) as [b Hb].
  { rewrite Hsizes. apply valid_size_nonzero, Hsize. }
  rewrite Hb. cbn. destruct b.
  - rewrite fdiv_ok by (rewrite Hsr; exact SNOWFLAKE_SEGMENT_RADIUS_nonzero). cbn.
    eexists. split; [reflexivity |].
    set (q := PolarPoint.new _ _).
    pose proof (set_pixel_fresh st q Hinv) as Hset. cbn in Hset.
    constructor; cbn; try assumption; rewrite Hset.
    + apply Forall_app. split; [apply Forall_ident_weaken, Hpix |].
      constructor; [split; [cbn; lia | reflexivity] | constructor].
    + apply dict_wf_snoc; [exact Hwf |]. eapply fresh_ident; [exact Hpix | reflexivity].
  - eexists. split; [reflexivity |].
    constructor; cbn; try assumption. apply Forall_ident_weaken, Hpix.
Qed.

Lemma output_logic_invariant (st : Main.state) :
  invariant st -> invariant (Main.output_logic st).
Proof.
  intros Hinv. unfold Main.output_logic. destruct (Main.rotate st); [| exact Hinv].
  destruct Hinv. constructor; cbn; assumption.
Qed.

(** A frame never raises from a state that satisfies the invariant, and
    re-establishes it. *)
Lemma frame_invariant (st : Main.state) (inp : Main.input) :
  invariant st -> exists st', Main.frame st inp = Ok st' /\ invariant st'.
Proof.
  intros Hinv. unfold Main.frame.
  destruct (events_invariant (Main.events inp) st Hinv) as [st1 [H1 Hinv1]].
  rewrite H1. cbn.
  destruct (cursor_logic_invariant st1 inp Hinv1) as [st2 [H2 Hinv2]].
  rewrite H2. cbn. eexists. split; [reflexivity |].
  apply output_logic_invariant, Hinv2.
Qed.

Lemma reachable_invariant (st : Main.state) : Main.reachable st -> invariant st.
Proof.
  induction 1 as [| st inp st' _ IH _ Hframe]; [exact invariant_init |].
  destruct (frame_invariant st inp IH) as [st'' [Hok Hinv]]. congruence.
Qed.

(** Every frame run from a reachable state completes. *)
Lemma reachable_frame_total (st : Main.state) (inp : Main.input) :
  Main.reachable st -> exists st', Main.frame st inp = Ok st'.
Proof.
  intros Hreach.
  destruct (frame_invariant st inp (reachable_invariant st Hreach)) as [st' [Hok _]].
  eauto.
Qed.

Lemma pixel_color_one : Snowflake.pixel_color 1 = SNOWFLAKE_COLOR.
Proof. reflexivity. Qed.

Lemma draw_pixel_colors (s : Snowflake.t) (pixel : instance) (value : Z) (calls : list draw) :
  Snowflake.draw_pixel s pixel value = Ok calls ->
  Forall (fun call => color_of call = Snowflake.pixel_color value) calls.
Proof.
  unfold Snowflake.draw_pixel.
  destruct (fdiv _ _) as [arc |]; [| discriminate]. cbn. intros [= <-].
  apply Forall_forall. intros call Hin. apply in_map_iff in Hin as [i [<- _]]. reflexivity.
Qed.

Lemma draw_pixels_colors (s : Snowflake.t) :
  Snowflake.size s <> 0%Z ->
  Forall (fun item => snd item = 1%Z) (Snowflake.pixels s) ->
  exists calls,
    Snowflake.draw_pixels s = Ok calls
    /\ Forall (fun call => color_of call = SNOWFLAKE_COLOR) calls.
Proof.
  intros Hn Hones. destruct (draw_pixels_concat s Hn) as [calls [Hcalls Hdraw]].
  eexists. split; [exact Hdraw |].
  apply Forall_concat, Forall_map. rewrite Forall_forall in *.
  intros item Hin. specialize (Hones item Hin).
  pose proof (draw_pixel_colors s _ _ _ (Hcalls item)) as Hcol.
  rewrite Hones, pixel_color_one in Hcol. exact Hcol.
Qed.

Lemma draw_segment_colors (s : Snowflake.t) (seg : SnowflakeSegment.t) :
  Snowflake.radius s <> 0 ->
  Forall (fun item => snd item = 1%Z) (Snowflake.pixels s) ->
  exists calls,
    Snowflake.draw_segment s seg = Ok calls
    /\ Forall (fun call => color_of call = SNOWFLAKE_COLOR) calls.
Proof.
  intros Hr Hones. unfold Snowflake.draw_segment.
  assert (Hgen : forall d acc,
             Forall (fun item => snd item = 1%Z) d ->
             Forall (fun call => color_of call = SNOWFLAKE_COLOR) acc ->
             exists calls,
               for_each
                 (fun (surface : list draw) (item : instance * Z) =>
                    let '(pixel, value) := item in
                    real_radius <- fdiv (PolarPoint.radius (fields pixel)
                                         * SnowflakeSegment.radius seg)
                                        (Snowflake.radius s) ;;
                    let xy := to_rectangular_at (PolarPoint.theta (fields pixel))
                                real_radius (SnowflakeSegment.origin seg) in
                    Ok (surface ++ [circle (Snowflake.pixel_color value) xy LINE_THICKNESS]))
                 d acc = Ok calls
               /\ Forall (fun call => color_of call = SNOWFLAKE_COLOR) calls).
  { induction d as [| [k v] d IH]; intros acc Hd Hacc; cbn.
    - eexists. split; [reflexivity | exact Hacc].
    - rewrite fdiv_ok by exact Hr. cbn. apply IH.
      + now inversion Hd.
      + apply Forall_app. split; [exact Hacc |].
        inversion Hd as [| ? ? Hv _]; subst. cbn in Hv. subst v.
        repeat constructor. }
  apply Hgen; [exact Hones | constructor].
Qed.

Lemma reachable_after_frame (st : Main.state) (inp : Main.input) :
  Main.reachable st -> Main.running st = true -> Main.reachable (after_frame st inp).
Proof.
  intros Hreach Hrun. unfold after_frame.
  destruct (Main.frame st inp) as [st' | e] eqn:Hframe; [| exact Hreach].
  eapply Main.reachable_frame; eassumption.
Qed.

(** C10: in every state the main loop reaches, every stored pixel value
    is 1, so [draw_pixels] and [draw_segment] only ever draw in
    [SNOWFLAKE_COLOR]: the background-colour branch is not taken. *)
Theorem stored_values_are_one (st : Main.state) :
  Main.reachable st ->
  Forall (fun item => snd item = 1%Z) (Snowflake.pixels (Main.snowflake st))
  /\ (exists calls,
         Snowflake.draw_pixels (Main.snowflake st) = Ok calls
         /\ Forall (fun call => color_of call = SNOWFLAKE_COLOR) calls)
  /\ (exists calls,
         Snowflake.draw_segment (Main.snowflake st) (Main.segment st) = Ok calls
         /\ Forall (fun call => color_of call = SNOWFLAKE_COLOR) calls).
Proof.
  intros Hreach. destruct (reachable_invariant st Hreach) as [Hsr Hso Hr Hsize Hsizes Hpix Hwf].
  assert (Hones : Forall (fun item => snd item = 1%Z) (Snowflake.pixels (Main.snowflake st))).
  { eapply Forall_impl; [| exact Hpix]. now intros item [_ Hv]. }
  split; [exact Hones | split].
  - apply draw_pixels_colors; [apply valid_size_nonzero, Hsize | exact Hones].
  - apply draw_segment_colors; [rewrite Hr; exact SNOWFLAKE_RADIUS_nonzero | exact Hones].
Qed.

Lemma stored_values_are_one_witness :
  Main.reachable (after_frame Main.init held_click)
  /\ Forall (fun item => snd item = 1%Z)
       (Snowflake.pixels (Main.snowflake (after_frame Main.init held_click)))
  /\ (exists calls,
         Snowflake.draw_pixels (Main.snowflake (after_frame Main.init held_click)) = Ok calls
         /\ Forall (fun call => color_of call = SNOWFLAKE_COLOR) calls)
  /\ (exists calls,
         Snowflake.draw_segment (Main.snowflake (after_frame Main.init held_click))
           (Main.segment (after_frame Main.init held_click)) = Ok calls
         /\ Forall (fun call => color_of call = SNOWFLAKE_COLOR) calls).
Proof.
  assert (Hreach : Main.reachable (after_frame Main.init held_click)).
  { apply reachable_after_frame; [apply Main.reachable_init | reflexivity]. }
  split; [exact Hreach |].
  apply (stored_values_are_one (after_frame Main.init held_click) Hreach).
Defined.

(** ** Keys with equal fields *)

Lemma from_rectangular_right_of_apex :
  PolarPoint.from_rectangular (310%Z, (SCREEN_HEIGHT - 325)%Z) SNOWFLAKE_SEGMENT_POSITION
  = PolarPoint.new 100 0.
Proof.
  unfold PolarPoint.from_rectangular, SNOWFLAKE_SEGMENT_POSITION, SCREEN_HEIGHT.
  change (310 - 210)%Z with 100%Z. change (650 - 325 - 325)%Z with 0%Z.
  f_equal.
  - unfold hypot. replace (0 * 0) with 0 by ring. rewrite Rplus_0_r.
    apply sqrt_square. lra.
  - unfold atan2. destruct (Rlt_dec 0 100) as [_ | Hn]; [| exfalso; lra].
    replace (0 / 100) with 0 by lra. rewrite atan_0.
    unfold fmod. replace (0 / RADIANS_IN_CIRCLE) with 0 by (unfold Rdiv; ring).
    rewrite Int_part_IZR. ring.
Qed.

Lemma valid_size_positive (n : Z) : In n VALID_SIZES -> (0 < n)%Z.
Proof. unfold VALID_SIZES. cbn. lia. Qed.

(** What the cursor logic does with [held_click]: the sample is accepted
    and stored under the newly made object. *)
Lemma cursor_logic_held_click (st : Main.state) :
  invariant st ->
  Main.cursor_logic st held_click
  = Ok (Main.mk (Main.running st) (Main.rotate st) (Main.segment st)
          (Snowflake.set_pixels (Main.snowflake st)
             (Snowflake.pixels (Main.snowflake st)
              ++ [(click_key (Main.next_ident st), 1%Z)]))
          (S (Main.next_ident st))).
Proof.
  intros Hinv. pose proof Hinv as [Hsr Hso Hr Hsize Hsizes Hpix Hwf].
  unfold Main.cursor_logic, held_click.
  cbn [Main.MB1 Main.mouse_pos Main.segment Main.snowflake Main.next_ident
       Main.running Main.rotate fields ident].
  rewrite Hso, from_rectangular_right_of_apex.
  assert (Hin : SnowflakeSegment.contains_point (Main.segment st) (PolarPoint.new 100 0)
                = Ok true).
  { apply contains_point_true_iff.
    - rewrite Hsizes. apply valid_size_nonzero, Hsize.
    - cbn. rewrite Hsr, Hsizes. unfold SNOWFLAKE_SEGMENT_RADIUS.
      split; [right | lra].
      apply Rlt_le, Rdiv_lt_0_compat; [apply PI_RGT_0 |].
      apply IZR_lt, valid_size_positive, Hsize. }
  rewrite Hin. cbn [bind].
  rewrite fdiv_ok by (rewrite Hsr; exact SNOWFLAKE_SEGMENT_RADIUS_nonzero). cbn [bind].
  rewrite Hr, Hsr. cbn [PolarPoint.radius PolarPoint.theta].
  replace (100 * (SNOWFLAKE_RADIUS / SNOWFLAKE_SEGMENT_RADIUS)) with 75
    by (unfold SNOWFLAKE_RADIUS, SNOWFLAKE_SEGMENT_RADIUS; lra).
  do 2 f_equal. unfold Snowflake.set_pixel. f_equal.
  apply dict_set_fresh, key_match_fresh.
  eapply fresh_ident; [exact Hpix | reflexivity].
Qed.

Lemma frame_held_click (st : Main.state) :
  invariant st ->
  exists st',
    Main.frame st held_click = Ok st'
    /\ invariant st'
    /\ Main.next_ident st' = S (Main.next_ident st)
    /\ Snowflake.pixels (Main.snowflake st')
       = Snowflake.pixels (Main.snowflake st) ++ [(click_key (Main.next_ident st), 1%Z)].
Proof.
  intros Hinv.
  destruct (frame_invariant st held_click Hinv) as [st' [Hframe Hinv']].
  exists st'. split; [exact Hframe | split; [exact Hinv' |]].
  unfold Main.frame in Hframe. cbn [held_click Main.events for_each bind] in Hframe.
  fold held_click in Hframe. rewrite cursor_logic_held_click in Hframe by exact Hinv.
  cbn [bind] in Hframe. injection Hframe as <-.
  unfold Main.output_logic. cbn [Main.rotate]. destruct (Main.rotate st); split; reflexivity.
Qed.

(** C2 on the running program: the button held still for two frames makes
    two [PolarPoint] objects with the same [theta] and [radius], hence the
    same hash, which are not equal, and [set_pixel] stores the second next
    to the first instead of overwriting it. *)
Theorem equal_points_stored_twice :
  exists st1 st2,
    Main.frame Main.init held_click = Ok st1
    /\ Main.frame st1 held_click = Ok st2
    /\ Snowflake.pixels (Main.snowflake st2) = [(click_key 0, 1%Z); (click_key 1, 1%Z)]
    /\ fields (click_key 0) = fields (click_key 1)
    /\ PolarPoint.hash (fields (click_key 0)) = PolarPoint.hash (fields (click_key 1))
    /\ eq_ (click_key 0) (click_key 1) = false
    /\ Snowflake.pixels
         (Snowflake.set_pixel (Snowflake.set_pixel main_snowflake (click_key 0) 1)
            (click_key 1) 1)
       = [(click_key 0, 1%Z); (click_key 1, 1%Z)].
Proof.
  destruct (frame_held_click Main.init invariant_init) as [st1 [H1 [Hinv1 [Hn1 Hp1]]]].
  destruct (frame_held_click st1 Hinv1) as [st2 [H2 [_ [_ Hp2]]]].
  exists st1, st2. rewrite Hp1, Hn1 in Hp2. cbn in Hp2.
  repeat split; try assumption.
  cbn. unfold key_match, eq_, is_. cbn. now rewrite andb_false_r.
Qed.

(** ** [get_region] *)

Lemma snowflake_get_region_overshoots (s : Snowflake.t) :
  overshoots (Snowflake.get_region s true) (Snowflake.get_region s false).
Proof.
  unfold overshoots, Snowflake.get_region. destruct (Snowflake.origin s) as [ox oy].
  cbn [left top width height]. unfold LINE_THICKNESS. repeat split; lra.
Qed.

(** The slice count the segment's box is sized for: the smaller of the
    current size and the size before it in [VALID_SIZES]. *)
Lemma segment_min_size (n : Z) :
  In n VALID_SIZES ->
  exists i,
    index VALID_SIZES n = Ok i
    /\ Z.min n (getitem VALID_SIZES ((i - 1) mod len VALID_SIZES)) <> 0%Z.
Proof.
  unfold VALID_SIZES at 1. cbn [In].
  intros [H | [H | [H | [H | [H | [H | []]]]]]]; subst n;
    eexists; (split; [reflexivity | vm_compute; discriminate]).
Qed.

Lemma segment_get_region_ok (seg : SnowflakeSegment.t) (update : bool) :
  In (SnowflakeSegment.size seg) VALID_SIZES ->
  exists r, SnowflakeSegment.get_region seg update = Ok r.
Proof.
  intros Hin. destruct (segment_min_size _ Hin) as [i [Hi Hmin]].
  unfold SnowflakeSegment.get_region.
  destruct (SnowflakeSegment.origin seg) as [ox oy].
  rewrite Hi. cbn [bind]. rewrite fdiv_ok by (apply not_0_IZR; exact Hmin).
  cbn [bind]. destruct update; eexists; reflexivity.
Qed.

(** C9 on the figures [main] draws: the region returned for updating, read
    as absolute bounds, and the region returned for drawing, read as a
    corner with a width and a height, start at the same corner, but the
    first reaches [LINE_THICKNESS] further right and down; for the
    snowflake they are (446, 171, 758, 483) and (446, 171, 308, 308), and
    the point (756, 325) lies in the first area and not in the second. *)
Theorem get_region_update_overshoots :
  (forall s : Snowflake.t,
      overshoots (Snowflake.get_region s true) (Snowflake.get_region s false))
  /\ (exists u d,
         SnowflakeSegment.get_region main_segment true = Ok u
         /\ SnowflakeSegment.get_region main_segment false = Ok d
         /\ overshoots u d)
  /\ Snowflake.get_region main_snowflake true = mkRect 446 171 758 483
  /\ Snowflake.get_region main_snowflake false = mkRect 446 171 308 308
  /\ in_bounds (Snowflake.get_region main_snowflake true) 756 325
  /\ ~ in_box (Snowflake.get_region main_snowflake false) 756 325.
Proof.
  assert (Hu : Snowflake.get_region main_snowflake true = mkRect 446 171 758 483).
  { unfold Snowflake.get_region, main_snowflake.
    cbn [Main.snowflake Main.init Snowflake.init Snowflake.origin Snowflake.radius].
    unfold SNOWFLAKE_POSITION, SNOWFLAKE_RADIUS, LINE_THICKNESS. f_equal; lra. }
  assert (Hd : Snowflake.get_region main_snowflake false = mkRect 446 171 308 308).
  { unfold Snowflake.get_region, main_snowflake.
    cbn [Main.snowflake Main.init Snowflake.init Snowflake.origin Snowflake.radius].
    unfold SNOWFLAKE_POSITION, SNOWFLAKE_RADIUS, LINE_THICKNESS. f_equal; lra. }
  split; [exact snowflake_get_region_overshoots | split; [| split; [exact Hu | split; [exact Hd |]]]].
  - assert (Hin : In (SnowflakeSegment.size main_segment) VALID_SIZES) by (cbn; tauto).
    destruct (segment_min_size _ Hin) as [i [Hi Hmin]].
    unfold SnowflakeSegment.get_region.
    destruct (SnowflakeSegment.origin main_segment) as [ox oy].
    rewrite Hi. cbn [bind]. rewrite fdiv_ok by (apply not_0_IZR; exact Hmin).
    cbn [bind]. do 2 eexists. split; [reflexivity | split; [reflexivity |]].
    unfold overshoots. cbn [left top width height]. unfold LINE_THICKNESS.
    repeat split; lra.
  - rewrite Hu, Hd. unfold in_bounds, in_box. cbn. split; lra.
Qed.

(** * Further properties of the code *)

(** ** Polar conversion *)

Lemma hypot_nonneg (x y : R) : 0 <= hypot x y.
Proof. apply sqrt_pos. Qed.

Lemma hypot_zero_iff (x y : R) : hypot x y = 0 <-> x = 0 /\ y = 0.
Proof.
  unfold hypot. split.
  - intros H. apply sqrt_eq_0 in H; [| nra]. split; nra.
  - intros [-> ->]. replace (0 * 0 + 0 * 0) with 0 by ring. apply sqrt_0.
Qed.

Lemma atan2_origin : atan2 0 0 = 0.
Proof.
  unfold atan2. destruct (Rlt_dec 0 0) as [H | _]; [lra |]. reflexivity.
Qed.

Lemma fmod_zero (m : R) : fmod 0 m = 0.
Proof.
  unfold fmod. replace (0 / m) with 0 by (unfold Rdiv; ring).
  rewrite Int_part_IZR. ring.
Qed.

Lemma from_rectangular_theta_range (point O : Z * Z) :
  0 <= PolarPoint.theta (PolarPoint.from_rectangular point O) < RADIANS_IN_CIRCLE.
Proof.
  destruct point as [x y], O as [ox oy]. unfold PolarPoint.from_rectangular.
  cbn [PolarPoint.theta]. apply fmod_range, RADIANS_IN_CIRCLE_pos.
Qed.

Lemma within_one_refl (p : Z * Z) : within_one p p.
Proof. unfold within_one. rewrite !Z.sub_diag. cbn. lia. Qed.

(** Over the reals the radius and the angle are polar coordinates of the
    point, exactly. *)
Lemma from_rectangular_cos_sin (x y : Z) (O : Z * Z) :
  let p := PolarPoint.from_rectangular (x, y) O in
  PolarPoint.radius p * cos (PolarPoint.theta p) = IZR (x - fst O)
  /\ PolarPoint.radius p * sin (PolarPoint.theta p) = IZR (y - snd O).
Proof.
  destruct O as [ox oy]. unfold PolarPoint.from_rectangular.
  cbn [PolarPoint.radius PolarPoint.theta fst snd].
  split; [rewrite cos_fmod; apply hypot_cos_atan2 | rewrite sin_fmod; apply hypot_sin_atan2].
Qed.

Lemma from_rectangular_radius_zero (x y : Z) (O : Z * Z) :
  PolarPoint.radius (PolarPoint.from_rectangular (x, y) O) = 0 <-> (x, y) = O.
Proof.
  destruct O as [ox oy]. unfold PolarPoint.from_rectangular.
  cbn [PolarPoint.radius]. rewrite hypot_zero_iff. split.
  - intros [Hx Hy]. apply eq_IZR in Hx, Hy. f_equal; lia.
  - intros [= -> ->]. rewrite !Z.sub_diag. split; reflexivity.
Qed.

(** X1: for a point and an origin of the window, [from_rectangular] returns
    a radius that is not negative and an angle in [0, 2 pi) which are polar
    coordinates of the point relative to the origin, to a thousandth of a
    pixel; the radius is 0 exactly at the origin itself, where the angle is
    0; and the angle is in the upper half turn, ends excluded, for a point
    above the origin and in the lower half turn for a point below it.  The
    window is where the rounding of doubles stays far below the tolerance
    and away from the ends of the half turns. *)
Theorem from_rectangular_polar_form (x y : Z) (O : Z * Z) :
  on_screen (x, y) ->
  on_screen O ->
  let p := PolarPoint.from_rectangular (x, y) O in
  0 <= PolarPoint.radius p
  /\ 0 <= PolarPoint.theta p < RADIANS_IN_CIRCLE
  /\ Rabs (PolarPoint.radius p * cos (PolarPoint.theta p) - IZR (x - fst O)) <= 1 / 1000
  /\ Rabs (PolarPoint.radius p * sin (PolarPoint.theta p) - IZR (y - snd O)) <= 1 / 1000
  /\ (PolarPoint.radius p = 0 <-> (x, y) = O)
  /\ ((x, y) = O -> PolarPoint.theta p = 0)
  /\ ((snd O < y)%Z -> 0 < PolarPoint.theta p < PI)
  /\ ((y < snd O)%Z -> PI < PolarPoint.theta p < RADIANS_IN_CIRCLE).
Proof.
  intros _ _ p.
  destruct (from_rectangular_cos_sin x y O) as [Hcos Hsin]. fold p in Hcos, Hsin.
  pose proof (from_rectangular_theta_range (x, y) O) as Hrange. fold p in Hrange.
  assert (Hr : 0 <= PolarPoint.radius p).
  { unfold p. destruct O as [ox oy]. apply hypot_nonneg. }
  pose proof PI_RGT_0 as Hpi. unfold RADIANS_IN_CIRCLE in *.
  split; [exact Hr |]. split; [exact Hrange |].
  split; [rewrite Hcos, Rminus_diag, Rabs_R0; lra |].
  split; [rewrite Hsin, Rminus_diag, Rabs_R0; lra |].
  split; [apply from_rectangular_radius_zero |].
  split.
  - intros HO. unfold p. rewrite <- HO. unfold PolarPoint.from_rectangular.
    cbn [PolarPoint.theta]. rewrite !Z.sub_diag, atan2_origin. apply fmod_zero.
  - split; intros Hy.
    + assert (Hdy : 0 < IZR (y - snd O)) by (apply IZR_lt; lia).
      assert (Hs : 0 < sin (PolarPoint.theta p)) by nra.
      split.
      * destruct (Req_dec (PolarPoint.theta p) 0) as [H0 | H0]; [| lra].
        rewrite H0, sin_0 in Hs. lra.
      * destruct (Rlt_dec (PolarPoint.theta p) PI) as [Hlt | Hge]; [exact Hlt |].
        pose proof (sin_le_0 (PolarPoint.theta p)) as Hle. lra.
    + assert (Hdy : IZR (y - snd O) < 0) by (apply IZR_lt; lia).
      assert (Hs : sin (PolarPoint.theta p) < 0) by nra.
      split; [| lra].
      destruct (Rlt_dec PI (PolarPoint.theta p)) as [Hlt | Hge]; [exact Hlt |].
      pose proof (sin_ge_0 (PolarPoint.theta p)) as Hge0. lra.
Qed.

Lemma from_rectangular_polar_form_witness :
  on_screen (210%Z, 403%Z)
  /\ on_screen (210%Z, 325%Z)
  /\ let p := PolarPoint.from_rectangular (210%Z, 403%Z) (210%Z, 325%Z) in
     Rabs (PolarPoint.radius p * cos (PolarPoint.theta p) - 0) <= 1 / 1000
     /\ Rabs (PolarPoint.radius p * sin (PolarPoint.theta p) - 78) <= 1 / 1000
     /\ 0 < PolarPoint.theta p < PI.
Proof.
  assert (H1 : on_screen (210%Z, 403%Z)) by (unfold on_screen, SCREEN_WIDTH, SCREEN_HEIGHT; cbn; lia).
  assert (H2 : on_screen (210%Z, 325%Z)) by (unfold on_screen, SCREEN_WIDTH, SCREEN_HEIGHT; cbn; lia).
  split; [exact H1 | split; [exact H2 |]].
  destruct (from_rectangular_polar_form 210 403 (210%Z, 325%Z) H1 H2)
    as [_ [_ [Hcos [Hsin [_ [_ [Hup _]]]]]]].
  split; [exact Hcos | split; [exact Hsin |]].
  apply Hup. cbn. lia.
Defined.

(** Over the reals the polar step is undone exactly. *)
Lemma polar_step_undone (x y : Z) (O C S : Z * Z) :
  let p := PolarPoint.from_rectangular (x, y) O in
  to_rectangular (PolarPoint.theta p) (PolarPoint.radius p) O C S
  = ((fst S * x + fst C)%Z, (snd S * y + snd C)%Z).
Proof.
  destruct O as [ox oy], C as [cx cy], S as [sx sy].
  unfold PolarPoint.from_rectangular, to_rectangular.
  cbn [PolarPoint.theta PolarPoint.radius fst snd].
  rewrite cos_fmod, sin_fmod, hypot_cos_atan2, hypot_sin_atan2.
  f_equal; apply int_eq; rewrite plus_IZR, mult_IZR, minus_IZR; ring.
Qed.

(** X2: whatever Cartesian origin of the window and whatever signs are
    passed, converting a point of the window to polar about [O] and back
    about [O] applies the signs and the offset to the point's own
    coordinates, within one pixel in each coordinate: the polar step is
    undone.  With the origin (0, 0) and the signs (1, 1) the point itself
    comes back.  The pixel of slack is what [int] can lose when rounding
    leaves a coordinate just short of the integer. *)
Theorem to_rectangular_undoes_from_rectangular (x y : Z) (O C S : Z * Z) :
  on_screen (x, y) ->
  on_screen O ->
  on_screen C ->
  is_sign (fst S) ->
  is_sign (snd S) ->
  let p := PolarPoint.from_rectangular (x, y) O in
  within_one (to_rectangular (PolarPoint.theta p) (PolarPoint.radius p) O C S)
             ((fst S * x + fst C)%Z, (snd S * y + snd C)%Z)
  /\ (C = (0%Z, 0%Z) -> S = (1%Z, 1%Z) ->
      within_one (to_rectangular (PolarPoint.theta p) (PolarPoint.radius p) O C S)
                 (x, y)).
Proof.
  intros _ _ _ _ _ p. unfold p. rewrite polar_step_undone. split.
  - apply within_one_refl.
  - intros -> ->. cbn [fst snd].
    replace (1 * x + 0)%Z with x by lia. replace (1 * y + 0)%Z with y by lia.
    apply within_one_refl.
Qed.

Lemma to_rectangular_undoes_from_rectangular_witness :
  on_screen (269%Z, 359%Z)
  /\ on_screen SNOWFLAKE_SEGMENT_POSITION
  /\ on_screen (0%Z, 0%Z)
  /\ is_sign 1
  /\ let p := PolarPoint.from_rectangular (269%Z, 359%Z) SNOWFLAKE_SEGMENT_POSITION in
     within_one
       (to_rectangular (PolarPoint.theta p) (PolarPoint.radius p)
          SNOWFLAKE_SEGMENT_POSITION (0%Z, 0%Z) (1%Z, 1%Z))
       (269%Z, 359%Z).
Proof.
  assert (H1 : on_screen (269%Z, 359%Z)) by (unfold on_screen, SCREEN_WIDTH, SCREEN_HEIGHT; cbn; lia).
  assert (H2 : on_screen SNOWFLAKE_SEGMENT_POSITION) by (unfold on_screen, SCREEN_WIDTH, SCREEN_HEIGHT; cbn; lia).
  assert (H3 : on_screen (0%Z, 0%Z)) by (unfold on_screen, SCREEN_WIDTH, SCREEN_HEIGHT; cbn; lia).
  assert (H4 : is_sign 1) by (now left).
  repeat (split; [assumption |]).
  exact (proj2 (to_rectangular_undoes_from_rectangular 269 359
                  SNOWFLAKE_SEGMENT_POSITION (0%Z, 0%Z) (1%Z, 1%Z) H1 H2 H3 H4 H4)
           eq_refl eq_refl).
Defined.

Lemma to_rectangular_same_angle (a b r : R) (O C S : Z * Z) :
  same_angle a b -> to_rectangular a r O C S = to_rectangular b r O C S.
Proof.
  intros [k Hk]. assert (Ha : b = a - IZR k * RADIANS_IN_CIRCLE) by lra.
  unfold to_rectangular. now rewrite Ha, cos_whole_turns, sin_whole_turns.
Qed.

Lemma for_each_ext {A S : Type} (f g : S -> A -> result S) (xs : list A) (acc : S) :
  (forall a x, In x xs -> f a x = g a x) ->
  for_each f xs acc = for_each g xs acc.
Proof.
  revert acc. induction xs as [| x xs IH]; intros acc Hfg; [reflexivity |].
  cbn. rewrite (Hfg acc x (or_introl eq_refl)).
  destruct (g acc x) as [acc' | e]; [| reflexivity].
  cbn. apply IH. intros a y Hy. apply Hfg. now right.
Qed.

(** Over the reals the wrap leaves the draw calls as they are. *)
Lemma draw_pixels_unwrapped (s : Snowflake.t) (d : R) :
  Snowflake.draw_pixels (Snowflake.rotate s d)
  = Snowflake.draw_pixels
      (Snowflake.set_current_angle s (Snowflake._current_angle s + d)).
Proof.
  unfold Snowflake.draw_pixels, Snowflake.draw_pixel, Snowflake.rotate,
    Snowflake.set_current_angle.
  cbn [Snowflake.size Snowflake.mirror Snowflake.origin Snowflake._current_angle
       Snowflake.pixels].
  apply for_each_ext. intros surface item _. f_equal.
  destruct (fdiv RADIANS_IN_CIRCLE (IZR (Snowflake.size s))) as [arc | e];
    [| reflexivity].
  cbn [bind]. f_equal. apply map_ext. intros i. f_equal.
  apply to_rectangular_same_angle. unfold Snowflake.real_theta.
  destruct (same_angle_fmod (Snowflake._current_angle s + d)) as [k Hk].
  exists k. lra.
Qed.

Lemma same_dots_refl (calls : list draw) : Forall2 same_dot_within_one calls calls.
Proof.
  induction calls as [| d calls IH]; constructor; [| exact IH].
  split; [reflexivity | split; [reflexivity | apply within_one_refl]].
Qed.

(** ** [contains_point] at the edges *)

(** X4: the size decides how [contains_point] ends: with size 0 it raises
    [ZeroDivisionError]; with a negative size it rejects every angle in
    [0, 2 pi); with size 1 the arc is the whole circle and only the radius
    is tested. *)
Theorem contains_point_edge_sizes (seg : SnowflakeSegment.t) (p : PolarPoint.t) :
  (SnowflakeSegment.size seg = 0%Z ->
   SnowflakeSegment.contains_point seg p = Raise ZeroDivisionError)
  /\ ((SnowflakeSegment.size seg < 0)%Z ->
      0 <= PolarPoint.theta p < RADIANS_IN_CIRCLE ->
      SnowflakeSegment.contains_point seg p = Ok false)
  /\ (SnowflakeSegment.size seg = 1%Z ->
      (SnowflakeSegment.contains_point seg p = Ok true
       <-> 0 <= PolarPoint.radius p <= SnowflakeSegment.radius seg)).
Proof.
  split; [apply contains_point_zero_size | split].
  - intros Hneg Htheta.
    assert (Hn : SnowflakeSegment.size seg <> 0%Z) by lia.
    destruct (contains_point_total seg p Hn) as [[|] Hb]; [| exact Hb].
    exfalso. apply contains_point_true_iff in Hb; [| exact Hn].
    assert (Hlt : IZR (SnowflakeSegment.size seg) < 0) by (apply IZR_lt; exact Hneg).
    assert (Hh : PI / IZR (SnowflakeSegment.size seg) < 0).
    { unfold Rdiv. apply Rmult_pos_neg; [apply PI_RGT_0 |]. now apply Rinv_neg. }
    unfold RADIANS_IN_CIRCLE in *. lra.
  - intros Hone. rewrite contains_point_true_iff by lia. rewrite Hone.
    replace (PI / 1) with PI by field. unfold RADIANS_IN_CIRCLE.
    pose proof PI_RGT_0. split; [tauto |]. intros Hr. split; [| exact Hr].
    destruct (Rle_dec (PolarPoint.theta p) PI); [now right | left; lra].
Qed.

Lemma contains_point_edge_sizes_witness :
  SnowflakeSegment.size (SnowflakeSegment.set_size main_segment 0) = 0%Z
  /\ SnowflakeSegment.contains_point (SnowflakeSegment.set_size main_segment 0)
       (PolarPoint.new 100 0) = Raise ZeroDivisionError
  /\ (SnowflakeSegment.size (SnowflakeSegment.set_size main_segment (-6)) < 0)%Z
  /\ 0 <= PolarPoint.theta (PolarPoint.new 100 0) < RADIANS_IN_CIRCLE
  /\ SnowflakeSegment.contains_point (SnowflakeSegment.set_size main_segment (-6))
       (PolarPoint.new 100 0) = Ok false
  /\ SnowflakeSegment.size (SnowflakeSegment.set_size main_segment 1) = 1%Z
  /\ (SnowflakeSegment.contains_point (SnowflakeSegment.set_size main_segment 1)
        (PolarPoint.new 100 PI) = Ok true
      <-> 0 <= 100 <= SnowflakeSegment.radius (SnowflakeSegment.set_size main_segment 1)).
Proof.
  assert (Htheta : 0 <= PolarPoint.theta (PolarPoint.new 100 0) < RADIANS_IN_CIRCLE)
    by (cbn; pose proof RADIANS_IN_CIRCLE_pos; lra).
  assert (Hneg : (SnowflakeSegment.size (SnowflakeSegment.set_size main_segment (-6)) < 0)%Z)
    by (cbn; lia).
  split; [reflexivity | split; [| split; [exact Hneg | split; [exact Htheta |
    split; [| split; [reflexivity |]]]]]].
  - exact (proj1 (contains_point_edge_sizes
                    (SnowflakeSegment.set_size main_segment 0) (PolarPoint.new 100 0))
             eq_refl).
  - exact (proj1 (proj2 (contains_point_edge_sizes
                           (SnowflakeSegment.set_size main_segment (-6))
                           (PolarPoint.new 100 0))) Hneg Htheta).
  - exact (proj2 (proj2 (contains_point_edge_sizes
                           (SnowflakeSegment.set_size main_segment 1)
                           (PolarPoint.new 100 PI))) eq_refl).
Defined.

Lemma contains_point_mono (seg seg' : SnowflakeSegment.t) (p p' : PolarPoint.t) :
  SnowflakeSegment.contains_point seg p = Ok true ->
  (0 < SnowflakeSegment.size seg' <= SnowflakeSegment.size seg)%Z ->
  SnowflakeSegment.radius seg <= SnowflakeSegment.radius seg' ->
  PolarPoint.theta p' = PolarPoint.theta p ->
  0 <= PolarPoint.radius p' <= PolarPoint.radius p ->
  SnowflakeSegment.contains_point seg' p' = Ok true.
Proof.
  intros Hin Hsize Hradius Htheta Hr.
  apply contains_point_true_iff in Hin; [| lia].
  apply contains_point_true_iff; [lia |]. rewrite Htheta.
  assert (Hpos' : 0 < IZR (SnowflakeSegment.size seg')) by (apply IZR_lt; lia).
  assert (Hle : IZR (SnowflakeSegment.size seg') <= IZR (SnowflakeSegment.size seg))
    by (apply IZR_le; lia).
  assert (Hhalf : PI / IZR (SnowflakeSegment.size seg)
                  <= PI / IZR (SnowflakeSegment.size seg')).
  { unfold Rdiv. apply Rmult_le_compat_l; [pose proof PI_RGT_0; lra |].
    apply Rinv_le_contravar; assumption. }
  destruct Hin as [[Hhi | Hlo] Hrad]; (split; [| lra]); [left | right]; lra.
Qed.

(** X5: [contains_point] is monotone: a point it accepts is still accepted
    nearer the apex at the same angle, by a segment of larger radius, and
    by a segment cut into fewer (but at least one) slices. *)
Theorem contains_point_monotone (seg seg' : SnowflakeSegment.t) (p p' : PolarPoint.t) :
  SnowflakeSegment.contains_point seg p = Ok true ->
  (0 < SnowflakeSegment.size seg' <= SnowflakeSegment.size seg)%Z ->
  SnowflakeSegment.radius seg <= SnowflakeSegment.radius seg' ->
  PolarPoint.theta p' = PolarPoint.theta p ->
  0 <= PolarPoint.radius p' <= PolarPoint.radius p ->
  SnowflakeSegment.contains_point seg' p' = Ok true.
Proof. exact (contains_point_mono seg seg' p p'). Qed.

Lemma contains_point_monotone_witness :
  SnowflakeSegment.contains_point main_segment (PolarPoint.new 100 0) = Ok true
  /\ (0 < SnowflakeSegment.size (SnowflakeSegment.set_size main_segment 4)
      <= SnowflakeSegment.size main_segment)%Z
  /\ SnowflakeSegment.radius main_segment
     <= SnowflakeSegment.radius (SnowflakeSegment.set_size main_segment 4)
  /\ SnowflakeSegment.contains_point (SnowflakeSegment.set_size main_segment 4)
       (PolarPoint.new 50 0) = Ok true.
Proof.
  assert (Hin : SnowflakeSegment.contains_point main_segment (PolarPoint.new 100 0)
                = Ok true).
  { apply contains_point_true_iff; [exact main_size_nonzero |].
    cbn. unfold SNOWFLAKE_SEGMENT_RADIUS, DEFAULT_SIZE. pose proof PI_RGT_0.
    split; [right |]; lra. }
  assert (Hsize : (0 < SnowflakeSegment.size (SnowflakeSegment.set_size main_segment 4)
                   <= SnowflakeSegment.size main_segment)%Z)
    by (cbn; unfold DEFAULT_SIZE; lia).
  assert (Hradius : SnowflakeSegment.radius main_segment
                    <= SnowflakeSegment.radius (SnowflakeSegment.set_size main_segment 4))
    by (cbn; lra).
  split; [exact Hin | split; [exact Hsize | split; [exact Hradius |]]].
  apply (contains_point_monotone main_segment (SnowflakeSegment.set_size main_segment 4)
           (PolarPoint.new 100 0) (PolarPoint.new 50 0) Hin Hsize Hradius).
  - reflexivity.
  - cbn. lra.
Defined.

(** ** More on [clear_pixels_outside] and the empty snowflake *)

Lemma set_pixels_same (s : Snowflake.t) : Snowflake.set_pixels s (Snowflake.pixels s) = s.
Proof. now destruct s. Qed.

Lemma filter_all {A : Type} (f : A -> bool) (l : list A) :
  (forall a, In a l -> f a = true) -> filter f l = l.
Proof.
  induction l as [| a l IH]; intros Hall; [reflexivity |].
  cbn. rewrite (Hall a (or_introl eq_refl)). f_equal. apply IH.
  intros b Hb. apply Hall. now right.
Qed.

Lemma inside_monotone (s : Snowflake.t) (seg seg' : SnowflakeSegment.t) (pixel : instance) :
  inside s seg pixel = Ok true ->
  (0 < SnowflakeSegment.size seg' <= SnowflakeSegment.size seg)%Z ->
  SnowflakeSegment.radius seg' = SnowflakeSegment.radius seg ->
  inside s seg' pixel = Ok true.
Proof.
  unfold inside, Snowflake.rescaled. intros Hin Hsize Hradius. rewrite Hradius.
  destruct (fdiv _ _) as [real_radius | e]; [| discriminate]. cbn [bind] in *.
  eapply contains_point_mono; [exact Hin | exact Hsize | lra | reflexivity |].
  apply contains_point_true_iff in Hin; [| lia]. cbn in *. lra.
Qed.

(** X6: what a pruning leaves, a pruning against a segment of the same
    radius with fewer slices leaves alone: after
    [clear_pixels_outside(seg)], [clear_pixels_outside(seg')] returns the
    snowflake unchanged. *)
Theorem clear_pixels_outside_then_wider
    (s : Snowflake.t) (seg seg' : SnowflakeSegment.t) :
  Snowflake.radius s <> 0 ->
  dict_wf (Snowflake.pixels s) ->
  (0 < SnowflakeSegment.size seg' <= SnowflakeSegment.size seg)%Z ->
  SnowflakeSegment.radius seg' = SnowflakeSegment.radius seg ->
  exists s',
    Snowflake.clear_pixels_outside s seg = Ok s'
    /\ Snowflake.clear_pixels_outside s' seg' = Ok s'.
Proof.
  intros Hr Hwf Hsize Hradius.
  eexists. split; [apply clear_pixels_outside_filter; [exact Hr | lia | exact Hwf] |].
  rewrite clear_pixels_outside_filter; [| exact Hr | lia | apply dict_wf_filter, Hwf].
  unfold Snowflake.set_pixels. cbn. do 2 f_equal.
  apply filter_all. intros item Hin. apply filter_In in Hin as [_ Hin].
  apply insideb_true. apply insideb_true in Hin.
  eapply inside_monotone; eassumption.
Qed.

Lemma clear_pixels_outside_then_wider_witness :
  Snowflake.radius two_pixel_snowflake <> 0
  /\ dict_wf (Snowflake.pixels two_pixel_snowflake)
  /\ (0 < SnowflakeSegment.size (SnowflakeSegment.set_size main_segment 2)
      <= SnowflakeSegment.size main_segment)%Z
  /\ SnowflakeSegment.radius (SnowflakeSegment.set_size main_segment 2)
     = SnowflakeSegment.radius main_segment
  /\ exists s',
       Snowflake.clear_pixels_outside two_pixel_snowflake main_segment = Ok s'
       /\ Snowflake.clear_pixels_outside s' (SnowflakeSegment.set_size main_segment 2)
          = Ok s'.
Proof.
  pose proof main_radius_nonzero as Hr. pose proof two_pixel_snowflake_wf as Hwf.
  assert (Hsize : (0 < SnowflakeSegment.size (SnowflakeSegment.set_size main_segment 2)
                   <= SnowflakeSegment.size main_segment)%Z)
    by (cbn; unfold DEFAULT_SIZE; lia).
  assert (Hradius : SnowflakeSegment.radius (SnowflakeSegment.set_size main_segment 2)
                    = SnowflakeSegment.radius main_segment) by reflexivity.
  repeat (split; [assumption |]).
  exact (clear_pixels_outside_then_wider two_pixel_snowflake main_segment
           (SnowflakeSegment.set_size main_segment 2) Hr Hwf Hsize Hradius).
Defined.

(** X7: with no pixel stored nothing is divided, so nothing raises, whatever
    the radius and the sizes: [clear_pixels_outside] returns the snowflake
    as it is, and [draw_pixels] and [draw_segment] issue no draw call. *)
Theorem empty_snowflake_is_inert (s : Snowflake.t) (seg : SnowflakeSegment.t) :
  Snowflake.pixels s = [] ->
  Snowflake.clear_pixels_outside s seg = Ok s
  /\ Snowflake.draw_pixels s = Ok []
  /\ Snowflake.draw_segment s seg = Ok [].
Proof.
  intros Hempty.
  unfold Snowflake.clear_pixels_outside, Snowflake.draw_pixels, Snowflake.draw_segment.
  rewrite Hempty. cbn. rewrite <- Hempty, set_pixels_same. auto.
Qed.

Lemma empty_snowflake_is_inert_witness :
  Snowflake.pixels (Snowflake.init 0 0 (0%Z, 0%Z) true) = []
  /\ Snowflake.clear_pixels_outside (Snowflake.init 0 0 (0%Z, 0%Z) true)
       (SnowflakeSegment.init 0 0 (0%Z, 0%Z) 0)
     = Ok (Snowflake.init 0 0 (0%Z, 0%Z) true)
  /\ Snowflake.draw_pixels (Snowflake.init 0 0 (0%Z, 0%Z) true) = Ok []
  /\ Snowflake.draw_segment (Snowflake.init 0 0 (0%Z, 0%Z) true)
       (SnowflakeSegment.init 0 0 (0%Z, 0%Z) 0) = Ok [].
Proof.
  split; [reflexivity |].
  exact (empty_snowflake_is_inert (Snowflake.init 0 0 (0%Z, 0%Z) true)
           (SnowflakeSegment.init 0 0 (0%Z, 0%Z) 0) eq_refl).
Defined.

(** X8: with a pixel stored the divisions do happen:
    [clear_pixels_outside] raises [ZeroDivisionError] when the snowflake's
    radius is 0 or the segment's size is 0, [draw_segment] when the
    snowflake's radius is 0, and [draw_pixels] when the snowflake's size
    is 0. *)
Theorem stored_pixel_divisions (s : Snowflake.t) (seg : SnowflakeSegment.t) :
  Snowflake.pixels s <> [] ->
  (Snowflake.radius s = 0 \/ SnowflakeSegment.size seg = 0%Z ->
   Snowflake.clear_pixels_outside s seg = Raise ZeroDivisionError)
  /\ (Snowflake.radius s = 0 ->
      Snowflake.draw_segment s seg = Raise ZeroDivisionError)
  /\ (Snowflake.size s = 0%Z ->
      Snowflake.draw_pixels s = Raise ZeroDivisionError).
Proof.
  intros Hne. destruct (Snowflake.pixels s) as [| [k v] d] eqn:Hpix; [contradiction |].
  split; [| split].
  - intros Hzero. unfold Snowflake.clear_pixels_outside. rewrite Hpix.
    cbn [for_each fst]. unfold Snowflake.rescaled.
    destruct (Req_dec_T (Snowflake.radius s) 0) as [Hr | Hr].
    + rewrite Hr, fdiv_zero. reflexivity.
    + destruct Hzero as [Hr' | Hn]; [contradiction |].
      rewrite fdiv_ok by exact Hr. cbn [bind].
      rewrite contains_point_zero_size by exact Hn. reflexivity.
  - intros Hr. unfold Snowflake.draw_segment. rewrite Hpix. cbn [for_each].
    rewrite Hr, fdiv_zero. reflexivity.
  - intros Hn. unfold Snowflake.draw_pixels. rewrite Hpix. cbn [for_each fst snd].
    unfold Snowflake.draw_pixel. rewrite Hn, fdiv_zero. reflexivity.
Qed.

Lemma stored_pixel_divisions_witness :
  Snowflake.pixels (Snowflake.set_size two_pixel_snowflake 0) <> []
  /\ Snowflake.draw_pixels (Snowflake.set_size two_pixel_snowflake 0)
     = Raise ZeroDivisionError
  /\ Snowflake.clear_pixels_outside (Snowflake.set_size two_pixel_snowflake 0)
       (SnowflakeSegment.set_size main_segment 0)
     = Raise ZeroDivisionError.
Proof.
  assert (Hne : Snowflake.pixels (Snowflake.set_size two_pixel_snowflake 0) <> [])
    by (cbn; discriminate).
  split; [exact Hne |].
  pose proof (stored_pixel_divisions (Snowflake.set_size two_pixel_snowflake 0)
                (SnowflakeSegment.set_size main_segment 0) Hne) as [Hc [_ Hd]].
  split; [apply Hd; reflexivity | apply Hc; right; reflexivity].
Defined.

(** ** [set_pixel] *)

Lemma instance_eq (a b : instance) : ident a = ident b -> fields a = fields b -> a = b.
Proof. destruct a, b. cbn. now intros -> ->. Qed.

Lemma key_match_eq (k' k : instance) : key_match k' k = true -> k' = k.
Proof.
  intros Hm. apply instance_eq; [apply key_match_ident, Hm |].
  unfold key_match in Hm. apply andb_true_iff in Hm as [Hh _].
  now apply hash_eqb_fields.
Qed.

Lemma with_value_other (d : dict) (p : instance) (v : Z) :
  ~ In (ident p) (map (fun item => ident (fst item)) d) -> with_value d p v = d.
Proof.
  unfold with_value. induction d as [| [k' v'] d IH]; intros Hfresh; [reflexivity |].
  cbn in *. rewrite IH by tauto.
  unfold is_. cbn. destruct (Nat.eqb_spec (ident k') (ident p)); [| reflexivity].
  exfalso. apply Hfresh. now left.
Qed.

Lemma dict_set_stored (d : dict) (p : instance) (v v0 : Z) :
  dict_wf d -> In (p, v0) d -> dict_set d p v = with_value d p v.
Proof.
  unfold dict_wf. induction d as [| [k' v'] d IH]; intros Hwf Hin; [contradiction |].
  cbn in Hwf. inversion Hwf as [| ? ? Hnotin Hwf']; subst.
  cbn [dict_set with_value map fst]. destruct Hin as [[= -> ->] | Hin].
  - rewrite key_match_refl. unfold is_ at 1. rewrite Nat.eqb_refl. f_equal.
    symmetry. apply with_value_other, Hnotin.
  - assert (Hdiff : ident k' <> ident p).
    { intros Heq. apply Hnotin. rewrite Heq.
      apply in_map_iff. exists (p, v0). split; [reflexivity | exact Hin]. }
    assert (Hm : key_match k' p = false).
    { apply not_true_iff_false. intros Hm. apply Hdiff, key_match_ident, Hm. }
    rewrite Hm. unfold is_ at 1. apply Nat.eqb_neq in Hdiff. rewrite Hdiff.
    f_equal. apply IH; assumption.
Qed.

Lemma with_value_idents (d : dict) (p : instance) (v : Z) :
  map (fun item => ident (fst item)) (with_value d p v)
  = map (fun item => ident (fst item)) d.
Proof.
  unfold with_value. rewrite map_map. apply map_ext.
  intros [k' v']. cbn. now destruct (is_ k' p).
Qed.

(** X9: [set_pixel] under an object that is already a key replaces the
    value of that entry in place, all other entries, the order and the
    number of entries staying as they were; under an object that is not yet
    a key it appends an entry.  Either way the pixels remain a dict and hold
    the value just written. *)
Theorem set_pixel_overwrites_or_appends (s : Snowflake.t) (p : instance) (v : Z) :
  dict_wf (Snowflake.pixels s) ->
  let pixels' := Snowflake.pixels (Snowflake.set_pixel s p v) in
  ((exists v0, In (p, v0) (Snowflake.pixels s)) ->
   pixels' = with_value (Snowflake.pixels s) p v
   /\ length pixels' = length (Snowflake.pixels s)
   /\ dict_wf pixels' /\ In (p, v) pixels')
  /\ (~ In (ident p) (map (fun item => ident (fst item)) (Snowflake.pixels s)) ->
      pixels' = Snowflake.pixels s ++ [(p, v)]
      /\ dict_wf pixels' /\ In (p, v) pixels').
Proof.
  intros Hwf pixels'. subst pixels'. cbn [Snowflake.set_pixel Snowflake.set_pixels
    Snowflake.pixels]. split.
  - intros [v0 Hin]. rewrite (dict_set_stored _ _ v v0 Hwf Hin).
    split; [reflexivity | split; [| split]].
    + unfold with_value. apply length_map.
    + unfold dict_wf. now rewrite with_value_idents.
    + unfold with_value. apply in_map_iff. exists (p, v0). split; [| exact Hin].
      cbn. unfold is_. now rewrite Nat.eqb_refl.
  - intros Hfresh. rewrite dict_set_fresh by (apply key_match_fresh, Hfresh).
    split; [reflexivity | split].
    + apply dict_wf_snoc; assumption.
    + apply in_or_app. right. now left.
Qed.

Lemma set_pixel_overwrites_or_appends_witness :
  dict_wf (Snowflake.pixels two_pixel_snowflake)
  /\ (exists v0, In (pixel_ahead, v0) (Snowflake.pixels two_pixel_snowflake))
  /\ Snowflake.pixels (Snowflake.set_pixel two_pixel_snowflake pixel_ahead 0)
     = with_value (Snowflake.pixels two_pixel_snowflake) pixel_ahead 0
  /\ ~ In (ident (click_key 2))
         (map (fun item => ident (fst item)) (Snowflake.pixels two_pixel_snowflake))
  /\ Snowflake.pixels (Snowflake.set_pixel two_pixel_snowflake (click_key 2) 1)
     = Snowflake.pixels two_pixel_snowflake ++ [(click_key 2, 1%Z)].
Proof.
  pose proof two_pixel_snowflake_wf as Hwf.
  assert (Hstored : exists v0, In (pixel_ahead, v0) (Snowflake.pixels two_pixel_snowflake))
    by (exists 1%Z; cbn; tauto).
  assert (Hfresh : ~ In (ident (click_key 2))
                     (map (fun item => ident (fst item))
                        (Snowflake.pixels two_pixel_snowflake)))
    by (cbn; intuition discriminate).
  split; [exact Hwf | split; [exact Hstored |]].
  split; [| split; [exact Hfresh |]].
  - exact (proj1 (proj1 (set_pixel_overwrites_or_appends two_pixel_snowflake
                           pixel_ahead 0 Hwf) Hstored)).
  - exact (proj1 (proj2 (set_pixel_overwrites_or_appends two_pixel_snowflake
                           (click_key 2) 1 Hwf) Hfresh)).
Defined.

(** ** How much [draw_pixels] draws *)

Lemma length_concat_const {A B : Type} (f : A -> list B) (l : list A) (n : nat) :
  (forall a, In a l -> length (f a) = n) ->
  length (concat (map f l)) = (length l * n)%nat.
Proof.
  induction l as [| a l IH]; intros Hlen; [reflexivity |].
  cbn. rewrite length_app, (Hlen a (or_introl eq_refl)), IH; [reflexivity |].
  intros b Hb. apply Hlen. now right.
Qed.

(** X10: in either mode [draw_pixels] draws one dot per stored pixel and
    slot, each of radius [LINE_THICKNESS]: [len(pixels) * size] dots for a
    positive size, and none for a negative size, for which [range(size)] is
    empty. *)
Theorem draw_pixels_count (s : Snowflake.t) :
  Snowflake.size s <> 0%Z ->
  exists calls,
    Snowflake.draw_pixels s = Ok calls
    /\ len calls = (len (Snowflake.pixels s) * Z.max 0 (Snowflake.size s))%Z
    /\ Forall (fun call => dot_radius call = LINE_THICKNESS) calls.
Proof.
  intros Hn. destruct (draw_pixels_concat s Hn) as [copies [Hcopies Hdraw]].
  assert (Hform : forall item,
             copies item
             = map (fun i =>
                      circle (Snowflake.pixel_color (snd item))
                        (to_rectangular_at
                           (Snowflake.real_theta (Snowflake.mirror s)
                              (RADIANS_IN_CIRCLE / IZR (Snowflake.size s)) i
                              (PolarPoint.theta (fields (fst item)))
                              (Snowflake._current_angle s))
                           (PolarPoint.radius (fields (fst item))) (Snowflake.origin s))
                        LINE_THICKNESS)
                 (range (Snowflake.size s))).
  { intros item. pose proof (Hcopies item) as H.
    rewrite draw_pixel_ok in H by exact Hn. now injection H. }
  eexists. split; [exact Hdraw | split].
  - unfold len.
    rewrite (length_concat_const copies _ (Z.to_nat (Snowflake.size s))).
    + lia.
    + intros item _. now rewrite Hform, length_map, range_length.
  - apply Forall_concat, Forall_map, Forall_forall. intros item _.
    rewrite Hform. apply Forall_map, Forall_forall. intros i _. reflexivity.
Qed.

Lemma draw_pixels_count_witness :
  Snowflake.size two_pixel_snowflake <> 0%Z
  /\ exists calls,
       Snowflake.draw_pixels two_pixel_snowflake = Ok calls
       /\ len calls
          = (len (Snowflake.pixels two_pixel_snowflake)
             * Z.max 0 (Snowflake.size two_pixel_snowflake))%Z
       /\ Forall (fun call => dot_radius call = LINE_THICKNESS) calls.
Proof.
  assert (Hn : Snowflake.size two_pixel_snowflake <> 0%Z)
    by (cbn; unfold DEFAULT_SIZE; lia).
  split; [exact Hn | exact (draw_pixels_count two_pixel_snowflake Hn)].
Defined.

(** ** Symmetries of the replicated figure *)

Lemma real_theta_parity (arc : R) (i j : Z) (theta current : R) :
  (i mod 2 = j mod 2)%Z ->
  Snowflake.real_theta true arc i theta current
  - Snowflake.real_theta true arc j theta current
  = (IZR i - IZR j) * arc.
Proof.
  intros Hpar. unfold Snowflake.real_theta. rewrite Hpar.
  destruct (j mod 2 =? 0)%Z; ring.
Qed.

Lemma real_theta_opposite_parity (arc : R) (i j : Z) (theta current : R) :
  (i mod 2 <> j mod 2)%Z ->
  (Snowflake.real_theta true arc i theta current - current)
  + (Snowflake.real_theta true arc j theta current - current)
  = (IZR i + IZR j) * arc.
Proof.
  intros Hpar. unfold Snowflake.real_theta.
  pose proof (Z.mod_pos_bound i 2 ltac:(lia)).
  pose proof (Z.mod_pos_bound j 2 ltac:(lia)).
  destruct (Z.eqb_spec (i mod 2) 0), (Z.eqb_spec (j mod 2) 0); try ring; lia.
Qed.

(** A slot index reduced modulo [N] names the same direction. *)
Lemma slot_mod_turns (N j : Z) :
  (0 < N)%Z ->
  IZR (j mod N) * (RADIANS_IN_CIRCLE / IZR N)
  = IZR j * (RADIANS_IN_CIRCLE / IZR N) - IZR (j / N) * RADIANS_IN_CIRCLE.
Proof.
  intros HN. assert (HN' : IZR N <> 0) by (apply not_0_IZR; lia).
  rewrite (Z.div_mod j N) at 2 by lia. rewrite plus_IZR, mult_IZR. field. exact HN'.
Qed.

Lemma mod_even_parity (N j : Z) :
  (0 < N)%Z -> Z.even N = true -> ((j mod N) mod 2 = j mod 2)%Z.
Proof.
  intros HN Heven. apply Z.even_spec in Heven as [k Hk].
  rewrite (Z.div_mod j N) at 2 by lia.
  replace (N * (j / N) + j mod N)%Z with (j mod N + (k * (j / N)) * 2)%Z by lia.
  now rewrite Z.mod_add by lia.
Qed.

(** X11: the slots form a symmetric figure.  In clone mode the slot after
    slot [i] (wrapping from the last to the first) is slot [i] turned by
    one slice width.  In mirror mode with an even size, the slot two
    further is slot [i] turned by two slice widths, and slot
    [(1 - i) mod N] is the mirror image of slot [i] about the direction at
    half a slice width.  All angles are without the rotation offset and
    modulo a full turn. *)
Theorem replication_symmetry (N i : Z) (theta current : R) :
  (0 < N)%Z ->
  let arc := RADIANS_IN_CIRCLE / IZR N in
  same_angle (unrotated false N ((i + 1) mod N) theta current)
             (unrotated false N i theta current + arc)
  /\ (Z.even N = true ->
      same_angle (unrotated true N ((i + 2) mod N) theta current)
                 (unrotated true N i theta current + 2 * arc)
      /\ same_angle (unrotated true N ((1 - i) mod N) theta current
                     - arc / 2)
                    (arc / 2 - unrotated true N i theta current)).
Proof.
  intros HN arc. split.
  - exists (- ((i + 1) / N))%Z. unfold unrotated. fold arc.
    rewrite !real_theta_clone. unfold arc. rewrite slot_mod_turns by exact HN.
    rewrite opp_IZR, plus_IZR. ring.
  - intros Heven. split.
    + exists (- ((i + 2) / N))%Z. unfold unrotated. fold arc.
      pose proof (real_theta_parity arc ((i + 2) mod N) i theta current) as Hpar.
      rewrite mod_even_parity in Hpar by assumption.
      specialize (Hpar ltac:(rewrite <- Zplus_mod_idemp_r, Z.mod_same by lia;
                             f_equal; lia)).
      pose proof (slot_mod_turns N (i + 2) HN) as Hturn. fold arc in Hturn.
      rewrite plus_IZR in Hturn. rewrite opp_IZR. lra.
    + exists (- ((1 - i) / N))%Z. unfold unrotated. fold arc.
      pose proof (real_theta_opposite_parity arc ((1 - i) mod N) i theta current) as Hpar.
      rewrite mod_even_parity in Hpar by assumption.
      assert (Hodd : ((1 - i) mod 2 <> i mod 2)%Z).
      { rewrite Zminus_mod.
        pose proof (Z.mod_pos_bound i 2 ltac:(lia)) as Hb.
        assert (Hcase : (i mod 2 = 0 \/ i mod 2 = 1)%Z) by lia.
        destruct Hcase as [-> | ->]; cbn; lia. }
      specialize (Hpar Hodd).
      pose proof (slot_mod_turns N (1 - i) HN) as Hturn. fold arc in Hturn.
      rewrite minus_IZR in Hturn. rewrite opp_IZR. lra.
Qed.

Lemma replication_symmetry_witness :
  (0 < 6)%Z
  /\ same_angle (unrotated false 6 ((5 + 1) mod 6) (1 / 4) 1)
                (unrotated false 6 5 (1 / 4) 1 + RADIANS_IN_CIRCLE / IZR 6)
  /\ (Z.even 6 = true ->
      same_angle (unrotated true 6 ((5 + 2) mod 6) (1 / 4) 1)
                 (unrotated true 6 5 (1 / 4) 1 + 2 * (RADIANS_IN_CIRCLE / IZR 6))
      /\ same_angle (unrotated true 6 ((1 - 5) mod 6) (1 / 4) 1
                     - RADIANS_IN_CIRCLE / IZR 6 / 2)
                    (RADIANS_IN_CIRCLE / IZR 6 / 2 - unrotated true 6 5 (1 / 4) 1)).
Proof.
  split; [lia |].
  exact (replication_symmetry 6 5 (1 / 4) 1 ltac:(lia)).
Defined.

(** ** What the main loop keeps true *)

Lemma settled_init : settled Main.init.
Proof.
  constructor; cbn; try reflexivity.
  - exact invariant_init.
  - pose proof RADIANS_IN_CIRCLE_pos. lra.
  - constructor.
Qed.

Lemma tab_key_settled (st st' : Main.state) :
  settled st -> Main.tab_key st = Ok st' -> settled st'.
Proof.
  intros [Hinv Hc Ho Ha Hpix] Htab.
  destruct (tab_key_invariant st Hinv) as [st'' [Htab' Hinv']].
  assert (st'' = st') by congruence. subst st''.
  pose proof Hinv as [Hsr Hso Hr Hsize Hsizes Hids Hwf].
  destruct (tab_key_next_size st Hsize) as [n [Hn Heq]].
  rewrite Heq, clear_pixels_outside_filter in Htab;
    [| cbn; rewrite Hr; exact SNOWFLAKE_RADIUS_nonzero
     | apply valid_size_nonzero, Hn | exact Hwf].
  cbn [bind] in Htab. injection Htab as <-.
  constructor; cbn; try assumption.
  rewrite Forall_forall in *. intros item Hin.
  apply filter_In in Hin as [Hin Hkeep]. apply insideb_true in Hkeep.
  destruct (Hpix item Hin) as [_ Hbounds]. split; [exact Hkeep | exact Hbounds].
Qed.

Lemma handle_event_settled (st st' : Main.state) (ev : Main.event) :
  settled st -> Main.handle_event st ev = Ok st' -> settled st'.
Proof.
  intros Hset Hev.
  destruct (handle_event_invariant st ev (settled_invariant _ Hset)) as [st'' [Hev' Hinv']].
  assert (st'' = st') by congruence. subst st''.
  destruct ev as [| k |]; cbn in Hev.
  - injection Hev as <-. destruct Hset. constructor; assumption.
  - destruct k; cbn in Hev;
      try (injection Hev as <-; destruct Hset; constructor; cbn;
           solve [assumption | constructor]).
    eapply tab_key_settled; eassumption.
  - injection Hev as <-. exact Hset.
Qed.

Lemma events_settled (evs : list Main.event) (st st' : Main.state) :
  settled st -> for_each Main.handle_event evs st = Ok st' -> settled st'.
Proof.
  revert st. induction evs as [| ev evs IH]; intros st Hset Hrun; cbn in Hrun.
  - now injection Hrun as <-.
  - destruct (Main.handle_event st ev) as [st1 | e] eqn:Hev; [| discriminate].
    cbn in Hrun. eapply IH; [| exact Hrun]. eapply handle_event_settled; eassumption.
Qed.

(** Scaling an accepted radius into the snowflake and back gives it back. *)
Lemma rescale_back (r : R) :
  r * (SNOWFLAKE_RADIUS / SNOWFLAKE_SEGMENT_RADIUS) * SNOWFLAKE_SEGMENT_RADIUS
  / SNOWFLAKE_RADIUS = r.
Proof. unfold SNOWFLAKE_RADIUS, SNOWFLAKE_SEGMENT_RADIUS. field. Qed.

(** What the cursor logic stores for an accepted sample. *)
Lemma cursor_logic_accepted (st : Main.state) (inp : Main.input) :
  invariant st ->
  Main.MB1 inp = true ->
  let p := PolarPoint.from_rectangular
             (fst (Main.mouse_pos inp), (SCREEN_HEIGHT - snd (Main.mouse_pos inp))%Z)
             (SnowflakeSegment.origin (Main.segment st)) in
  SnowflakeSegment.contains_point (Main.segment st) p = Ok true ->
  Main.cursor_logic st inp
  = Ok (Main.mk (Main.running st) (Main.rotate st) (Main.segment st)
          (Snowflake.set_pixels (Main.snowflake st)
             (Snowflake.pixels (Main.snowflake st)
              ++ [(alloc (Main.next_ident st)
                     (PolarPoint.new
                        (PolarPoint.radius p
                         * (SNOWFLAKE_RADIUS / SNOWFLAKE_SEGMENT_RADIUS))
                        (PolarPoint.theta p)), 1%Z)]))
          (S (Main.next_ident st))).
Proof.
  intros Hinv Hmb p Hin. pose proof Hinv as [Hsr Hso Hr Hsize Hsizes Hpix Hwf].
  unfold Main.cursor_logic. rewrite Hmb.
  destruct (Main.mouse_pos inp) as [mouse_x mouse_y].
  cbn [Main.segment Main.snowflake Main.next_ident Main.running Main.rotate fields ident
       fst snd] in *.
  fold p. rewrite Hin. cbn [bind].
  rewrite fdiv_ok by (rewrite Hsr; exact SNOWFLAKE_SEGMENT_RADIUS_nonzero). cbn [bind].
  rewrite Hr, Hsr. do 2 f_equal. unfold Snowflake.set_pixel. f_equal.
  apply dict_set_fresh, key_match_fresh.
  eapply fresh_ident; [exact Hpix | reflexivity].
Qed.

Lemma cursor_logic_rejected (st : Main.state) (inp : Main.input) :
  Main.MB1 inp = true ->
  SnowflakeSegment.contains_point (Main.segment st)
    (PolarPoint.from_rectangular
       (fst (Main.mouse_pos inp), (SCREEN_HEIGHT - snd (Main.mouse_pos inp))%Z)
       (SnowflakeSegment.origin (Main.segment st))) = Ok false ->
  Main.cursor_logic st inp
  = Ok (Main.mk (Main.running st) (Main.rotate st) (Main.segment st) (Main.snowflake st)
          (S (Main.next_ident st))).
Proof.
  intros Hmb Hout. unfold Main.cursor_logic. rewrite Hmb.
  destruct (Main.mouse_pos inp) as [mouse_x mouse_y].
  cbn [Main.segment Main.snowflake Main.next_ident Main.running Main.rotate fields ident
       fst snd] in *.
  rewrite Hout. reflexivity.
Qed.

Lemma polar_point_eta (p : PolarPoint.t) :
  PolarPoint.new (PolarPoint.radius p) (PolarPoint.theta p) = p.
Proof. now destruct p. Qed.

(** A sample the segment accepts, once scaled into the snowflake, fits. *)
Lemma accepted_sample_fits (s : Snowflake.t) (seg : SnowflakeSegment.t)
    (n : nat) (x y : Z) :
  Snowflake.radius s = SNOWFLAKE_RADIUS ->
  SnowflakeSegment.radius seg = SNOWFLAKE_SEGMENT_RADIUS ->
  SnowflakeSegment.size seg <> 0%Z ->
  let p := PolarPoint.from_rectangular (x, y) (SnowflakeSegment.origin seg) in
  SnowflakeSegment.contains_point seg p = Ok true ->
  fits s seg
    (alloc n (PolarPoint.new
                (PolarPoint.radius p * (SNOWFLAKE_RADIUS / SNOWFLAKE_SEGMENT_RADIUS))
                (PolarPoint.theta p))).
Proof.
  intros Hr Hsr Hn p Hin. unfold fits, inside, Snowflake.rescaled.
  cbn [fields PolarPoint.radius PolarPoint.theta].
  rewrite fdiv_ok by (rewrite Hr; exact SNOWFLAKE_RADIUS_nonzero). cbn [bind].
  rewrite Hr, Hsr, rescale_back, polar_point_eta.
  split; [exact Hin |].
  apply contains_point_true_iff in Hin; [| exact Hn]. rewrite Hsr in Hin.
  split; [apply from_rectangular_theta_range |].
  unfold SNOWFLAKE_RADIUS, SNOWFLAKE_SEGMENT_RADIUS in *. lra.
Qed.

Lemma cursor_logic_settled (st st' : Main.state) (inp : Main.input) :
  settled st -> Main.cursor_logic st inp = Ok st' -> settled st'.
Proof.
  intros Hset Hcur. pose proof Hset as [Hinv Hc Ho Ha Hpix].
  destruct (cursor_logic_invariant st inp Hinv) as [st'' [Hcur' Hinv']].
  assert (st'' = st') by congruence. subst st''. clear Hcur'.
  pose proof Hinv as [Hsr Hso Hr Hsize Hsizes Hids Hwf].
  destruct (Main.MB1 inp) eqn:Hmb.
  - assert (Hn : SnowflakeSegment.size (Main.segment st) <> 0%Z)
      by (rewrite Hsizes; apply valid_size_nonzero, Hsize).
    destruct (contains_point_total (Main.segment st)
                (PolarPoint.from_rectangular
                   (fst (Main.mouse_pos inp),
                    (SCREEN_HEIGHT - snd (Main.mouse_pos inp))%Z)
                   (SnowflakeSegment.origin (Main.segment st))) Hn) as [[|] Hb].
    + rewrite (cursor_logic_accepted st inp Hinv Hmb Hb) in Hcur.
      injection Hcur as <-.
      constructor; [exact Hinv' | exact Hc | exact Ho | exact Ha |].
      cbn [Main.snowflake Main.segment Snowflake.pixels Snowflake.set_pixels].
      apply Forall_app. split; [exact Hpix |].
      constructor; [| constructor]. cbn [fst].
      apply (accepted_sample_fits (Main.snowflake st) (Main.segment st)); assumption.
    + rewrite (cursor_logic_rejected st inp Hmb Hb) in Hcur.
      injection Hcur as <-.
      constructor; [exact Hinv' | exact Hc | exact Ho | exact Ha | exact Hpix].
  - unfold Main.cursor_logic in Hcur. rewrite Hmb in Hcur. now injection Hcur as <-.
Qed.

Lemma output_logic_settled (st : Main.state) : settled st -> settled (Main.output_logic st).
Proof.
  intros Hset. pose proof (output_logic_invariant st (settled_invariant _ Hset)) as Hinv.
  unfold Main.output_logic in *. destruct (Main.rotate st); [| exact Hset].
  destruct Hset. constructor; cbn; try assumption. apply rotate_in_circle.
Qed.

Lemma frame_settled (st st' : Main.state) (inp : Main.input) :
  settled st -> Main.frame st inp = Ok st' -> settled st'.
Proof.
  intros Hset Hframe. unfold Main.frame in Hframe.
  destruct (for_each Main.handle_event (Main.events inp) st) as [st1 | e] eqn:Hev;
    [| discriminate].
  cbn [bind] in Hframe.
  destruct (Main.cursor_logic st1 inp) as [st2 | e] eqn:Hcur; [| discriminate].
  cbn [bind] in Hframe. injection Hframe as <-.
  apply output_logic_settled. eapply cursor_logic_settled; [| exact Hcur].
  eapply events_settled; eassumption.
Qed.

Lemma reachable_settled (st : Main.state) : Main.reachable st -> settled st.
Proof.
  induction 1 as [| st inp st' _ IH _ Hframe]; [exact settled_init |].
  eapply frame_settled; eassumption.
Qed.

Lemma reachable_after_held_click : Main.reachable (after_frame Main.init held_click).
Proof. apply reachable_after_frame; [apply Main.reachable_init | reflexivity]. Defined.

(** X12: the main loop never changes the geometry it set up: in every
    state it reaches, segment and snowflake have the same size, which is
    one of [VALID_SIZES], the radii, origins and the bisector are those
    constructed, and the rotation angle is in [0, 2 pi). *)
Theorem reachable_geometry (st : Main.state) :
  Main.reachable st ->
  SnowflakeSegment.size (Main.segment st) = Snowflake.size (Main.snowflake st)
  /\ In (Snowflake.size (Main.snowflake st)) VALID_SIZES
  /\ SnowflakeSegment.radius (Main.segment st) = SNOWFLAKE_SEGMENT_RADIUS
  /\ SnowflakeSegment.origin (Main.segment st) = SNOWFLAKE_SEGMENT_POSITION
  /\ SnowflakeSegment.centered_angle (Main.segment st) = 0
  /\ Snowflake.radius (Main.snowflake st) = SNOWFLAKE_RADIUS
  /\ Snowflake.origin (Main.snowflake st) = SNOWFLAKE_POSITION
  /\ 0 <= Snowflake._current_angle (Main.snowflake st) < RADIANS_IN_CIRCLE.
Proof.
  intros Hreach. destruct (reachable_settled st Hreach) as [Hinv Hc Ho Ha _].
  destruct Hinv as [Hsr Hso Hr Hsize Hsizes _ _]. tauto.
Qed.

Lemma reachable_geometry_witness :
  Main.reachable (after_frame Main.init held_click)
  /\ In (Snowflake.size (Main.snowflake (after_frame Main.init held_click))) VALID_SIZES
  /\ 0 <= Snowflake._current_angle (Main.snowflake (after_frame Main.init held_click))
     < RADIANS_IN_CIRCLE.
Proof.
  split; [exact reachable_after_held_click |].
  pose proof (reachable_geometry _ reachable_after_held_click) as H. tauto.
Defined.

(** X13: in every state the main loop reaches, the stored pixels are a
    dict, and every stored pixel, rescaled as [clear_pixels_outside] does,
    passes [contains_point] of the current segment, has its angle in
    [0, 2 pi) and its radius within the snowflake's radius. *)
Theorem reachable_pixels_fit (st : Main.state) :
  Main.reachable st ->
  dict_wf (Snowflake.pixels (Main.snowflake st))
  /\ Forall (fun item => fits (Main.snowflake st) (Main.segment st) (fst item))
            (Snowflake.pixels (Main.snowflake st)).
Proof.
  intros Hreach. destruct (reachable_settled st Hreach) as [Hinv _ _ _ Hpix].
  split; [exact (inv_wf _ Hinv) | exact Hpix].
Qed.

Lemma reachable_pixels_fit_witness :
  Main.reachable (after_frame Main.init held_click)
  /\ dict_wf (Snowflake.pixels (Main.snowflake (after_frame Main.init held_click)))
  /\ Forall (fun item =>
               fits (Main.snowflake (after_frame Main.init held_click))
                 (Main.segment (after_frame Main.init held_click)) (fst item))
            (Snowflake.pixels (Main.snowflake (after_frame Main.init held_click))).
Proof.
  split; [exact reachable_after_held_click |].
  exact (reachable_pixels_fit _ reachable_after_held_click).
Defined.

(** ** Dots and the regions cleared for them *)

Lemma int_between (a b : Z) (v : R) :
  IZR a <= v <= IZR b -> (a <= int v <= b)%Z.
Proof.
  intros [Ha Hb]. unfold int. destruct (Rle_dec 0 v) as [Hpos | Hneg].
  - destruct (base_Int_part v) as [Hlo Hhi]. split.
    + apply Z.lt_succ_r, lt_IZR. rewrite succ_IZR. lra.
    + apply le_IZR. lra.
  - destruct (base_Int_part (- v)) as [Hlo Hhi]. split.
    + apply le_IZR. rewrite opp_IZR. lra.
    + apply Z.lt_succ_r, lt_IZR. rewrite succ_IZR, opp_IZR. lra.
Qed.

(** A point at distance at most [rho] from the polar origin lands within
    [rho] pixels of the origin's column and of the row the y flip gives
    the origin. *)
Lemma to_rectangular_at_within (theta r : R) (O : Z * Z) (rho : Z) :
  0 <= r <= IZR rho ->
  let xy := to_rectangular_at theta r O in
  (fst O - rho <= fst xy <= fst O + rho)%Z
  /\ (SCREEN_HEIGHT - snd O - rho <= snd xy <= SCREEN_HEIGHT - snd O + rho)%Z.
Proof.
  intros Hr. destruct O as [ox oy].
  unfold to_rectangular_at, to_rectangular, CARTESIAN_ORIGIN, CARTESIAN_SIGNS.
  cbn [fst snd]. pose proof (COS_bound theta) as [Hc1 Hc2].
  pose proof (SIN_bound theta) as [Hs1 Hs2].
  split; apply int_between; rewrite ?plus_IZR, ?minus_IZR; split; nra.
Qed.

Lemma draw_pixels_in_box (s : Snowflake.t) (rho : Z) :
  Snowflake.size s <> 0%Z ->
  Snowflake.radius s = IZR rho ->
  snd (Snowflake.origin s) = (SCREEN_HEIGHT - snd (Snowflake.origin s))%Z ->
  Forall (fun item => 0 <= PolarPoint.radius (fields (fst item)) <= Snowflake.radius s)
         (Snowflake.pixels s) ->
  exists calls,
    Snowflake.draw_pixels s = Ok calls
    /\ Forall (dot_in_box (Snowflake.get_region s false)) calls.
Proof.
  intros Hn Hrho Hmid Hpix.
  destruct (draw_pixels_concat s Hn) as [copies [Hcopies Hdraw]].
  eexists. split; [exact Hdraw |].
  apply Forall_concat, Forall_map. rewrite Forall_forall in *.
  intros item Hin. pose proof (Hcopies item) as Hone.
  rewrite draw_pixel_ok in Hone by exact Hn. injection Hone as <-.
  apply Forall_map, Forall_forall. intros i _.
  specialize (Hpix item Hin). rewrite Hrho in Hpix.
  pose proof (to_rectangular_at_within
                (Snowflake.real_theta (Snowflake.mirror s)
                   (RADIANS_IN_CIRCLE / IZR (Snowflake.size s)) i
                   (PolarPoint.theta (fields (fst item))) (Snowflake._current_angle s))
                (PolarPoint.radius (fields (fst item))) (Snowflake.origin s) rho Hpix)
    as [Hx Hy].
  unfold dot_in_box, dot_centre, dot_radius.
  destruct (to_rectangular_at _ _ _) as [x y]. cbn [fst snd] in Hx, Hy.
  rewrite <- Hmid in Hy.
  unfold in_box, Snowflake.get_region. destruct (Snowflake.origin s) as [ox oy].
  cbn [fst snd left top width height] in *. rewrite Hrho.
  unfold LINE_THICKNESS in *.
  destruct Hx as [Hx1 Hx2], Hy as [Hy1 Hy2].
  apply IZR_le in Hx1, Hx2, Hy1, Hy2.
  rewrite ?plus_IZR, ?minus_IZR in *. repeat split; lra.
Qed.

(** X3: wrapping the rotation angle is invisible.  In a state the main
    loop reaches, after [rotate(d)] by at most a full turn either way,
    [draw_pixels] draws what it would draw with the unwrapped angle
    [_current_angle + d]: as many dots, in the same order, of the same
    colour and radius, each centred within one pixel of its counterpart
    (over the reals the centres coincide, see [draw_pixels_unwrapped]; on
    doubles the two angles differ by rounding, which [int] can turn into a
    pixel). *)
Theorem rotate_wrap_invisible (st : Main.state) (d : R) :
  Main.reachable st ->
  Rabs d <= RADIANS_IN_CIRCLE ->
  exists wrapped unwrapped,
    Snowflake.draw_pixels (Snowflake.rotate (Main.snowflake st) d) = Ok wrapped
    /\ Snowflake.draw_pixels
         (Snowflake.set_current_angle (Main.snowflake st)
            (Snowflake._current_angle (Main.snowflake st) + d)) = Ok unwrapped
    /\ Forall2 same_dot_within_one wrapped unwrapped.
Proof.
  intros Hreach _.
  destruct (reachable_invariant st Hreach) as [_ _ _ Hsize _ _ _].
  destruct (draw_pixels_concat (Snowflake.rotate (Main.snowflake st) d)
              (valid_size_nonzero _ Hsize)) as [calls [_ Hdraw]].
  do 2 eexists. split; [exact Hdraw |].
  split; [rewrite <- draw_pixels_unwrapped; exact Hdraw | apply same_dots_refl].
Qed.

Lemma rotate_wrap_invisible_witness :
  Main.reachable (after_frame Main.init held_click)
  /\ Rabs (- RADIANS_IN_CIRCLE) <= RADIANS_IN_CIRCLE
  /\ exists wrapped unwrapped,
       Snowflake.draw_pixels
         (Snowflake.rotate (Main.snowflake (after_frame Main.init held_click))
            (- RADIANS_IN_CIRCLE)) = Ok wrapped
       /\ Snowflake.draw_pixels
            (Snowflake.set_current_angle
               (Main.snowflake (after_frame Main.init held_click))
               (Snowflake._current_angle
                  (Main.snowflake (after_frame Main.init held_click))
                + - RADIANS_IN_CIRCLE)) = Ok unwrapped
       /\ Forall2 same_dot_within_one wrapped unwrapped.
Proof.
  assert (Hd : Rabs (- RADIANS_IN_CIRCLE) <= RADIANS_IN_CIRCLE).
  { rewrite Rabs_Ropp, Rabs_right; [lra |]. pose proof RADIANS_IN_CIRCLE_pos. lra. }
  split; [exact reachable_after_held_click | split; [exact Hd |]].
  exact (rotate_wrap_invisible _ (- RADIANS_IN_CIRCLE) reachable_after_held_click Hd).
Defined.

(** X14: in every state the main loop reaches, each dot [draw_pixels]
    draws, taken with its radius, lies within the box
    [get_region(update=False)] that is cleared before the snowflake is
    redrawn. *)
Theorem reachable_dots_in_cleared_box (st : Main.state) :
  Main.reachable st ->
  exists calls,
    Snowflake.draw_pixels (Main.snowflake st) = Ok calls
    /\ Forall (dot_in_box (Snowflake.get_region (Main.snowflake st) false)) calls.
Proof.
  intros Hreach. destruct (reachable_settled st Hreach) as [Hinv _ Ho _ Hpix].
  destruct Hinv as [_ _ Hr Hsize _ _ _].
  apply (draw_pixels_in_box (Main.snowflake st) 150).
  - apply valid_size_nonzero, Hsize.
  - rewrite Hr. reflexivity.
  - rewrite Ho. reflexivity.
  - eapply Forall_impl; [| exact Hpix]. intros item [_ [_ Hrad]]. exact Hrad.
Qed.

Lemma reachable_dots_in_cleared_box_witness :
  Main.reachable (after_frame Main.init held_click)
  /\ exists calls,
       Snowflake.draw_pixels (Main.snowflake (after_frame Main.init held_click)) = Ok calls
       /\ Forall (dot_in_box
                    (Snowflake.get_region
                       (Main.snowflake (after_frame Main.init held_click)) false))
                 calls.
Proof.
  split; [exact reachable_after_held_click |].
  exact (reachable_dots_in_cleared_box _ reachable_after_held_click).
Defined.

(** ** Where a click is shown *)

Lemma for_each_snoc {A S : Type} (body : S -> A -> result S) (xs : list A) (x : A)
    (acc : S) :
  for_each body (xs ++ [x]) acc = (acc' <- for_each body xs acc ;; body acc' x).
Proof.
  revert acc. induction xs as [| y xs IH]; intros acc; cbn.
  - now destruct (body acc x).
  - destruct (body acc y) as [acc1 | e]; [| reflexivity]. cbn. apply IH.
Qed.

Lemma held_click_accepted (st : Main.state) :
  invariant st ->
  SnowflakeSegment.contains_point (Main.segment st)
    (PolarPoint.from_rectangular
       (fst (Main.mouse_pos held_click),
        (SCREEN_HEIGHT - snd (Main.mouse_pos held_click))%Z)
       (SnowflakeSegment.origin (Main.segment st))) = Ok true.
Proof.
  intros [Hsr Hso Hr Hsize Hsizes Hpix Hwf]. cbn [held_click Main.mouse_pos fst snd].
  rewrite Hso, from_rectangular_right_of_apex.
  apply contains_point_true_iff.
  - rewrite Hsizes. apply valid_size_nonzero, Hsize.
  - cbn. rewrite Hsr, Hsizes. unfold SNOWFLAKE_SEGMENT_RADIUS.
    split; [right | lra].
    apply Rlt_le, Rdiv_lt_0_compat; [apply PI_RGT_0 |].
    apply IZR_lt, valid_size_positive, Hsize.
Defined.

(** Over the reals the last dot is at the pointer position itself. *)
Lemma click_drawn_exactly (st : Main.state) (inp : Main.input) :
  Main.reachable st ->
  Main.MB1 inp = true ->
  SnowflakeSegment.contains_point (Main.segment st)
    (PolarPoint.from_rectangular
       (fst (Main.mouse_pos inp), (SCREEN_HEIGHT - snd (Main.mouse_pos inp))%Z)
       (SnowflakeSegment.origin (Main.segment st))) = Ok true ->
  exists st' calls,
    Main.cursor_logic st inp = Ok st'
    /\ Snowflake.draw_segment (Main.snowflake st') (Main.segment st')
       = Ok (calls ++ [circle SNOWFLAKE_COLOR (Main.mouse_pos inp) LINE_THICKNESS]).
Proof.
  intros Hreach Hmb Hin. pose proof (reachable_invariant st Hreach) as Hinv.
  pose proof Hinv as [Hsr Hso Hr Hsize Hsizes Hpix Hwf].
  eexists. rewrite (cursor_logic_accepted st inp Hinv Hmb Hin).
  assert (Hones : Forall (fun item => snd item = 1%Z)
                    (Snowflake.pixels (Main.snowflake st))).
  { eapply Forall_impl; [| exact Hpix]. now intros item [_ Hv]. }
  destruct (draw_segment_colors (Main.snowflake st) (Main.segment st)
              ltac:(rewrite Hr; exact SNOWFLAKE_RADIUS_nonzero) Hones)
    as [calls [Hcalls _]].
  exists calls. split; [reflexivity |].
  unfold Snowflake.draw_segment in *.
  cbn [Main.snowflake Main.segment Snowflake.pixels Snowflake.set_pixels Snowflake.radius].
  rewrite for_each_snoc, Hcalls. cbn [bind fields PolarPoint.radius PolarPoint.theta].
  rewrite fdiv_ok by (rewrite Hr; exact SNOWFLAKE_RADIUS_nonzero). cbn [bind].
  rewrite Hr, Hsr, rescale_back, pixel_color_one.
  destruct (Main.mouse_pos inp) as [mouse_x mouse_y]. cbn [fst snd].
  pose proof (round_trip_exact mouse_x (SCREEN_HEIGHT - mouse_y)
                (SnowflakeSegment.origin (Main.segment st))) as Hround.
  unfold round_trip in Hround. rewrite Hround.
  replace (SCREEN_HEIGHT - (SCREEN_HEIGHT - mouse_y))%Z with mouse_y by lia.
  reflexivity.
Qed.

(** X15: a click the segment accepts is shown where it was made: after the
    cursor logic has stored it, the last dot [draw_segment] draws is a dot
    of [SNOWFLAKE_COLOR] and radius [LINE_THICKNESS] centred within one
    pixel of the pointer position.  Scaling the radius into the snowflake
    and back, the polar conversion and the two flips of y cancel out. *)
Theorem click_drawn_where_clicked (st : Main.state) (inp : Main.input) :
  Main.reachable st ->
  Main.MB1 inp = true ->
  SnowflakeSegment.contains_point (Main.segment st)
    (PolarPoint.from_rectangular
       (fst (Main.mouse_pos inp), (SCREEN_HEIGHT - snd (Main.mouse_pos inp))%Z)
       (SnowflakeSegment.origin (Main.segment st))) = Ok true ->
  exists st' calls dot,
    Main.cursor_logic st inp = Ok st'
    /\ Snowflake.draw_segment (Main.snowflake st') (Main.segment st')
       = Ok (calls ++ [dot])
    /\ color_of dot = SNOWFLAKE_COLOR
    /\ dot_radius dot = LINE_THICKNESS
    /\ within_one (dot_centre dot) (Main.mouse_pos inp).
Proof.
  intros Hreach Hmb Hin.
  destruct (click_drawn_exactly st inp Hreach Hmb Hin) as [st' [calls [Hst' Hdraw]]].
  exists st', calls, (circle SNOWFLAKE_COLOR (Main.mouse_pos inp) LINE_THICKNESS).
  split; [exact Hst' | split; [exact Hdraw |]].
  split; [reflexivity | split; [reflexivity | apply within_one_refl]].
Qed.

Lemma click_drawn_where_clicked_witness :
  Main.reachable Main.init
  /\ Main.MB1 held_click = true
  /\ exists st' calls dot,
       Main.cursor_logic Main.init held_click = Ok st'
       /\ Snowflake.draw_segment (Main.snowflake st') (Main.segment st')
          = Ok (calls ++ [dot])
       /\ color_of dot = SNOWFLAKE_COLOR
       /\ dot_radius dot = LINE_THICKNESS
       /\ within_one (dot_centre dot) (Main.mouse_pos held_click).
Proof.
  split; [exact Main.reachable_init | split; [reflexivity |]].
  exact (click_drawn_where_clicked Main.init held_click Main.reachable_init eq_refl
           (held_click_accepted Main.init invariant_init)).
Defined.

(** ** Frames and keys *)

Lemma handle_event_running (st st' : Main.state) (ev : Main.event) :
  Main.handle_event st ev = Ok st' ->
  Main.running st' = Main.running st && negb (is_quit ev).
Proof.
  destruct ev as [| k |]; cbn.
  - intros [= <-]. cbn. now rewrite andb_false_r.
  - destruct k; cbn; try (intros [= <-]; cbn; now rewrite andb_true_r).
    unfold Main.tab_key. destruct (index _ _) as [i |]; [| discriminate]. cbn [bind].
    destruct (Snowflake.clear_pixels_outside _ _) as [s' |]; [| discriminate].
    cbn [bind]. intros [= <-]. cbn. now rewrite andb_true_r.
  - intros [= <-]. now rewrite andb_true_r.
Qed.

Lemma events_running (evs : list Main.event) (st st' : Main.state) :
  for_each Main.handle_event evs st = Ok st' ->
  Main.running st' = Main.running st && negb (existsb is_quit evs).
Proof.
  revert st. induction evs as [| ev evs IH]; intros st; cbn.
  - intros [= <-]. now rewrite andb_true_r.
  - destruct (Main.handle_event st ev) as [st1 |] eqn:Hev; [| discriminate].
    cbn [bind]. intros Hrun. rewrite (IH _ Hrun), (handle_event_running _ _ _ Hev).
    rewrite negb_orb. now rewrite andb_assoc.
Qed.

Lemma cursor_logic_running (st st' : Main.state) (inp : Main.input) :
  Main.cursor_logic st inp = Ok st' -> Main.running st' = Main.running st.
Proof.
  unfold Main.cursor_logic. destruct (Main.MB1 inp); [| now intros [= <-]].
  destruct (Main.mouse_pos inp) as [mx my]. cbn.
  destruct (SnowflakeSegment.contains_point _ _) as [[|] |]; cbn; try discriminate.
  - destruct (fdiv _ _) as [ratio |]; cbn; [| discriminate]. now intros [= <-].
  - now intros [= <-].
Qed.

Lemma output_logic_running (st : Main.state) :
  Main.running (Main.output_logic st) = Main.running st.
Proof. unfold Main.output_logic. now destruct (Main.rotate st). Qed.

(** X16: the quit event, and nothing else, ends the loop: a frame leaves
    [running] true exactly when it was true and the frame's events hold no
    [QUIT]; once it is false no further frame is run. *)
Theorem quit_ends_the_loop (st st' : Main.state) (inp : Main.input) :
  Main.frame st inp = Ok st' ->
  Main.running st' = Main.running st && negb (existsb is_quit (Main.events inp)).
Proof.
  unfold Main.frame. intros Hframe.
  destruct (for_each Main.handle_event (Main.events inp) st) as [st1 |] eqn:Hev;
    [| discriminate].
  cbn [bind] in Hframe.
  destruct (Main.cursor_logic st1 inp) as [st2 |] eqn:Hcur; [| discriminate].
  cbn [bind] in Hframe. injection Hframe as <-.
  now rewrite output_logic_running, (cursor_logic_running _ _ _ Hcur),
    (events_running _ _ _ Hev).
Qed.

Lemma quit_ends_the_loop_witness :
  Main.frame Main.init
    (Main.mkInput [Main.KEYDOWN Main.K_m; Main.QUIT; Main.KEYDOWN Main.K_r] false
       (0%Z, 0%Z))
  = Ok (after_frame Main.init
          (Main.mkInput [Main.KEYDOWN Main.K_m; Main.QUIT; Main.KEYDOWN Main.K_r] false
             (0%Z, 0%Z)))
  /\ Main.running
       (after_frame Main.init
          (Main.mkInput [Main.KEYDOWN Main.K_m; Main.QUIT; Main.KEYDOWN Main.K_r] false
             (0%Z, 0%Z)))
     = false.
Proof.
  assert (Hframe :
            Main.frame Main.init
              (Main.mkInput [Main.KEYDOWN Main.K_m; Main.QUIT; Main.KEYDOWN Main.K_r]
                 false (0%Z, 0%Z))
            = Ok (after_frame Main.init
                    (Main.mkInput [Main.KEYDOWN Main.K_m; Main.QUIT; Main.KEYDOWN Main.K_r]
                       false (0%Z, 0%Z)))) by reflexivity.
  split; [exact Hframe |].
  exact (quit_ends_the_loop _ _ _ Hframe).
Defined.





(** X18: M and R are toggles that touch their flag only: after M the
    snowflake differs in [mirror] alone, after R the state differs in
    [rotate] alone, and pressing either key a second time gives back the
    state before the first press. *)
Theorem toggle_keys (st : Main.state) :
  (exists st1,
      Main.handle_event st (Main.KEYDOWN Main.K_m) = Ok st1
      /\ Main.handle_event st1 (Main.KEYDOWN Main.K_m) = Ok st
      /\ Main.snowflake st1
         = Snowflake.set_mirror (Main.snowflake st)
             (negb (Snowflake.mirror (Main.snowflake st)))
      /\ Main.segment st1 = Main.segment st
      /\ Main.rotate st1 = Main.rotate st
      /\ Main.running st1 = Main.running st)
  /\ (exists st1,
         Main.handle_event st (Main.KEYDOWN Main.K_r) = Ok st1
         /\ Main.handle_event st1 (Main.KEYDOWN Main.K_r) = Ok st
         /\ Main.rotate st1 = negb (Main.rotate st)
         /\ Main.snowflake st1 = Main.snowflake st
         /\ Main.segment st1 = Main.segment st
         /\ Main.running st1 = Main.running st).
Proof.
  destruct st as [running rotate segment snowflake next].
  split; eexists; (split; [reflexivity |]); cbn.
  - destruct snowflake. unfold Snowflake.set_mirror. cbn.
    rewrite negb_involutive. auto.
  - rewrite negb_involutive. auto.
Qed.

Lemma frame_idle (st : Main.state) (pos : Z * Z) :
  Main.frame st (idle pos) = Ok (Main.output_logic st).
Proof. reflexivity. Qed.

Lemma output_logic_rotating (st : Main.state) :
  Main.rotate st = true ->
  Main.output_logic st
  = Main.mk (Main.running st) (Main.rotate st) (Main.segment st)
      (Snowflake.rotate (Main.snowflake st) ROTATION_SPEED) (Main.next_ident st).
Proof. intros Hrot. unfold Main.output_logic. now rewrite Hrot. Qed.

Lemma run_idle_rotating (n : nat) (st : Main.state) (pos : Z * Z) :
  Main.rotate st = true ->
  run (repeat (idle pos) (S n)) st
  = Ok (Main.mk (Main.running st) (Main.rotate st) (Main.segment st)
          (Snowflake.rotate (Main.snowflake st) (INR (S n) * ROTATION_SPEED))
          (Main.next_ident st)).
Proof.
  intros Hrot. unfold run. revert st Hrot.
  induction n as [| n IH]; intros st Hrot.
  - cbn [repeat for_each]. rewrite frame_idle. cbn [bind].
    rewrite output_logic_rotating by exact Hrot. do 3 f_equal. cbn. ring.
  - change (repeat (idle pos) (S (S n))) with (idle pos :: repeat (idle pos) (S n)).
    cbn [for_each]. rewrite frame_idle. cbn [bind].
    rewrite output_logic_rotating by exact Hrot.
    rewrite IH by exact Hrot.
    cbn [Main.running Main.rotate Main.segment Main.snowflake Main.next_ident].
    rewrite rotate_rotate. do 3 f_equal. rewrite (S_INR (S n)). ring.
Qed.

Lemma run_idle_still (n : nat) (st : Main.state) (pos : Z * Z) :
  Main.rotate st = false -> run (repeat (idle pos) n) st = Ok st.
Proof.
  intros Hrot. unfold run. induction n as [| n IH]; [reflexivity |].
  cbn [repeat for_each]. rewrite frame_idle. cbn [bind].
  unfold Main.output_logic. rewrite Hrot. exact IH.
Qed.

(** X19: frames in which nothing is pressed compose.  With rotation on,
    from an angle within a full turn, [n >= 1] such frames (up to a million
    of them) change nothing but the rotation angle, which stays within a
    full turn and is, up to whole turns and to a millionth of a radian, the
    angle it was plus [n * ROTATION_SPEED]; with rotation off they leave the
    state untouched.  The bounds keep the rounding that doubles accumulate
    frame after frame well below the tolerance. *)
Theorem idle_frames_compose (n : nat) (st : Main.state) (pos : Z * Z) :
  (Main.rotate st = true ->
   0 <= Snowflake._current_angle (Main.snowflake st) <= RADIANS_IN_CIRCLE ->
   (Z.of_nat (S n) <= 1000000)%Z ->
   exists angle,
     run (repeat (idle pos) (S n)) st
     = Ok (Main.mk (Main.running st) (Main.rotate st) (Main.segment st)
             (Snowflake.set_current_angle (Main.snowflake st) angle)
             (Main.next_ident st))
     /\ 0 <= angle <= RADIANS_IN_CIRCLE
     /\ near_angle (1 / 1000000) angle
          (Snowflake._current_angle (Main.snowflake st) + INR (S n) * ROTATION_SPEED))
  /\ (Main.rotate st = false -> run (repeat (idle pos) n) st = Ok st).
Proof.
  split; [| apply run_idle_still].
  intros Hrot _ _. rewrite run_idle_rotating by exact Hrot.
  eexists. split; [reflexivity |].
  pose proof (fmod_range (Snowflake._current_angle (Main.snowflake st)
                          + INR (S n) * ROTATION_SPEED)
                RADIANS_IN_CIRCLE RADIANS_IN_CIRCLE_pos) as Hrange.
  split; [lra |].
  destruct (same_angle_fmod (Snowflake._current_angle (Main.snowflake st)
                             + INR (S n) * ROTATION_SPEED)) as [k Hk].
  exists k. rewrite Hk, Rminus_diag, Rabs_R0. lra.
Qed.

Lemma idle_frames_compose_witness :
  Main.rotate Main.init = true
  /\ 0 <= Snowflake._current_angle (Main.snowflake Main.init) <= RADIANS_IN_CIRCLE
  /\ (Z.of_nat 3 <= 1000000)%Z
  /\ exists angle,
       run (repeat (idle (0%Z, 0%Z)) 3) Main.init
       = Ok (Main.mk (Main.running Main.init) (Main.rotate Main.init)
               (Main.segment Main.init)
               (Snowflake.set_current_angle (Main.snowflake Main.init) angle)
               (Main.next_ident Main.init))
       /\ 0 <= angle <= RADIANS_IN_CIRCLE
       /\ near_angle (1 / 1000000) angle
            (Snowflake._current_angle (Main.snowflake Main.init) + INR 3 * ROTATION_SPEED).
Proof.
  assert (Hcur : 0 <= Snowflake._current_angle (Main.snowflake Main.init)
                 <= RADIANS_IN_CIRCLE).
  { cbn. pose proof RADIANS_IN_CIRCLE_pos. lra. }
  assert (Hn : (Z.of_nat 3 <= 1000000)%Z) by lia.
  split; [reflexivity | split; [exact Hcur | split; [exact Hn |]]].
  exact (proj1 (idle_frames_compose 2 Main.init (0%Z, 0%Z)) eq_refl Hcur Hn).
Defined.

(** ** The Tab cycle *)

Lemma next_size_valid (n : Z) : In n VALID_SIZES -> In (next_size n) VALID_SIZES.
Proof.
  unfold VALID_SIZES. cbn [In].
  intros [H | [H | [H | [H | [H | [H | []]]]]]]; subst n; cbn; tauto.
Qed.

(** Tab, on a state written with its size and pixels apart. *)
Lemma tab_step (st : Main.state) (n : Z) (l : dict) :
  In n VALID_SIZES ->
  Snowflake.radius (Main.snowflake st) <> 0 ->
  dict_wf l ->
  Main.tab_key (tab_state st n l)
  = Ok (tab_state st (next_size n) (filter (fits_size st (next_size n)) l)).
Proof.
  intros Hin Hr Hwf.
  assert (Heq : Main.tab_key (tab_state st n l)
                = (snowflake'' <-
                     Snowflake.clear_pixels_outside
                       (Snowflake.set_size
                          (Snowflake.set_pixels (Snowflake.set_size (Main.snowflake st) n) l)
                          (next_size n))
                       (SnowflakeSegment.set_size (Main.segment st) (next_size n)) ;;
                   Ok (Main.mk (Main.running st) (Main.rotate st)
                         (SnowflakeSegment.set_size (Main.segment st) (next_size n))
                         snowflake'' (Main.next_ident st)))).
  { unfold VALID_SIZES in Hin. cbn [In] in Hin.
    destruct Hin as [H | [H | [H | [H | [H | [H | []]]]]]]; subst n; reflexivity. }
  rewrite Heq, clear_pixels_outside_filter;
    [reflexivity | exact Hr | apply valid_size_nonzero, next_size_valid, Hin | exact Hwf].
Qed.

Lemma last_cons {A : Type} (a d : A) (l : list A) : last (a :: l) d = last l a.
Proof.
  revert a d. induction l as [| b l IH]; intros a d; [reflexivity |].
  change (last (a :: b :: l) d) with (last (b :: l) d).
  now rewrite (IH b d), (IH b a).
Qed.

Lemma tabs_run (st : Main.state) (k : nat) (n : Z) (l : dict) :
  In n VALID_SIZES ->
  Snowflake.radius (Main.snowflake st) <> 0 ->
  dict_wf l ->
  for_each Main.handle_event (repeat (Main.KEYDOWN Main.K_TAB) k) (tab_state st n l)
  = Ok (tab_state st (last (tab_sizes k n) n) (prune st (tab_sizes k n) l)).
Proof.
  intros Hin Hr. revert n l Hin.
  induction k as [| k IH]; intros n l Hin Hwf; [reflexivity |].
  cbn [repeat for_each tab_sizes].
  change (Main.handle_event (tab_state st n l) (Main.KEYDOWN Main.K_TAB))
    with (Main.tab_key (tab_state st n l)).
  rewrite tab_step by assumption. cbn [bind].
  rewrite IH; [| apply next_size_valid, Hin | apply dict_wf_filter, Hwf].
  now rewrite last_cons.
Qed.

Lemma tab_state_self (st : Main.state) :
  SnowflakeSegment.size (Main.segment st) = Snowflake.size (Main.snowflake st) ->
  tab_state st (Snowflake.size (Main.snowflake st))
    (Snowflake.pixels (Main.snowflake st)) = st.
Proof.
  destruct st as [running rotate [sr sn so sx sy sc] snowflake next].
  destruct snowflake. cbn. intros ->. reflexivity.
Qed.

Lemma filter_filter_andb {A : Type} (f g : A -> bool) (l : list A) :
  filter g (filter f l) = filter (fun a => f a && g a) l.
Proof.
  induction l as [| a l IH]; [reflexivity |]. cbn.
  destruct (f a); cbn; [destruct (g a) |]; now rewrite IH.
Qed.

Lemma prune_forallb (st : Main.state) (sizes : list Z) (l : dict) :
  prune st sizes l = filter (fun item => forallb (fun m => fits_size st m item) sizes) l.
Proof.
  unfold prune. revert l. induction sizes as [| m sizes IH]; intros l; cbn.
  - symmetry. now apply filter_all.
  - rewrite IH, filter_filter_andb. reflexivity.
Qed.

Lemma fits_size_monotone (st : Main.state) (m : Z) (item : instance * Z) :
  (0 < m <= 12)%Z -> fits_size st 12 item = true -> fits_size st m item = true.
Proof.
  unfold fits_size. rewrite !insideb_true. intros Hm Hin.
  eapply inside_monotone; [exact Hin | cbn; lia | reflexivity].
Qed.

(** Pruning for sizes up to 12, one of which is 12, is pruning for 12. *)
Lemma prune_through_twelve (st : Main.state) (sizes : list Z) (l : dict) :
  In 12%Z sizes ->
  (forall m, In m sizes -> (0 < m <= 12)%Z) ->
  prune st sizes l = filter (fits_size st 12) l.
Proof.
  intros Hin Hall. rewrite prune_forallb. apply filter_ext. intros item.
  destruct (fits_size st 12 item) eqn:H12.
  - apply forallb_forall. intros m Hm. apply fits_size_monotone; auto.
  - apply not_true_iff_false. intros Hforall.
    rewrite forallb_forall in Hforall. specialize (Hforall 12%Z Hin). congruence.
Qed.

(** X20: Tab steps through [VALID_SIZES] in order, from 12 back to 2,
    keeping segment and snowflake at the same size; six presses bring the
    size back to where it was, and what they leave of the stored pixels is
    exactly what fits the narrowest segment, the one of 12 slices. *)
Theorem tab_cycle (st : Main.state) :
  Main.reachable st ->
  (exists st1,
      Main.handle_event st (Main.KEYDOWN Main.K_TAB) = Ok st1
      /\ Snowflake.size (Main.snowflake st1) = next_size (Snowflake.size (Main.snowflake st))
      /\ SnowflakeSegment.size (Main.segment st1)
         = next_size (Snowflake.size (Main.snowflake st)))
  /\ (exists st6,
         for_each Main.handle_event (repeat (Main.KEYDOWN Main.K_TAB) 6) st = Ok st6
         /\ Snowflake.size (Main.snowflake st6) = Snowflake.size (Main.snowflake st)
         /\ Main.segment st6 = Main.segment st
         /\ Snowflake.pixels (Main.snowflake st6)
            = filter (fits_size st 12) (Snowflake.pixels (Main.snowflake st))).
Proof.
  intros Hreach. destruct (reachable_invariant st Hreach) as [Hsr Hso Hr Hsize Hsizes Hpix Hwf].
  assert (Hr' : Snowflake.radius (Main.snowflake st) <> 0)
    by (rewrite Hr; exact SNOWFLAKE_RADIUS_nonzero).
  pose proof (tab_state_self st Hsizes) as Hself.
  split.
  - pose proof (tabs_run st 1 _ _ Hsize Hr' Hwf) as Hrun.
    rewrite Hself in Hrun. cbn [repeat for_each] in Hrun.
    destruct (Main.handle_event st (Main.KEYDOWN Main.K_TAB)) as [st1 |]; [| discriminate].
    cbn [bind] in Hrun. injection Hrun as ->.
    eexists. split; [reflexivity |]. cbn. auto.
  - pose proof (tabs_run st 6 _ _ Hsize Hr' Hwf) as Hrun.
    rewrite Hself in Hrun. eexists. split; [exact Hrun |].
    assert (Hcycle : last (tab_sizes 6 (Snowflake.size (Main.snowflake st)))
                       (Snowflake.size (Main.snowflake st))
                     = Snowflake.size (Main.snowflake st)
                     /\ In 12%Z (tab_sizes 6 (Snowflake.size (Main.snowflake st)))
                     /\ forall m, In m (tab_sizes 6 (Snowflake.size (Main.snowflake st))) ->
                                  (0 < m <= 12)%Z).
    { unfold VALID_SIZES in Hsize. cbn [In] in Hsize.
      destruct Hsize as [H | [H | [H | [H | [H | [H | []]]]]]]; rewrite <- H;
        (split; [reflexivity | split; [cbn; tauto | cbn; intros m Hm; lia]]). }
    destruct Hcycle as [Hlast [H12 Hall]].
    rewrite Hlast, (prune_through_twelve st _ _ H12 Hall).
    cbn [tab_state Main.snowflake Main.segment Snowflake.size Snowflake.set_pixels
         Snowflake.set_size Snowflake.pixels].
    split; [reflexivity | split; [| reflexivity]].
    rewrite <- Hsizes. now destruct (Main.segment st).
Qed.

Lemma tab_cycle_witness :
  Main.reachable (after_frame Main.init held_click)
  /\ exists st6,
       for_each Main.handle_event (repeat (Main.KEYDOWN Main.K_TAB) 6)
         (after_frame Main.init held_click) = Ok st6
       /\ Snowflake.size (Main.snowflake st6)
          = Snowflake.size (Main.snowflake (after_frame Main.init held_click))
       /\ Main.segment st6 = Main.segment (after_frame Main.init held_click)
       /\ Snowflake.pixels (Main.snowflake st6)
          = filter (fits_size (after_frame Main.init held_click) 12)
              (Snowflake.pixels (Main.snowflake (after_frame Main.init held_click))).
Proof.
  split; [exact reachable_after_held_click |].
  exact (proj2 (tab_cycle _ reachable_after_held_click)).
Defined.

(** ** The segment's region and outline *)

Lemma index_missing (l : list Z) (x : Z) : ~ In x l -> index l x = Raise ValueError.
Proof.
  induction l as [| y l IH]; intros Hnot; [reflexivity |].
  cbn. destruct (Z.eqb_spec y x) as [-> | Hneq].
  - exfalso. apply Hnot. now left.
  - rewrite IH; [reflexivity |]. intros Hin. apply Hnot. now right.
Qed.

Lemma region_size_valid (n : Z) :
  In n VALID_SIZES ->
  exists i,
    index VALID_SIZES n = Ok i
    /\ Z.min n (getitem VALID_SIZES ((i - 1) mod len VALID_SIZES)) = region_size n
    /\ (2 <= region_size n <= n)%Z.
Proof.
  unfold VALID_SIZES at 1. cbn [In].
  intros [H | [H | [H | [H | [H | [H | []]]]]]]; subst n;
    eexists; (split; [reflexivity | split; [reflexivity | cbn; lia]]).
Qed.

Lemma segment_get_region_valid (seg : SnowflakeSegment.t) (update : bool) :
  In (SnowflakeSegment.size seg) VALID_SIZES ->
  let h := sin (PI / IZR (region_size (SnowflakeSegment.size seg)))
           * SnowflakeSegment.radius seg in
  let x := IZR (fst (SnowflakeSegment.origin seg)) in
  let y := IZR (snd (SnowflakeSegment.origin seg)) in
  SnowflakeSegment.get_region seg update
  = Ok (if update
        then mkRect (x - 4) (y - h - 4) (x + SnowflakeSegment.radius seg + 8) (y + h + 8)
        else mkRect (x - 4) (y - h - 4) (SnowflakeSegment.radius seg + 8) (h * 2 + 8)).
Proof.
  intros Hin h x y. destruct (region_size_valid _ Hin) as [i [Hi [Hmin Hrange]]].
  unfold SnowflakeSegment.get_region. subst h x y.
  destruct (SnowflakeSegment.origin seg) as [ox oy]. cbn [fst snd].
  rewrite Hi. cbn [bind]. rewrite Hmin.
  assert (Hnz : IZR (region_size (SnowflakeSegment.size seg)) <> 0)
    by (apply not_0_IZR; lia).
  rewrite fdiv_ok by exact Hnz. cbn [bind].
  replace (RADIANS_IN_CIRCLE / IZR (region_size (SnowflakeSegment.size seg)) / 2)
    with (PI / IZR (region_size (SnowflakeSegment.size seg)))
    by (unfold RADIANS_IN_CIRCLE; field; exact Hnz).
  unfold LINE_THICKNESS. destruct update; do 2 f_equal; ring.
Qed.

Lemma half_arc_sin_le (n m : Z) :
  (2 <= m <= n)%Z -> 0 <= sin (PI / IZR n) <= sin (PI / IZR m).
Proof.
  intros Hmn. pose proof PI_RGT_0 as Hpi.
  assert (Hm : 2 <= IZR m) by (apply IZR_le; lia).
  assert (Hn : IZR m <= IZR n) by (apply IZR_le; lia).
  assert (Hnm : PI / IZR n <= PI / IZR m).
  { unfold Rdiv. apply Rmult_le_compat_l; [lra |]. apply Rinv_le_contravar; lra. }
  assert (Hm2 : PI / IZR m <= PI / 2).
  { unfold Rdiv. apply Rmult_le_compat_l; [lra |]. apply Rinv_le_contravar; lra. }
  assert (Hn0 : 0 < PI / IZR n) by (apply Rdiv_lt_0_compat; lra).
  split.
  - apply sin_ge_0; lra.
  - apply sin_incr_1; lra.
Qed.

(** X21: [SnowflakeSegment.get_region] raises [ValueError] for a size that
    is not in [VALID_SIZES] and returns for every size that is.  The box
    it returns for drawing starts [LINE_THICKNESS] left of the apex, is
    [radius + 2 * LINE_THICKNESS] wide and reaches
    [radius * sin(pi / m) + LINE_THICKNESS] above and below the apex, where
    [m] is the size before the current one in [VALID_SIZES] (the current
    one for size 2): at least as far as the boundary lines of the current
    size reach. *)
Theorem segment_get_region_behaviour (seg : SnowflakeSegment.t) (update : bool) :
  (~ In (SnowflakeSegment.size seg) VALID_SIZES ->
   SnowflakeSegment.get_region seg update = Raise ValueError)
  /\ (In (SnowflakeSegment.size seg) VALID_SIZES ->
      let h := sin (PI / IZR (region_size (SnowflakeSegment.size seg)))
               * SnowflakeSegment.radius seg in
      let x := IZR (fst (SnowflakeSegment.origin seg)) in
      let y := IZR (snd (SnowflakeSegment.origin seg)) in
      SnowflakeSegment.get_region seg false
      = Ok (mkRect (x - 4) (y - h - 4) (SnowflakeSegment.radius seg + 8) (h * 2 + 8))
      /\ (exists r, SnowflakeSegment.get_region seg true = Ok r)
      /\ (0 <= SnowflakeSegment.radius seg ->
          0 <= sin (PI / IZR (SnowflakeSegment.size seg)) * SnowflakeSegment.radius seg
            <= h)).
Proof.
  split.
  - intros Hnot. unfold SnowflakeSegment.get_region.
    destruct (SnowflakeSegment.origin seg) as [ox oy].
    now rewrite index_missing.
  - intros Hin h x y. split; [| split].
    + exact (segment_get_region_valid seg false Hin).
    + eexists. exact (segment_get_region_valid seg true Hin).
    + intros Hr. destruct (region_size_valid _ Hin) as [_ [_ [_ Hrange]]].
      pose proof (half_arc_sin_le _ _ Hrange) as [H0 Hle].
      subst h. split; [apply Rmult_le_pos; assumption |].
      apply Rmult_le_compat_r; assumption.
Qed.

Lemma segment_get_region_behaviour_witness :
  In (SnowflakeSegment.size main_segment) VALID_SIZES
  /\ SnowflakeSegment.get_region main_segment false
     = Ok (mkRect (IZR 210 - 4)
             (IZR 325 - sin (PI / IZR (region_size 6)) * SNOWFLAKE_SEGMENT_RADIUS - 4)
             (SNOWFLAKE_SEGMENT_RADIUS + 8)
             (sin (PI / IZR (region_size 6)) * SNOWFLAKE_SEGMENT_RADIUS * 2 + 8))
  /\ ~ In (SnowflakeSegment.size (SnowflakeSegment.set_size main_segment 5)) VALID_SIZES
  /\ SnowflakeSegment.get_region (SnowflakeSegment.set_size main_segment 5) false
     = Raise ValueError.
Proof.
  assert (Hin : In (SnowflakeSegment.size main_segment) VALID_SIZES) by (cbn; tauto).
  assert (Hnot : ~ In (SnowflakeSegment.size (SnowflakeSegment.set_size main_segment 5))
                   VALID_SIZES) by (cbn; lia).
  split; [exact Hin | split; [| split; [exact Hnot |]]].
  - exact (proj1 (proj2 (segment_get_region_behaviour main_segment false) Hin)).
  - exact (proj1 (segment_get_region_behaviour
                    (SnowflakeSegment.set_size main_segment 5) false) Hnot).
Defined.

Lemma int_floor_bounds (v : R) : 0 <= v -> v - 1 < IZR (int v) <= v.
Proof.
  intros Hv. unfold int. destruct (Rle_dec 0 v) as [_ | Hn]; [| contradiction].
  destruct (base_Int_part v). lra.
Qed.

(** Where a point of the segment [main] builds lands when it is no further
    from the apex than the segment's radius, not behind the apex, and no
    further above or below it than [h]. *)
Lemma segment_point_in_box (a r h : R) :
  0 <= r <= SNOWFLAKE_SEGMENT_RADIUS ->
  0 <= cos a ->
  - h <= r * sin a <= h ->
  h <= SNOWFLAKE_SEGMENT_RADIUS ->
  let e := to_rectangular_at a r SNOWFLAKE_SEGMENT_POSITION in
  in_box (mkRect (IZR 210 - 4) (IZR 325 - h - 4) (SNOWFLAKE_SEGMENT_RADIUS + 8) (h * 2 + 8))
         (IZR (fst e)) (IZR (snd e)).
Proof.
  intros Hr Hcos Hsin Hh.
  unfold to_rectangular_at, to_rectangular, SNOWFLAKE_SEGMENT_POSITION,
    CARTESIAN_ORIGIN, CARTESIAN_SIGNS, SCREEN_HEIGHT, SNOWFLAKE_SEGMENT_RADIUS in *.
  cbn [fst snd]. unfold in_box. cbn [left top width height].
  pose proof (COS_bound a) as [_ Hc1]. split.
  - assert (Hx : (210 <= int (1 * (210 + r * cos a) + 0) <= 410)%Z)
      by (apply int_between; nra).
    destruct Hx as [Hx1 Hx2]. apply IZR_le in Hx1, Hx2. lra.
  - pose proof (int_floor_bounds (-1 * (325 + r * sin a) + 650) ltac:(lra)). lra.
Qed.

Lemma boundary_endpoint_in_box (a h : R) :
  0 <= cos a ->
  - h <= SNOWFLAKE_SEGMENT_RADIUS * sin a <= h ->
  h <= SNOWFLAKE_SEGMENT_RADIUS ->
  let e := to_rectangular_at a SNOWFLAKE_SEGMENT_RADIUS SNOWFLAKE_SEGMENT_POSITION in
  in_box (mkRect (IZR 210 - 4) (IZR 325 - h - 4) (SNOWFLAKE_SEGMENT_RADIUS + 8) (h * 2 + 8))
         (IZR (fst e)) (IZR (snd e)).
Proof.
  intros Hcos Hsin Hh. apply segment_point_in_box; try assumption.
  unfold SNOWFLAKE_SEGMENT_RADIUS. lra.
Qed.

(** X22: in every state the main loop reaches, [draw_outline] of the
    segment completes with four draw calls, the last two being the boundary
    lines, both starting at the apex; the apex and the end of each line lie
    within the box [get_region(update=False)] that is cleared before the
    segment is redrawn. *)
Theorem segment_outline_in_cleared_box (st : Main.state) :
  Main.reachable st ->
  exists c1 c2 e1 e2 box,
    SnowflakeSegment.draw_outline (Main.segment st)
    = Ok [c1; c2;
          outline_line ALTERNATE_SNOWFLAKE_COLOR SNOWFLAKE_SEGMENT_POSITION e1
            LINE_THICKNESS;
          outline_line ALTERNATE_SNOWFLAKE_COLOR SNOWFLAKE_SEGMENT_POSITION e2
            LINE_THICKNESS]
    /\ SnowflakeSegment.get_region (Main.segment st) false = Ok box
    /\ in_box box (IZR (fst SNOWFLAKE_SEGMENT_POSITION)) (IZR (snd SNOWFLAKE_SEGMENT_POSITION))
    /\ in_box box (IZR (fst e1)) (IZR (snd e1))
    /\ in_box box (IZR (fst e2)) (IZR (snd e2)).
Proof.
  intros Hreach. destruct (reachable_settled st Hreach) as [Hinv Hc _ _ _].
  destruct Hinv as [Hsr Hso _ Hsize Hsizes _ _]. rewrite <- Hsizes in Hsize.
  set (n := SnowflakeSegment.size (Main.segment st)) in *.
  destruct (region_size_valid n Hsize) as [_ [_ [_ Hrange]]].
  pose proof (half_arc_sin_le _ _ Hrange) as [Hs0 Hsle].
  assert (Hn : IZR n <> 0) by (apply not_0_IZR; lia).
  assert (Hhalf : RADIANS_IN_CIRCLE / IZR n / 2 = PI / IZR n)
    by (unfold RADIANS_IN_CIRCLE; field; exact Hn).
  set (h := sin (PI / IZR (region_size n)) * SNOWFLAKE_SEGMENT_RADIUS).
  assert (Hh : 0 <= h <= SNOWFLAKE_SEGMENT_RADIUS).
  { pose proof (SIN_bound (PI / IZR (region_size n))) as [_ H1].
    unfold h, SNOWFLAKE_SEGMENT_RADIUS. split; nra. }
  assert (Hcos : 0 <= cos (PI / IZR n)).
  { pose proof PI_RGT_0 as Hpi. assert (2 <= IZR n) by (apply IZR_le; lia).
    assert (0 < PI / IZR n) by (apply Rdiv_lt_0_compat; lra).
    assert (PI / IZR n <= PI / 2).
    { unfold Rdiv. apply Rmult_le_compat_l; [lra |]. apply Rinv_le_contravar; lra. }
    apply cos_ge_0; lra. }
  unfold SnowflakeSegment.draw_outline. fold n.
  rewrite fdiv_ok by exact Hn. cbn [bind]. rewrite Hhalf, Hc, Hso, Hsr.
  do 5 eexists. split; [reflexivity |].
  pose proof (segment_get_region_valid (Main.segment st) false Hsize) as Hbox.
  cbn zeta in Hbox. fold n in Hbox. rewrite Hso, Hsr in Hbox. fold h in Hbox.
  cbn [fst snd SNOWFLAKE_SEGMENT_POSITION] in Hbox.
  split; [exact Hbox |].
  split; [| split].
  - unfold in_box, SNOWFLAKE_SEGMENT_POSITION, SNOWFLAKE_SEGMENT_RADIUS in *.
    cbn [fst snd left top width height]. lra.
  - apply boundary_endpoint_in_box; [| | apply Hh].
    + replace (0 - PI / IZR n) with (- (PI / IZR n)) by ring. now rewrite cos_neg.
    + replace (0 - PI / IZR n) with (- (PI / IZR n)) by ring. rewrite sin_neg.
      unfold h, SNOWFLAKE_SEGMENT_RADIUS in *. nra.
  - apply boundary_endpoint_in_box; [| | apply Hh].
    + now rewrite Rplus_0_l.
    + rewrite Rplus_0_l. unfold h, SNOWFLAKE_SEGMENT_RADIUS in *. nra.
Qed.

Lemma segment_outline_in_cleared_box_witness :
  Main.reachable Main.init
  /\ exists c1 c2 e1 e2 box,
       SnowflakeSegment.draw_outline (Main.segment Main.init)
       = Ok [c1; c2;
             outline_line ALTERNATE_SNOWFLAKE_COLOR SNOWFLAKE_SEGMENT_POSITION e1
               LINE_THICKNESS;
             outline_line ALTERNATE_SNOWFLAKE_COLOR SNOWFLAKE_SEGMENT_POSITION e2
               LINE_THICKNESS]
       /\ SnowflakeSegment.get_region (Main.segment Main.init) false = Ok box
       /\ in_box box (IZR (fst SNOWFLAKE_SEGMENT_POSITION))
            (IZR (snd SNOWFLAKE_SEGMENT_POSITION))
       /\ in_box box (IZR (fst e1)) (IZR (snd e1))
       /\ in_box box (IZR (fst e2)) (IZR (snd e2)).
Proof.
  split; [exact Main.reachable_init |].
  exact (segment_outline_in_cleared_box Main.init Main.reachable_init).
Defined.

Lemma for_each_append_map {A B : Type} (g : A -> B) (l : list A) (acc : list B) :
  for_each (fun (surface : list B) (x : A) => Ok (surface ++ [g x])) l acc
  = Ok (acc ++ map g l).
Proof.
  revert acc. induction l as [| x l IH]; intros acc; cbn.
  - now rewrite app_nil_r.
  - rewrite IH, <- app_assoc. reflexivity.
Qed.

(** [draw_segment] draws one dot per stored pixel, in order. *)
Lemma draw_segment_map (s : Snowflake.t) (seg : SnowflakeSegment.t) :
  Snowflake.radius s <> 0 ->
  Snowflake.draw_segment s seg
  = Ok (map (fun item : instance * Z =>
               circle (Snowflake.pixel_color (snd item))
                 (to_rectangular_at (PolarPoint.theta (fields (fst item)))
                    (PolarPoint.radius (fields (fst item)) * SnowflakeSegment.radius seg
                     / Snowflake.radius s)
                    (SnowflakeSegment.origin seg))
                 LINE_THICKNESS)
            (Snowflake.pixels s)).
Proof.
  intros Hr. unfold Snowflake.draw_segment.
  match goal with
  | |- _ = Ok (map ?g _) =>
      pose proof (for_each_append_map g (Snowflake.pixels s) []) as Hmap
  end.
  cbn [app] in Hmap. rewrite <- Hmap.
  apply for_each_ext. intros surface [pixel value] _.
  now rewrite fdiv_ok by exact Hr.
Qed.

(** The sine and cosine of an angle the segment of [n] slices accepts. *)
Lemma accepted_angle_bounds (n : Z) (theta : R) :
  (2 <= n)%Z ->
  0 <= theta < RADIANS_IN_CIRCLE ->
  RADIANS_IN_CIRCLE - PI / IZR n <= theta \/ theta <= PI / IZR n ->
  0 <= cos theta /\ - sin (PI / IZR n) <= sin theta <= sin (PI / IZR n).
Proof.
  intros Hn Htheta Harc. pose proof PI_RGT_0 as Hpi.
  assert (Hn2 : 2 <= IZR n) by (apply IZR_le; lia).
  assert (Hh0 : 0 < PI / IZR n) by (apply Rdiv_lt_0_compat; lra).
  assert (Hh2 : PI / IZR n <= PI / 2).
  { unfold Rdiv. apply Rmult_le_compat_l; [lra |]. apply Rinv_le_contravar; lra. }
  assert (Hs0 : 0 <= sin (PI / IZR n)) by (apply sin_ge_0; lra).
  unfold RADIANS_IN_CIRCLE in *. destruct Harc as [Hhi | Hlo].
  - pose proof (cos_whole_turns theta 1) as Hcos.
    pose proof (sin_whole_turns theta 1) as Hsin.
    unfold RADIANS_IN_CIRCLE in Hcos, Hsin. rewrite Rmult_1_l in Hcos, Hsin.
    rewrite <- Hcos, <- Hsin. set (phi := theta - 2 * PI) in *.
    assert (Hphi : - (PI / IZR n) <= phi <= 0) by (unfold phi; lra).
    split; [apply cos_ge_0; lra |].
    split.
    + rewrite <- sin_neg. apply sin_incr_1; lra.
    + apply Rle_trans with 0; [| exact Hs0].
      rewrite <- (Ropp_involutive phi), sin_neg.
      assert (0 <= sin (- phi)) by (apply sin_ge_0; lra). lra.
  - split; [apply cos_ge_0; lra |].
    split.
    + assert (0 <= sin theta) by (apply sin_ge_0; lra). lra.
    + apply sin_incr_1; lra.
Qed.

(** X23: in every state the main loop reaches, [draw_segment] draws one
    dot per stored pixel, and the centre of each lies within the box
    [get_region(update=False)] of the segment, which is cleared before the
    segment is redrawn. *)
Theorem segment_dots_in_cleared_box (st : Main.state) :
  Main.reachable st ->
  exists calls box,
    Snowflake.draw_segment (Main.snowflake st) (Main.segment st) = Ok calls
    /\ length calls = length (Snowflake.pixels (Main.snowflake st))
    /\ SnowflakeSegment.get_region (Main.segment st) false = Ok box
    /\ Forall (centre_in_box box) calls.
Proof.
  intros Hreach. destruct (reachable_settled st Hreach) as [Hinv Hc _ _ Hfit].
  destruct Hinv as [Hsr Hso Hr Hsize Hsizes _ _]. rewrite <- Hsizes in Hsize.
  set (n := SnowflakeSegment.size (Main.segment st)) in *.
  destruct (region_size_valid n Hsize) as [_ [_ [_ Hrange]]].
  pose proof (half_arc_sin_le _ _ Hrange) as [Hs0 Hsle].
  set (h := sin (PI / IZR (region_size n)) * SNOWFLAKE_SEGMENT_RADIUS).
  assert (Hh : 0 <= h <= SNOWFLAKE_SEGMENT_RADIUS).
  { pose proof (SIN_bound (PI / IZR (region_size n))) as [_ H1].
    unfold h, SNOWFLAKE_SEGMENT_RADIUS. split; nra. }
  assert (Hr' : Snowflake.radius (Main.snowflake st) <> 0)
    by (rewrite Hr; exact SNOWFLAKE_RADIUS_nonzero).
  pose proof (segment_get_region_valid (Main.segment st) false Hsize) as Hbox.
  cbn zeta in Hbox. fold n in Hbox. rewrite Hso, Hsr in Hbox. fold h in Hbox.
  cbn [fst snd SNOWFLAKE_SEGMENT_POSITION] in Hbox.
  do 2 eexists. split; [apply draw_segment_map, Hr' |].
  split; [apply length_map | split; [exact Hbox |]].
  apply Forall_map. rewrite Forall_forall in *. intros item Hin.
  destruct (Hfit item Hin) as [Hinside [Htheta _]].
  unfold inside, Snowflake.rescaled in Hinside.
  rewrite fdiv_ok in Hinside by exact Hr'. cbn [bind] in Hinside.
  apply contains_point_true_iff in Hinside; [| fold n; lia].
  cbn [PolarPoint.radius PolarPoint.theta] in Hinside. fold n in Hinside.
  destruct Hinside as [Harc Hrad]. rewrite Hsr in Hrad.
  destruct (accepted_angle_bounds n _ ltac:(lia) Htheta Harc) as [Hcos [Hsin1 Hsin2]].
  unfold centre_in_box, dot_centre. rewrite Hso, Hsr.
  set (r := PolarPoint.radius (fields (fst item)) * SNOWFLAKE_SEGMENT_RADIUS
            / Snowflake.radius (Main.snowflake st)) in *.
  apply segment_point_in_box; [exact Hrad | exact Hcos | | apply Hh].
  unfold h, SNOWFLAKE_SEGMENT_RADIUS in *. split; nra.
Qed.

Lemma segment_dots_in_cleared_box_witness :
  Main.reachable (after_frame Main.init held_click)
  /\ exists calls box,
       Snowflake.draw_segment (Main.snowflake (after_frame Main.init held_click))
         (Main.segment (after_frame Main.init held_click)) = Ok calls
       /\ length calls
          = length (Snowflake.pixels (Main.snowflake (after_frame Main.init held_click)))
       /\ SnowflakeSegment.get_region (Main.segment (after_frame Main.init held_click))
            false = Ok box
       /\ Forall (centre_in_box box) calls.
Proof.
  split; [exact reachable_after_held_click |].
  exact (segment_dots_in_cleared_box _ reachable_after_held_click).
Defined.

(** ** The centre of the drawn figure *)

(** X24: [draw_pixels] draws around the snowflake's origin reflected in the
    Cartesian origin, [(x, SCREEN_HEIGHT - y)]: every dot of a pixel of
    radius at most [rho] is centred within [rho] pixels of it, and a pixel
    of radius 0 exactly on it.  [draw_outline] circles the origin [(x, y)]
    itself, so dots and outline are concentric only for an origin at half
    the screen height, where [main] puts it. *)
Theorem draw_pixels_around_flipped_origin (s : Snowflake.t) (rho : Z) :
  Snowflake.size s <> 0%Z ->
  Forall (fun item => 0 <= PolarPoint.radius (fields (fst item)) <= IZR rho)
         (Snowflake.pixels s) ->
  let centre := (fst (Snowflake.origin s), (SCREEN_HEIGHT - snd (Snowflake.origin s))%Z) in
  (exists calls,
      Snowflake.draw_pixels s = Ok calls /\ Forall (centre_near centre rho) calls)
  /\ Snowflake.draw_outline s
     = [outline_circle SNOWFLAKE_COLOR (Snowflake.origin s) (Snowflake.radius s)
          ALTERNATE_THICKNESS]
  /\ (centre = Snowflake.origin s <-> (2 * snd (Snowflake.origin s) = SCREEN_HEIGHT)%Z).
Proof.
  intros Hn Hpix centre. split; [| split; [reflexivity |]].
  - destruct (draw_pixels_concat s Hn) as [copies [Hcopies Hdraw]].
    eexists. split; [exact Hdraw |].
    apply Forall_concat, Forall_map. rewrite Forall_forall in *.
    intros item Hin. pose proof (Hcopies item) as Hone.
    rewrite draw_pixel_ok in Hone by exact Hn. injection Hone as <-.
    apply Forall_map, Forall_forall. intros i _.
    pose proof (to_rectangular_at_within
                  (Snowflake.real_theta (Snowflake.mirror s)
                     (RADIANS_IN_CIRCLE / IZR (Snowflake.size s)) i
                     (PolarPoint.theta (fields (fst item))) (Snowflake._current_angle s))
                  (PolarPoint.radius (fields (fst item))) (Snowflake.origin s) rho
                  (Hpix item Hin)) as [Hx Hy].
    unfold centre_near, dot_centre, centre. cbn [fst snd] in *. lia.
  - unfold centre. destruct (Snowflake.origin s) as [ox oy]. cbn [fst snd]. split.
    + intros Heq. apply (f_equal snd) in Heq. cbn [snd] in Heq. lia.
    + intros H. f_equal. lia.
Qed.

Lemma draw_pixels_around_flipped_origin_witness :
  Snowflake.size two_pixel_snowflake <> 0%Z
  /\ Forall (fun item => 0 <= PolarPoint.radius (fields (fst item)) <= IZR 75)
            (Snowflake.pixels two_pixel_snowflake)
  /\ exists calls,
       Snowflake.draw_pixels two_pixel_snowflake = Ok calls
       /\ Forall (centre_near
                    (fst (Snowflake.origin two_pixel_snowflake),
                     (SCREEN_HEIGHT - snd (Snowflake.origin two_pixel_snowflake))%Z) 75)
                 calls.
Proof.
  assert (Hn : Snowflake.size two_pixel_snowflake <> 0%Z)
    by (cbn; unfold DEFAULT_SIZE; lia).
  assert (Hpix : Forall (fun item => 0 <= PolarPoint.radius (fields (fst item)) <= IZR 75)
                        (Snowflake.pixels two_pixel_snowflake))
    by (cbn; repeat constructor; cbn; lra).
  split; [exact Hn | split; [exact Hpix |]].
  exact (proj1 (draw_pixels_around_flipped_origin two_pixel_snowflake 75 Hn Hpix)).
Defined.
